(** * The browser attacher of vscode-js-debug

    A shallow embedding of [src/targets/browser/browserAttacher.ts]: the class
    [BrowserAttacher], its asynchronous methods cut at their [await]s, and the
    events the JavaScript run time delivers to it (calls of its methods,
    promise settlements, timer expiry, listener notifications).

    JavaScript runs one job at a time, so a method runs without interruption
    from one [await] to the next; the model is a deterministic step function
    from a world and an event to a world.  A step runs the resumed method and
    the callers that await it, up to the next [await] of something outside
    the attacher: the turns of the job queue between the return of
    [acquireConnectionForBrowser] and the resumption of [_attemptToAttach],
    and between the return of [_attemptToAttach] and that of [launch], read
    and write no field.

    What lies outside the attacher is kept as a log of the calls it makes
    ([launcher.attach], [delay], [setTimeout], [close], [dispose], the two
    notifications) and as events that answer them.  A connection that was
    closed, or lost, reports it by a later [Disconnected] event.

    The second part, [GenerateCdpApi], embeds the functions of
    [generate-cdp-api.js] that produce the lines of the protocol typings. *)

From Stdlib Require Import Ascii String ZArith Lia.
From stdpp Require Import base gmap strings list pretty.

(** ** Values the attacher receives *)

(** The few JavaScript values that reach a message placeholder here. *)
Inductive JsVal :=
| JsUndefined
| JsString (s : string)
| JsNumber (n : Z).

(** [String(v)]; numbers of this file (ports, milliseconds) are integers. *)
Definition js_to_string (v : JsVal) : string :=
  match v with
  | JsUndefined => "undefined"
  | JsString s => s
  | JsNumber n => pretty n
  end.

(** JavaScript truthiness of an optional string: [undefined] and [''] are falsy. *)
Definition truthy (v : option string) : bool :=
  match v with
  | Some EmptyString => false
  | Some _ => true
  | None => false
  end.

(** [a || b] on optional strings. *)
Definition js_or (a b : option string) : option string :=
  if truthy a then a else b.

Definition js_of_option (v : option string) : JsVal :=
  match v with
  | Some s => JsString s
  | None => JsUndefined
  end.

(** Modelled from the spec: the enumeration [DebugType] of
    [common/contributionUtils] is not among the sources; the attacher names two
    of its members, [Chrome] and [Edge], and the spec calls them the
    browser-attach request kinds.  Every other member is an [OtherDebugType]. *)
Inductive DebugType :=
| Chrome
| Edge
| OtherDebugType (name : string).

(** A launch configuration object.  [ref] is the identity of the object: it is
    what [===] compares, the other fields are what the attacher reads. *)
Record AttachParams := {
  ref : nat;
  type : DebugType;
  request : string;
  address : string;
  port : Z;
  restart : bool;
  urlFilter : option string;
  url : option string;
  timeout : Z;
}.

(** [a === b] on configuration objects. *)
Definition same_object (a b : AttachParams) : bool := Nat.eqb (ref a) (ref b).

(** A cancellation token: the caller's, whose flag the caller may raise at any
    time, or the constant [NeverCancelled].

    Modelled from the spec: [NeverCancelled] of [common/cancellation] is not
    among the sources; it is the token for non-cancellable contexts, whose
    [isCancellationRequested] is [false] for ever. *)
Inductive CancellationToken :=
| NeverCancelled
| CallerToken (id : nat).

Record ILaunchContext := {
  telemetryReporter : nat;
  cancellationToken : CancellationToken;
  targetOrigin : nat;
}.

(** [{ ...context, cancellationToken: tok }] *)
Definition with_token (context : ILaunchContext) (tok : CancellationToken) : ILaunchContext :=
  {| telemetryReporter := telemetryReporter context;
     cancellationToken := tok;
     targetOrigin := targetOrigin context |}.

(** The object [launch] resolves to: both fields are optional in the
    interface, the record keeps them apart. *)
Record ILaunchResult := {
  error : option string;
  blockSessionTermination : option bool;
}.

Record IStopMetadata := {
  killed : bool;
  code : Z;
}.

Record ITarget := {
  targetId : nat;
  canAttach : bool;
}.

(** ** Message formatting *)

Module Nls.

(** [localize(key, message, ...args)] of a bundle loaded without
    translations: each placeholder [{i}] of [message] is replaced, in one
    pass, by [String(args[i])]; text coming from an argument is not scanned
    again.  The messages of this file use the placeholders [{0}] and [{1}]
    only; a missing argument prints as [undefined]. *)
Fixpoint format (message : string) (args : list JsVal) : string :=
  match message with
  | String "{"%char (String d (String "}"%char rest)) =>
      if Ascii.eqb d "0"%char then
        js_to_string (nth 0 args JsUndefined) +:+ format rest args
      else if Ascii.eqb d "1"%char then
        js_to_string (nth 1 args JsUndefined) +:+ format rest args
      else String "{"%char (String d (String "}"%char (format rest args)))
  | String c rest => String c (format rest args)
  | EmptyString => EmptyString
  end.

Definition localize (key message : string) (args : list JsVal) : string :=
  format message args.

End Nls.

(** [s] occurs in [t]. *)
Definition contains (t s : string) : Prop :=
  exists before after, t = before +:+ s +:+ after.

(** ** The attacher and the run time around it *)

(** The private fields of [BrowserAttacher]; handles are numbers. *)
Record Attacher := {
  _attemptTimer : option nat;
  _connection : option nat;
  _targetManager : option nat;
  _disposables : list nat;
  _lastLaunchParams : option AttachParams;
}.

(** Where an invocation of [_attemptToAttach] is suspended. *)
Inductive Pc :=
| AwaitAttach                         (* await launcher.attach(...) *)
| AwaitDelay                          (* await delay(1000) *)
| AwaitConnect (connection : nat)     (* await BrowserTargetManager.connect(...) *)
| AwaitRace (targetManager : nat).    (* await Promise.race([...]) *)

(** Who called [_attemptToAttach]: [launch], which awaits its result, or the
    timer of [_scheduleAttach], which drops it. *)
Inductive Origin :=
| FromLaunch
| FromTimer.

Record Attempt := {
  t_origin : Origin;
  t_params : AttachParams;
  t_context : ILaunchContext;
  t_pc : Pc;
}.

(** A listener registered with [connection.onDisconnected]: the closure keeps
    [params] and [context]. *)
Record Listener := {
  l_connection : nat;
  l_params : AttachParams;
  l_context : ILaunchContext;
}.

(** What the attacher does to the outside, in the order it does it. *)
Inductive Effect :=
| LauncherAttach (attempt : nat) (browserURL : string) (token : CancellationToken)
    (* launcher.attach({ browserURL }, cancellationToken, ...) *)
| Delay (attempt : nat) (ms : Z)                       (* delay(ms) *)
| SetTimeout (timer : nat) (ms : Z)                    (* setTimeout(callback, ms) *)
| ClearTimeout (timer : nat)                           (* clearTimeout(timer) *)
| OnDisconnected (subscription : nat) (connection : nat)
    (* connection.onDisconnected(listener, undefined, this._disposables) *)
| DisposeSubscription (subscription : nat)             (* disposable.dispose() *)
| TargetManagerConnect (attempt : nat) (connection : nat)
    (* BrowserTargetManager.connect(connection, ...) *)
| TargetManagerListen (targetManager : nat)            (* the four listeners of lines 110-121 *)
| TargetManagerDispose (targetManager : nat)           (* targetManager.dispose() *)
| WaitForMainTarget (attempt : nat) (targetManager : nat) (params : AttachParams)
    (* targetManager.waitForMainTarget(createTargetFilterForConfig(params)) *)
| ConnectionClose (connection : nat)                   (* connection.close() *)
| FireTargetListChanged                                (* this._onTargetListChangedEmitter.fire() *)
| FireTerminated (metadata : IStopMetadata).
    (* this._onTerminatedEmitter.fire(metadata) *)

Record World := {
  this : Attacher;
  attempts : gmap nat Attempt;                        (* suspended attach attempts *)
  timers : gmap nat (AttachParams * ILaunchContext);  (* pending setTimeout callbacks *)
  listeners : list (nat * Listener);                  (* live onDisconnected listeners *)
  wired : list nat;                                   (* target managers the attacher listens to *)
  cancelled : gset nat;                               (* caller tokens already signalled *)
  attempt_results : gmap nat (option string);         (* what finished attempts returned *)
  launch_results : gmap nat ILaunchResult;            (* what finished launch calls returned *)
  next_handle : nat;                                  (* the next fresh handle *)
  log : list Effect;
}.

(** What happens to the attacher: a call of one of its methods, the caller
    signalling a token, or the run time resuming a suspended attempt or calling
    a listener. *)
Inductive Event :=
| Launch (params : AttachParams) (context : ILaunchContext)
| Terminate
| Disconnect
| Restart
| Dispose
| Cancel (token : nat)
| AttachResolved (attempt : nat) (connection : nat)   (* launcher.attach fulfilled *)
| AttachRejected (attempt : nat) (message : string)   (* launcher.attach rejected with e *)
| DelayElapsed (attempt : nat)                        (* delay(1000) of the acquire loop *)
| ConnectResolved (attempt : nat) (targetManager : option nat)
| MainTargetResolved (attempt : nat)                  (* waitForMainTarget won the race *)
| TimeoutElapsed (attempt : nat)                      (* delay(params.timeout) won the race *)
| TimerFired (timer : nat)                            (* the setTimeout callback is due *)
| Disconnected (connection : nat)                     (* the connection fires onDisconnected *)
| ServiceWorkersChanged (targetManager : nat)
| FrameNavigated (targetManager : nat)
| TargetAdded (targetManager : nat)
| TargetRemoved (targetManager : nat) (targetList : list ITarget) (target : ITarget).

(** ** Plumbing: field updates *)

Definition set_attemptTimer (v : option nat) (a : Attacher) : Attacher :=
  {| _attemptTimer := v; _connection := _connection a;
     _targetManager := _targetManager a; _disposables := _disposables a;
     _lastLaunchParams := _lastLaunchParams a |}.

Definition set_connection (v : option nat) (a : Attacher) : Attacher :=
  {| _attemptTimer := _attemptTimer a; _connection := v;
     _targetManager := _targetManager a; _disposables := _disposables a;
     _lastLaunchParams := _lastLaunchParams a |}.

Definition set_targetManager (v : option nat) (a : Attacher) : Attacher :=
  {| _attemptTimer := _attemptTimer a; _connection := _connection a;
     _targetManager := v; _disposables := _disposables a;
     _lastLaunchParams := _lastLaunchParams a |}.

Definition set_disposables (v : list nat) (a : Attacher) : Attacher :=
  {| _attemptTimer := _attemptTimer a; _connection := _connection a;
     _targetManager := _targetManager a; _disposables := v;
     _lastLaunchParams := _lastLaunchParams a |}.

Definition set_lastLaunchParams (v : option AttachParams) (a : Attacher) : Attacher :=
  {| _attemptTimer := _attemptTimer a; _connection := _connection a;
     _targetManager := _targetManager a; _disposables := _disposables a;
     _lastLaunchParams := v |}.

Definition with_this (f : Attacher -> Attacher) (w : World) : World :=
  {| this := f (this w); attempts := attempts w; timers := timers w;
     listeners := listeners w; wired := wired w; cancelled := cancelled w;
     attempt_results := attempt_results w; launch_results := launch_results w;
     next_handle := next_handle w; log := log w |}.

Definition with_attempts (f : gmap nat Attempt -> gmap nat Attempt) (w : World) : World :=
  {| this := this w; attempts := f (attempts w); timers := timers w;
     listeners := listeners w; wired := wired w; cancelled := cancelled w;
     attempt_results := attempt_results w; launch_results := launch_results w;
     next_handle := next_handle w; log := log w |}.

Definition with_timers
    (f : gmap nat (AttachParams * ILaunchContext) -> gmap nat (AttachParams * ILaunchContext))
    (w : World) : World :=
  {| this := this w; attempts := attempts w; timers := f (timers w);
     listeners := listeners w; wired := wired w; cancelled := cancelled w;
     attempt_results := attempt_results w; launch_results := launch_results w;
     next_handle := next_handle w; log := log w |}.

Definition with_listeners
    (f : list (nat * Listener) -> list (nat * Listener)) (w : World) : World :=
  {| this := this w; attempts := attempts w; timers := timers w;
     listeners := f (listeners w); wired := wired w; cancelled := cancelled w;
     attempt_results := attempt_results w; launch_results := launch_results w;
     next_handle := next_handle w; log := log w |}.

Definition with_wired (f : list nat -> list nat) (w : World) : World :=
  {| this := this w; attempts := attempts w; timers := timers w;
     listeners := listeners w; wired := f (wired w); cancelled := cancelled w;
     attempt_results := attempt_results w; launch_results := launch_results w;
     next_handle := next_handle w; log := log w |}.

Definition with_cancelled (f : gset nat -> gset nat) (w : World) : World :=
  {| this := this w; attempts := attempts w; timers := timers w;
     listeners := listeners w; wired := wired w; cancelled := f (cancelled w);
     attempt_results := attempt_results w; launch_results := launch_results w;
     next_handle := next_handle w; log := log w |}.

Definition with_attempt_results
    (f : gmap nat (option string) -> gmap nat (option string)) (w : World) : World :=
  {| this := this w; attempts := attempts w; timers := timers w;
     listeners := listeners w; wired := wired w; cancelled := cancelled w;
     attempt_results := f (attempt_results w); launch_results := launch_results w;
     next_handle := next_handle w; log := log w |}.

Definition with_launch_results
    (f : gmap nat ILaunchResult -> gmap nat ILaunchResult) (w : World) : World :=
  {| this := this w; attempts := attempts w; timers := timers w;
     listeners := listeners w; wired := wired w; cancelled := cancelled w;
     attempt_results := attempt_results w; launch_results := f (launch_results w);
     next_handle := next_handle w; log := log w |}.

Definition with_next_handle (f : nat -> nat) (w : World) : World :=
  {| this := this w; attempts := attempts w; timers := timers w;
     listeners := listeners w; wired := wired w; cancelled := cancelled w;
     attempt_results := attempt_results w; launch_results := launch_results w;
     next_handle := f (next_handle w); log := log w |}.

Definition with_log (f : list Effect -> list Effect) (w : World) : World :=
  {| this := this w; attempts := attempts w; timers := timers w;
     listeners := listeners w; wired := wired w; cancelled := cancelled w;
     attempt_results := attempt_results w; launch_results := launch_results w;
     next_handle := next_handle w; log := f (log w) |}.

(** The attacher does [e]. *)
Definition emit (e : Effect) : World -> World := with_log (fun l => l ++ [e]).

(** The invocation [t] waits at [pc]. *)
Definition suspend (t : nat) (attempt : Attempt) (pc : Pc) : World -> World :=
  with_attempts <[t := {| t_origin := t_origin attempt; t_params := t_params attempt;
                       t_context := t_context attempt; t_pc := pc |}]>.

(** [token.isCancellationRequested] *)
Definition isCancellationRequested (w : World) (token : CancellationToken) : bool :=
  match token with
  | NeverCancelled => false
  | CallerToken id => bool_decide (id ∈ cancelled w)
  end.

(** [this._lastLaunchParams === params] *)
Definition is_current (w : World) (params : AttachParams) : bool :=
  match _lastLaunchParams (this w) with
  | Some p => same_object p params
  | None => false
  end.

#[global] Instance DebugType_eq_dec : EqDecision DebugType.
Proof. solve_decision. Defined.

(** ** The class [BrowserAttacher] *)

Module BrowserAttacher.

(** Line 143: [`http://${params.address}:${params.port}`]. *)
Definition browserURL (params : AttachParams) : string :=
  "http://" +:+ address params +:+ ":" +:+ pretty (port params).

(** Lines 154-159 and 166-171. *)
Definition cannotConnect (params : AttachParams) (cause : string) : string :=
  Nls.localize "attach.cannotConnect" "Cannot connect to the target at {0}: {1}"
    [JsString (browserURL params); JsString cause].

(** Lines 126-131. *)
Definition noMatchingTarget (params : AttachParams) : string :=
  Nls.localize "chrome.attach.noMatchingTarget"
    "Can't find a valid target that matches {0} within {1}ms"
    [js_of_option (js_or (urlFilter params) (url params)); JsNumber (timeout params)].

(** *** [acquireConnectionForBrowser] (lines 138-172)

    The method either waits at one of its two [await]s or returns: a string
    (an error) or a connection. *)
Inductive Acquire :=
| Suspended (pc : Pc)
| Returned (result : string + nat).

(** Lines 144-151 and 166-171: the [while] condition; the call of
    [launcher.attach] if it holds, the error citing Cancelled if not. *)
Definition acquire_loop (t : nat) (params : AttachParams) (token : CancellationToken)
    (w : World) : Acquire * World :=
  if is_current w params then
    (Suspended AwaitAttach, emit (LauncherAttach t (browserURL params) token) w)
  else
    (Returned (inl (cannotConnect params "Cancelled")), w).

(** Line 146, [launcher.attach] fulfilled: [return await ...]. *)
Definition acquire_resolved (connection : nat) (w : World) : Acquire * World :=
  (Returned (inr connection), w).

(** Lines 152-163, [launcher.attach] rejected with [e]: the [catch] block;
    [message] is [e.message]. *)
Definition acquire_rejected (t : nat) (params : AttachParams) (token : CancellationToken)
    (message : string) (w : World) : Acquire * World :=
  if isCancellationRequested w token then
    (Returned (inl (cannotConnect params message)), w)
  else
    (Suspended AwaitDelay, emit (Delay t 1000) w).

(** Line 162, [delay(1000)] elapsed: back to the head of the loop. *)
Definition acquire_delayed (t : nat) (params : AttachParams) (token : CancellationToken)
    (w : World) : Acquire * World :=
  acquire_loop t params token w.

(** *** [_scheduleAttach] (lines 62-67) *)

Definition _scheduleAttach (params : AttachParams) (context : ILaunchContext)
    (w : World) : World :=
  let timer := next_handle w in
  let w := with_next_handle S w in
  let w := with_timers <[timer := (params, context)]> w in
  let w := emit (SetTimeout timer 1000) w in
  with_this (set_attemptTimer (Some timer)) w.

(** *** [_attemptToAttach] (lines 69-136) *)

(** Line 59: [launch] resumes when the attempt it awaits returns [error]. *)
Definition launch_return (error : option string) : ILaunchResult :=
  if truthy error then {| error := error; blockSessionTermination := None |}
  else {| error := None; blockSessionTermination := Some true |}.

(** The attempt [t] returns [error] to its caller. *)
Definition finish (t : nat) (attempt : Attempt) (error : option string) (w : World) : World :=
  let w := with_attempts (delete t) w in
  let w := with_attempt_results <[t := error]> w in
  match t_origin attempt with
  | FromLaunch => with_launch_results <[t := launch_return error]> w
  | FromTimer => w
  end.

(** Lines 81-94: the listener given to [connection.onDisconnected]. *)
Definition onDisconnected_listener (params : AttachParams) (context : ILaunchContext)
    (w : World) : World :=
  let w := with_this (set_connection None) w in
  let w :=
    match _targetManager (this w) with
    | Some tm =>
        let w := emit (TargetManagerDispose tm) w in
        let w := with_this (set_targetManager None) w in
        emit FireTargetListChanged w
    | None => w
    end in
  if is_current w params && restart params then
    _scheduleAttach params context w
  else
    emit (FireTerminated {| killed := true; code := 0 |}) w.

(** Lines 79-107: from the return of [acquireConnectionForBrowser] with a
    connection to the [await] of [BrowserTargetManager.connect]; the listener
    is registered with [this._disposables] as the store of its subscription. *)
Definition attempt_connected (t : nat) (attempt : Attempt) (connection : nat)
    (w : World) : World :=
  let w := with_this (set_connection (Some connection)) w in
  let subscription := next_handle w in
  let w := with_next_handle S w in
  let w := with_listeners
             (fun ls => ls ++ [(subscription,
                                {| l_connection := connection;
                                   l_params := t_params attempt;
                                   l_context := t_context attempt |})]) w in
  let w := with_this (fun a => set_disposables (_disposables a ++ [subscription]) a) w in
  let w := emit (OnDisconnected subscription connection) w in
  let w := emit (TargetManagerConnect t connection) w in
  suspend t attempt (AwaitConnect connection) w.

(** Lines 70-77: what [_attemptToAttach] does with a step of
    [acquireConnectionForBrowser]. *)
Definition attempt_acquire (t : nat) (attempt : Attempt) (r : Acquire * World) : World :=
  match r with
  | (Suspended pc, w) => suspend t attempt pc w
  | (Returned (inl error), w) => finish t attempt (Some error) w
  | (Returned (inr connection), w) => attempt_connected t attempt connection w
  end.

(** Lines 99-133, [BrowserTargetManager.connect] resolved: the assignment to
    [_targetManager], the early return, the four listeners, the race. *)
Definition attempt_managed (t : nat) (attempt : Attempt) (targetManager : option nat)
    (w : World) : World :=
  let w := with_this (set_targetManager targetManager) w in
  match targetManager with
  | None => finish t attempt None w
  | Some tm =>
      let w := with_wired (fun l => l ++ [tm]) w in
      let w := emit (TargetManagerListen tm) w in
      let w := emit (WaitForMainTarget t tm (t_params attempt)) w in
      let w := emit (Delay t (timeout (t_params attempt))) w in
      suspend t attempt (AwaitRace tm) w
  end.

(** Line 135: [Promise.race] settled with [result], a string when the timeout
    won. *)
Definition attempt_raced (t : nat) (attempt : Attempt) (result : option string)
    (w : World) : World :=
  finish t attempt result w.

(** Lines 69-74: a call of [_attemptToAttach], up to its first [await]. *)
Definition _attemptToAttach (t : nat) (origin : Origin) (params : AttachParams)
    (context : ILaunchContext) (w : World) : World :=
  let attempt := {| t_origin := origin; t_params := params;
                 t_context := context; t_pc := AwaitAttach |} in
  attempt_acquire t attempt (acquire_loop t params (cancellationToken context) w).

(** Lines 63-66: the callback given to [setTimeout] by [_scheduleAttach]. *)
Definition timer_callback (params : AttachParams) (context : ILaunchContext)
    (w : World) : World :=
  let w := with_this (set_attemptTimer None) w in
  let t := next_handle w in
  let w := with_next_handle S w in
  _attemptToAttach t FromTimer params (with_token context NeverCancelled) w.

(** Lines 110-121: the listeners given to the target manager; [targetList]
    is what [targetManager.targetList()] returns when the listener runs. *)
Definition onTargetListChange (w : World) : World :=
  emit FireTargetListChanged w.

Definition onTargetRemoved_listener (targetList : list ITarget) (target : ITarget)
    (w : World) : World :=
  let w := emit FireTargetListChanged w in
  if Nat.eqb (length targetList) 0 && canAttach target then
    emit (FireTerminated {| killed := true; code := 0 |}) w
  else w.

(** *** The public methods *)

(** Lines 48-60.  The handle [call] names this call; the result is recorded
    under it when [launch] returns. *)
Definition launch (params : AttachParams) (context : ILaunchContext)
    (w : World) : World :=
  let call := next_handle w in
  let w := with_next_handle S w in
  if (bool_decide (type params ≠ Chrome) && bool_decide (type params ≠ Edge))
     || negb (String.eqb (request params) "attach")
  then
    with_launch_results
      <[call := {| error := None; blockSessionTermination := Some false |}]> w
  else
    let w := with_this (set_lastLaunchParams (Some params)) w in
    _attemptToAttach call FromLaunch params context w.

Definition clearTimeout (timer : nat) (w : World) : World :=
  emit (ClearTimeout timer) (with_timers (delete timer) w).

(** [disposable.dispose()] for a subscription of [_disposables]. *)
Definition dispose_subscription (w : World) (subscription : nat) : World :=
  emit (DisposeSubscription subscription)
    (with_listeners (filter (fun l => l.1 ≠ subscription)) w).

(** Lines 41-46. *)
Definition dispose (w : World) : World :=
  let w := foldl dispose_subscription w (_disposables (this w)) in
  let w := with_this (set_disposables []) w in
  let w := match _attemptTimer (this w) with
           | Some timer => clearTimeout timer w
           | None => w
           end in
  match _targetManager (this w) with
  | Some tm => emit (TargetManagerDispose tm) w
  | None => w
  end.

(** Lines 174-177. *)
Definition terminate (w : World) : World :=
  let w := with_this (set_lastLaunchParams None) w in
  match _connection (this w) with
  | Some connection => emit (ConnectionClose connection) w
  | None => w
  end.

(** Lines 179-181. *)
Definition disconnect (w : World) : World := terminate w.

(** Lines 183-185. *)
Definition restart (w : World) : World := w.

(** Lines 187-190.  What a target manager's own [targetList()] returns is
    the manager's business: [managed manager] stands for it. *)
Definition targetList (managed : nat -> list ITarget) (w : World) : list ITarget :=
  match _targetManager (this w) with
  | Some manager => managed manager
  | None => []
  end.

End BrowserAttacher.

(** ** The run time *)

(** The attempt [t], if it waits at a point where [pc_ok] holds. *)
Definition waiting (w : World) (t : nat) (pc_ok : Pc -> bool) : option Attempt :=
  match attempts w !! t with
  | Some attempt => if pc_ok (t_pc attempt) then Some attempt else None
  | None => None
  end.

Definition at_attach (pc : Pc) : bool := match pc with AwaitAttach => true | _ => false end.
Definition at_delay (pc : Pc) : bool := match pc with AwaitDelay => true | _ => false end.
Definition at_connect (pc : Pc) : bool := match pc with AwaitConnect _ => true | _ => false end.
Definition at_race (pc : Pc) : bool := match pc with AwaitRace _ => true | _ => false end.

(** Calls [f] once for each registration of [tm] with the attacher. *)
Definition notify (tm : nat) (f : World -> World) (w : World) : World :=
  foldl (fun w _ => f w) w (filter (fun x => x = tm) (wired w)).

(** One event.  An event that has no addressee (a settlement for an attempt
    that does not wait for it, a timer that was cleared, a notification
    nobody listens to) changes nothing. *)
Definition step (w : World) (ev : Event) : World :=
  match ev with
  | Launch params context => BrowserAttacher.launch params context w
  | Terminate => BrowserAttacher.terminate w
  | Disconnect => BrowserAttacher.disconnect w
  | Restart => BrowserAttacher.restart w
  | Dispose => BrowserAttacher.dispose w
  | Cancel token => with_cancelled (fun s => {[token]} ∪ s) w
  | AttachResolved t connection =>
      match waiting w t at_attach with
      | Some attempt =>
          BrowserAttacher.attempt_acquire t attempt
            (BrowserAttacher.acquire_resolved connection w)
      | None => w
      end
  | AttachRejected t message =>
      match waiting w t at_attach with
      | Some attempt =>
          BrowserAttacher.attempt_acquire t attempt
            (BrowserAttacher.acquire_rejected t (t_params attempt)
               (cancellationToken (t_context attempt)) message w)
      | None => w
      end
  | DelayElapsed t =>
      match waiting w t at_delay with
      | Some attempt =>
          BrowserAttacher.attempt_acquire t attempt
            (BrowserAttacher.acquire_delayed t (t_params attempt)
               (cancellationToken (t_context attempt)) w)
      | None => w
      end
  | ConnectResolved t targetManager =>
      match waiting w t at_connect with
      | Some attempt => BrowserAttacher.attempt_managed t attempt targetManager w
      | None => w
      end
  | MainTargetResolved t =>
      match waiting w t at_race with
      | Some attempt => BrowserAttacher.attempt_raced t attempt None w
      | None => w
      end
  | TimeoutElapsed t =>
      match waiting w t at_race with
      | Some attempt =>
          BrowserAttacher.attempt_raced t attempt
            (Some (BrowserAttacher.noMatchingTarget (t_params attempt))) w
      | None => w
      end
  | TimerFired timer =>
      match timers w !! timer with
      | Some (params, context) =>
          BrowserAttacher.timer_callback params context (with_timers (delete timer) w)
      | None => w
      end
  | Disconnected connection =>
      foldl (fun w l => BrowserAttacher.onDisconnected_listener (l_params l.2) (l_context l.2) w)
        w (filter (fun l => l_connection l.2 = connection) (listeners w))
  | ServiceWorkersChanged tm => notify tm BrowserAttacher.onTargetListChange w
  | FrameNavigated tm => notify tm BrowserAttacher.onTargetListChange w
  | TargetAdded tm => notify tm BrowserAttacher.onTargetListChange w
  | TargetRemoved tm targetList target =>
      notify tm (BrowserAttacher.onTargetRemoved_listener targetList target) w
  end.

Definition run (w : World) (evs : list Event) : World := foldl step w evs.

(** A new attacher: every field [undefined] or empty, nothing pending. *)
Definition new_attacher : Attacher :=
  {| _attemptTimer := None; _connection := None; _targetManager := None;
     _disposables := []; _lastLaunchParams := None |}.

Definition initial : World :=
  {| this := new_attacher; attempts := ∅; timers := ∅; listeners := []; wired := [];
     cancelled := ∅; attempt_results := ∅; launch_results := ∅;
     next_handle := 0; log := [] |}.


(** ** Vocabulary of the statements *)

Definition browser_attach (params : AttachParams) : Prop :=
  (type params = Chrome \/ type params = Edge) /\ request params = "attach".

Definition waits_at (w : World) (t : nat) (origin : Origin) (params : AttachParams)
    (context : ILaunchContext) (pc : Pc) : Prop :=
  attempts w !! t
  = Some {| t_origin := origin; t_params := params; t_context := context; t_pc := pc |}.

(** The attempt on whose behalf the attacher makes a call, for the calls it
    makes once per attempt. *)
Definition effect_owner (e : Effect) : option nat :=
  match e with
  | LauncherAttach t _ _ | Delay t _ | TargetManagerConnect t _
  | WaitForMainTarget t _ _ => Some t
  | _ => None
  end.

(** The calls made on behalf of the attempt [t], oldest first. *)
Definition effects_of (t : nat) (l : list Effect) : list Effect :=
  filter (fun e => effect_owner e = Some t) l.

Definition is_open (e : Effect) : Prop :=
  match e with
  | LauncherAttach _ _ _ => True
  | _ => False
  end.

#[global] Instance is_open_dec e : Decision (is_open e).
Proof. destruct e; simpl; apply _. Defined.

(** How often the attempt [t] called [launcher.attach]. *)
Definition open_attempts (t : nat) (w : World) : nat :=
  length (filter is_open (effects_of t (log w))).

(** The attempt [t] has left the acquire loop (or has returned). *)
Definition past_acquire (t : nat) (w : World) : Prop :=
  t < next_handle w /\
  forall attempt, attempts w !! t = Some attempt ->
    at_attach (t_pc attempt) = false /\ at_delay (t_pc attempt) = false.

(** The configuration of the spec's concrete scenario, a second one, and a
    launch context with a caller token. *)
Definition example_params : AttachParams :=
  {| ref := 1; type := Chrome; request := "attach"; address := "127.0.0.1";
     port := 9222; restart := true; urlFilter := Some "*"; url := None;
     timeout := 3000 |}.

Definition other_params : AttachParams :=
  {| ref := 2; type := Edge; request := "attach"; address := "localhost";
     port := 9229; restart := false; urlFilter := None;
     url := Some "http://localhost:8080"; timeout := 10000 |}.

Definition example_context : ILaunchContext :=
  {| telemetryReporter := 0; cancellationToken := CallerToken 0; targetOrigin := 0 |}.

(** The attempt an event resumes, if any. *)
Definition addressee (ev : Event) : option nat :=
  match ev with
  | AttachResolved t _ | AttachRejected t _ | DelayElapsed t
  | ConnectResolved t _ | MainTargetResolved t | TimeoutElapsed t => Some t
  | _ => None
  end.

(** The events of [evs] that resume the attempt [t]. *)
Definition events_of (t : nat) (evs : list Event) : list Event :=
  filter (fun ev => addressee ev = Some t) evs.

(** [P] holds before each event of [evs], run from [w]. *)
Fixpoint always (P : World -> Prop) (w : World) (evs : list Event) : Prop :=
  match evs with
  | [] => True
  | ev :: evs => P w /\ always P (step w ev) evs
  end.

(** From [w] to [w'] nothing happened to the attempt or call [t], and nothing
    was done on its behalf. *)
Definition untouched (t : nat) (w w' : World) : Prop :=
  t < next_handle w ->
  t < next_handle w' /\
  attempts w' !! t = attempts w !! t /\
  attempt_results w' !! t = attempt_results w !! t /\
  launch_results w' !! t = launch_results w !! t /\
  effects_of t (log w') = effects_of t (log w).

(** The three results [launch] can give, against what its attempt returned
    ([None]: no attempt was made or it has not returned). *)
Definition launched (r : ILaunchResult) (a : option (option string)) : Prop :=
  (r = {| error := None; blockSessionTermination := Some false |} /\ a = None) \/
  (exists e, e <> "" /\ a = Some (Some e) /\
             r = {| error := Some e; blockSessionTermination := None |}) \/
  (a = Some None /\ r = {| error := None; blockSessionTermination := Some true |}).

(** The handle [t] is in use for an attempt that has not returned. *)
Definition slot_free (w : World) (t : nat) : Prop :=
  t < next_handle w /\ attempt_results w !! t = None /\ launch_results w !! t = None.

(** What holds of every world the attacher can be in. *)
Record wf (w : World) : Prop := {
  wf_attempts : forall t attempt, attempts w !! t = Some attempt -> slot_free w t;
  wf_results : forall t r, attempt_results w !! t = Some r ->
    t < next_handle w /\ attempts w !! t = None /\ forall e, r = Some e -> e <> "";
  wf_launches : forall t r, launch_results w !! t = Some r ->
    t < next_handle w /\ launched r (attempt_results w !! t);
  wf_listeners : forall s, s ∈ (listeners w).*1 -> s ∈ _disposables (this w);
}.

(** The call [call] of [launch] is waiting for its attempt, or has returned
    what [launch_return] makes of the attempt's result. *)
Definition launch_pending_or_returned (call : nat) (w : World) : Prop :=
  (exists attempt, attempts w !! call = Some attempt /\ t_origin attempt = FromLaunch) \/
  (attempts w !! call = None /\
   exists a, attempt_results w !! call = Some a /\
             launch_results w !! call = Some (BrowserAttacher.launch_return a)).

(** A world without its history: the attacher and everything pending. *)
Definition state_of (w : World) : World := with_log (fun _ => []) w.

(** No timer is pending: neither one of [setTimeout], nor the [delay] an
    attempt waits for in the acquire loop or in the race. *)
Definition no_live_timer (w : World) : Prop :=
  timers w = ∅ /\
  forall t attempt, attempts w !! t = Some attempt ->
    at_delay (t_pc attempt) = false /\ at_race (t_pc attempt) = false.

(** The subscriptions disposed so far, oldest first. *)
Definition subscription_disposals (w : World) : list nat :=
  omap (fun e => match e with DisposeSubscription s => Some s | _ => None end) (log w).

(** How often [dispose] was called on the target manager [tm]. *)
Definition target_manager_disposals (tm : nat) (w : World) : nat :=
  length (List.filter
            (fun e => match e with TargetManagerDispose tm' => Nat.eqb tm' tm | _ => false end)
            (log w)).


(** ** Vocabulary of the further properties *)

(** The kinds of calls the attacher makes. *)
Inductive Call :=
| OpenCall | DelayCall | SetTimeoutCall | ClearTimeoutCall | ListenCall
| UnlistenCall | ConnectCall | ManagerListenCall | ManagerDisposeCall
| WaitCall | CloseCall | ListChangedCall | TerminatedCall.

#[global] Instance Call_eq_dec : EqDecision Call.
Proof. solve_decision. Defined.

Definition kind (e : Effect) : Call :=
  match e with
  | LauncherAttach _ _ _ => OpenCall
  | Delay _ _ => DelayCall
  | SetTimeout _ _ => SetTimeoutCall
  | ClearTimeout _ => ClearTimeoutCall
  | OnDisconnected _ _ => ListenCall
  | DisposeSubscription _ => UnlistenCall
  | TargetManagerConnect _ _ => ConnectCall
  | TargetManagerListen _ => ManagerListenCall
  | TargetManagerDispose _ => ManagerDisposeCall
  | WaitForMainTarget _ _ _ => WaitCall
  | ConnectionClose _ => CloseCall
  | FireTargetListChanged => ListChangedCall
  | FireTerminated _ => TerminatedCall
  end.

(** The entries of the log that are calls of kind [k]. *)
Definition calls (k : Call) (w : World) : list Effect :=
  filter (fun e => kind e = k) (log w).

(** From [w] to [w'] the log only grew, by calls of the kinds [ks]; every
    attempt of [w'] is an attempt of [w] with the same origin, parameters and
    context, or is new and was started by [launch] or with [NeverCancelled]. *)
Definition evolves (ks : list Call) (w w' : World) : Prop :=
  (exists d, log w' = log w ++ d /\ Forall (fun e => kind e ∈ ks) d) /\
  forall t a', attempts w' !! t = Some a' ->
    (exists a, attempts w !! t = Some a /\ t_origin a = t_origin a' /\
               t_params a = t_params a' /\ t_context a = t_context a') \/
    t_origin a' = FromLaunch \/ cancellationToken (t_context a') = NeverCancelled.

(** The kinds of calls an event can cause. *)
Definition footprint (ev : Event) : list Call :=
  match ev with
  | Launch _ _ => [OpenCall]
  | Terminate | Disconnect => [CloseCall]
  | Restart => []
  | Dispose => [UnlistenCall; ClearTimeoutCall; ManagerDisposeCall]
  | Cancel _ => []
  | AttachResolved _ _ => [ListenCall; ConnectCall]
  | AttachRejected _ _ => [DelayCall]
  | DelayElapsed _ => [OpenCall]
  | ConnectResolved _ _ => [ManagerListenCall; WaitCall; DelayCall]
  | MainTargetResolved _ | TimeoutElapsed _ => []
  | TimerFired _ => [OpenCall]
  | Disconnected _ => [ManagerDisposeCall; ListChangedCall; SetTimeoutCall; TerminatedCall]
  | ServiceWorkersChanged _ | FrameNavigated _ | TargetAdded _ => [ListChangedCall]
  | TargetRemoved _ _ _ => [ListChangedCall; TerminatedCall]
  end.

Definition is_launch (ev : Event) : Prop :=
  match ev with Launch _ _ => True | _ => False end.

Definition is_terminate (ev : Event) : Prop :=
  match ev with Terminate | Disconnect => True | _ => False end.

#[global] Instance is_launch_dec ev : Decision (is_launch ev).
Proof. destruct ev; simpl; apply _. Defined.

#[global] Instance is_terminate_dec ev : Decision (is_terminate ev).
Proof. destruct ev; simpl; apply _. Defined.

(** The fields that only [launch], [terminate], the disconnect listener and
    the resumption after [BrowserTargetManager.connect] write. *)
Definition core (w : World) : option AttachParams * option nat * list nat :=
  (_lastLaunchParams (this w), _targetManager (this w), wired w).

(** The target manager whose listeners a call registers. *)
Definition listened (e : Effect) : option nat :=
  match e with TargetManagerListen tm => Some tm | _ => None end.

Definition graceful_exit : IStopMetadata := {| killed := true; code := 0 |}.

(** The attempt [a] may be entered under [t]: it continues the attempt that
    is there, or it was started by [launch] or with [NeverCancelled]. *)
Definition known (w : World) (t : nat) (a : Attempt) : Prop :=
  (exists a0, attempts w !! t = Some a0 /\ t_origin a0 = t_origin a /\
              t_params a0 = t_params a /\ t_context a0 = t_context a) \/
  t_origin a = FromLaunch \/ cancellationToken (t_context a) = NeverCancelled.


(** * The generator of the protocol typings

    A shallow embedding of the functions of [generate-cdp-api.js] that turn
    the protocol description into the lines of [api.d.ts].  The lines are
    pushed to the array [result], which the functions share: here each takes
    the array and returns it.  A function that can throw returns an [option],
    [None] standing for the TypeError.

    Strings are sequences of code units of the ASCII range, as the names of
    the protocol are; [ascii_only] says so where a statement depends on it.
    Fields of the parsed description have the types the protocol gives them;
    a field that may be missing is an [option] or [JAbsent]. *)

Module GenerateCdpApi.

(** A field that is a flag: absent, a boolean, or a string. *)
Inductive Json :=
| JAbsent
| JBool (b : bool)
| JString (s : string).

(** JavaScript truthiness of such a field. *)
Definition is_truthy (v : Json) : bool :=
  match v with
  | JAbsent => false
  | JBool b => b
  | JString s => truthy (Some s)
  end.

(** What the generator reads of a property, a parameter, or the [items] of an
    array. *)
#[warnings="-register-all"]
Inductive Property := {
  name : string;
  description : option string;
  optional : Json;
  deprecated : Json;
  type : option string;
  enum : option (list string);
  ref : option string;                                 (* prop['$ref'] *)
  items : option Property;
}.

Record Command := {
  command_name : string;
  command_description : option string;
  command_deprecated : Json;
  parameters : option (list Property);
  returns : option (list Property);
}.

Record ProtocolEvent := {
  event_name : string;
  event_description : option string;
  event_deprecated : Json;
  event_parameters : option (list Property);
}.

(** A type of a domain; [shape] holds the fields [generateType] reads of it. *)
Record ProtocolType := {
  id : string;
  type_description : option string;
  type_deprecated : Json;
  shape : Property;
  properties : option (list Property);
}.

Record Domain := {
  domain : string;
  commands : option (list Command);
  events : option (list ProtocolEvent);
  types : option (list ProtocolType);
}.

Definition LF : ascii := "010"%char.

Definition ascii_only (s : string) : Prop :=
  Forall (fun c => nat_of_ascii c < 128) (list_ascii_of_string s).

(** [c.toUpperCase()] of one code unit. *)
Definition upper (c : ascii) : ascii :=
  let n := nat_of_ascii c in
  if (97 <=? n) && (n <=? 122) then ascii_of_nat (n - 32) else c.

Fixpoint toUpperCase (s : string) : string :=
  match s with
  | EmptyString => EmptyString
  | String c rest => String (upper c) (toUpperCase rest)
  end.

(** [s[0]]: [undefined] for the empty string. *)
Definition first_unit (s : string) : option string :=
  match s with
  | EmptyString => None
  | String c _ => Some (String c EmptyString)
  end.

(** [s.substr(1)] *)
Definition substr1 (s : string) : string :=
  match s with
  | EmptyString => EmptyString
  | String _ rest => rest
  end.

(** [a.join(separator)] *)
Fixpoint join (separator : string) (a : list string) : string :=
  match a with
  | [] => EmptyString
  | [x] => x
  | x :: rest => x +:+ separator +:+ join separator rest
  end.

(** [s.split(separator)] for a separator of one code unit. *)
Fixpoint split (separator : ascii) (s : string) : list string :=
  match s with
  | EmptyString => [EmptyString]
  | String c rest =>
      if Ascii.eqb c separator then EmptyString :: split separator rest
      else match split separator rest with
           | line :: lines => String c line :: lines
           | [] => [String c EmptyString]
           end
  end.

(** Lines 25-27.  [undefined.toUpperCase()] throws. *)
Definition toTitleCase (s : string) : option string :=
  match first_unit s with
  | Some c => Some (toUpperCase c +:+ substr1 s)
  | None => None
  end.

(** Line 40; [<] on strings compares code units. *)
Definition compareDomains (a b : Domain) : Z :=
  if String.ltb (toUpperCase (domain a)) (toUpperCase (domain b)) then (-1)%Z else 1%Z.

(** Lines 52-69.  [tags] lists the keys of the object in the order of
    [Object.keys]; a call without [tags] passes [[]]. *)
Definition add_tag (text : option string) (tag : string * Json) : option string :=
  if negb (is_truthy tag.2) then text
  else
    let text := js_to_string (js_of_option text) +:+ String LF "@" +:+ tag.1 in
    match tag.2 with
    | JString value => Some (text +:+ " " +:+ value)
    | _ => Some text
    end.

Definition appendText (text : option string) (tags : list (string * Json))
    (result : list string) : list string :=
  let text := foldl add_tag text tags in
  if negb (truthy text) then result
  else
    result ++ ["/**"]
      ++ map (fun line => " * " +:+ line) (split LF (default EmptyString text))
      ++ [" */"].

(** Lines 71-77: a call of a separator made by [createSeparator]; [first] is
    the variable the closure keeps, [true] when the separator is made. *)
Definition separator (first : bool) (result : list string) : bool * list string :=
  (false, if negb first then result ++ [EmptyString] else result).

(** Lines 79-89.  The result is [undefined] when the last line returns a
    missing [type]. *)
Fixpoint generateType (prop : Property) : option string :=
  if bool_decide (type prop = Some "string") && bool_decide (is_Some (enum prop)) then
    Some (join " | " (map (fun value => "'" +:+ value +:+ "'") (default [] (enum prop))))
  else if truthy (ref prop) then ref prop
  else if bool_decide (type prop = Some "array") then
    let subtype := match items prop with
                   | Some item => generateType item
                   | None => Some "any"
                   end in
    Some (js_to_string (js_of_option subtype) +:+ "[]")
  else if bool_decide (type prop = Some "object") then Some "any"
  else type prop.

(** Line 96. *)
Definition declaration (prop : Property) : string :=
  name prop +:+ (if is_truthy (optional prop) then "?" else "") +:+ ": "
  +:+ js_to_string (js_of_option (generateType prop)) +:+ ";".

(** Lines 91-98; the state of the loop is the separator's variable and the
    array. *)
Definition appendProp (state : bool * list string) (prop : Property) : bool * list string :=
  let (first, result) := separator state.1 state.2 in
  let result := appendText (description prop) [("deprecated", deprecated prop)] result in
  (first, result ++ [declaration prop]).

Definition appendProps (props : list Property) (result : list string) : list string :=
  (foldl appendProp (true, result) props).2.

(** A [for] loop whose body can throw. *)
Fixpoint for_each {A S} (body : S -> A -> option S) (l : list A) (state : S) : option S :=
  match l with
  | [] => Some state
  | x :: rest =>
      match body state x with
      | Some state => for_each body rest state
      | None => None
      end
  end.

(** Lines 109-117, the body of the first loop of [appendDomain]. *)
Definition api_command (name : string) (state : bool * list string) (command : Command)
    : option (bool * list string) :=
  let (first, result) := separator state.1 state.2 in
  let result := appendText (command_description command)
                  [("deprecated", command_deprecated command)] result in
  match toTitleCase (command_name command) with
  | Some title =>
      Some (first,
            result ++ [command_name command +:+ "(params: " +:+ name +:+ "." +:+ title
                       +:+ "Params): Promise<" +:+ name +:+ "." +:+ title
                       +:+ "Result | undefined>;"])
  | None => None
  end.

(** Lines 118-126. *)
Definition api_event (name : string) (state : bool * list string) (event : ProtocolEvent)
    : option (bool * list string) :=
  let (first, result) := separator state.1 state.2 in
  let result := appendText (event_description event)
                  [("deprecated", event_deprecated event)] result in
  match toTitleCase (event_name event) with
  | Some title =>
      Some (first,
            result ++ ["on(event: '" +:+ event_name event +:+ "', listener: (event: "
                       +:+ name +:+ "." +:+ title +:+ "Event) => void): IDisposable;"])
  | None => None
  end.

(** Lines 133-144. *)
Definition types_command (name : string) (state : bool * list string) (command : Command)
    : option (bool * list string) :=
  let (first, result) := separator state.1 state.2 in
  let result := appendText (Some ("Parameters of the '" +:+ name +:+ "." +:+
                                  command_name command +:+ "' method.")) [] result in
  match toTitleCase (command_name command) with
  | Some title =>
      let result := result ++ ["export interface " +:+ title +:+ "Params {"] in
      let result := appendProps (default [] (parameters command)) result in
      let result := result ++ ["}"] in
      let (first, result) := separator first result in
      let result := appendText (Some ("Return value of the '" +:+ name +:+ "." +:+
                                      command_name command +:+ "' method.")) [] result in
      let result := result ++ ["export interface " +:+ title +:+ "Result {"] in
      let result := appendProps (default [] (returns command)) result in
      Some (first, result ++ ["}"])
  | None => None
  end.

(** Lines 145-151. *)
Definition types_event (name : string) (state : bool * list string) (event : ProtocolEvent)
    : option (bool * list string) :=
  let (first, result) := separator state.1 state.2 in
  let result := appendText (Some ("Parameters of the '" +:+ name +:+ "." +:+
                                  event_name event +:+ "' event.")) [] result in
  match toTitleCase (event_name event) with
  | Some title =>
      let result := result ++ ["export interface " +:+ title +:+ "Event {"] in
      let result := appendProps (default [] (event_parameters event)) result in
      Some (first, result ++ ["}"])
  | None => None
  end.

(** Lines 152-163. *)
Definition types_type (state : bool * list string) (type_ : ProtocolType)
    : option (bool * list string) :=
  let (first, result) := separator state.1 state.2 in
  let result := appendText (type_description type_)
                  [("deprecated", type_deprecated type_)] result in
  match toTitleCase (id type_) with
  | Some title =>
      if bool_decide (type (shape type_) = Some "object") then
        let result := result ++ ["export interface " +:+ title +:+ " {"] in
        let result := match properties type_ with
                      | Some props => appendProps props result
                      | None => result ++ ["[key: string]: any;"]
                      end in
        Some (first, result ++ ["}"])
      else
        Some (first,
              result ++ ["export type " +:+ title +:+ " = "
                         +:+ js_to_string (js_of_option (generateType (shape type_)))
                         +:+ ";"])
  | None => None
  end.

(** Lines 100-165.  The state is the variable of [interfaceSeparator], which
    all domains share, and the array. *)
Definition appendDomain (d : Domain) (state : bool * list string)
    : option (bool * list string) :=
  match toTitleCase (domain d) with
  | None => None
  | Some name =>
      let (interfaceFirst, result) := separator state.1 state.2 in
      let result := appendText (Some ("Methods and events of the '" +:+ name +:+ "' domain."))
                      [] result in
      let result := result ++ ["export interface " +:+ name +:+ "Api {"] in
      match for_each (api_command name) (default [] (commands d)) (true, result) with
      | None => None
      | Some api =>
      match for_each (api_event name) (default [] (events d)) api with
      | None => None
      | Some api =>
          let result := api.2 ++ ["}"] in
          let (interfaceFirst, result) := separator interfaceFirst result in
          let result := appendText (Some ("Types of the '" +:+ name +:+ "' domain."))
                          [] result in
          let result := result ++ ["export namespace " +:+ name +:+ " {"] in
          match for_each (types_command name) (default [] (commands d)) (true, result) with
          | None => None
          | Some ns =>
          match for_each (types_event name) (default [] (events d)) ns with
          | None => None
          | Some ns =>
          match for_each types_type (default [] (types d)) ns with
          | None => None
          | Some ns => Some (interfaceFirst, ns.2 ++ ["}"])
          end end end
      end end
  end.

(** Lines 167-176. *)
Definition appendPauseResume (result : list string) : list string :=
  result ++ ["/**"; " * Pauses events being sent through the aPI."; " */"; "pause(): void;";
             "/**"; " * Resumes previously-paused events"; " */"; "resume(): void;"].

(** Lines 42-50 and 178-192 of [generate]: the lines it joins and writes,
    for the array [domains] it has fetched and sorted.  [header] is what
    [autoGeneratedFileHeader] of [generate-lib] returns.  When [appendDomain]
    throws, [generate] rejects before it writes: [None]. *)
Definition generate_lines (header : string) (domains : list Domain) : option (list string) :=
  let result := [header; "import { IDisposable } from '../common/disposable'; "; "";
                 "export namespace Cdp {"; "export type integer = number;"] in
  let (interfaceFirst, result) := separator true result in
  let (interfaceFirst, result) := separator interfaceFirst result in
  let result := appendText (Some "Protocol API.") [] result in
  let result := result ++ ["export interface Api {"] in
  let result := appendPauseResume result in
  let result := foldl (fun result d => result ++ [domain d +:+ ": " +:+ domain d +:+ "Api;"])
                  result domains in
  let result := result ++ ["}"] in
  match for_each (fun state d => appendDomain d state) domains (interfaceFirst, result) with
  | Some state => Some (state.2 ++ ["}"; ""; "export default Cdp;"; ""])
  | None => None
  end.

(** The number of closing lines among [lines]. *)
Definition closes (lines : list string) : nat :=
  length (filter (fun line => line = "}") lines).

End GenerateCdpApi.

(** * Facts *)

(** ** Basic facts *)

(** Reduces the projections of updated worlds, and nothing else. *)
Ltac fields :=
  cbn [this attempts timers listeners wired cancelled attempt_results launch_results
       next_handle log with_this with_attempts with_timers with_listeners with_wired
       with_cancelled with_attempt_results with_launch_results with_next_handle
       with_log emit suspend _attemptTimer _connection _targetManager _disposables
       _lastLaunchParams set_attemptTimer set_connection set_targetManager
       set_disposables set_lastLaunchParams].

Tactic Notation "fields" "in" hyp(H) :=
  cbn [this attempts timers listeners wired cancelled attempt_results launch_results
       next_handle log with_this with_attempts with_timers with_listeners with_wired
       with_cancelled with_attempt_results with_launch_results with_next_handle
       with_log emit suspend _attemptTimer _connection _targetManager _disposables
       _lastLaunchParams set_attemptTimer set_connection set_targetManager
       set_disposables set_lastLaunchParams] in H.

Lemma same_object_refl p : same_object p p = true.
Proof. apply Nat.eqb_refl. Qed.

Lemma world_eq (w1 w2 : World) :
  this w1 = this w2 -> attempts w1 = attempts w2 -> timers w1 = timers w2 ->
  listeners w1 = listeners w2 -> wired w1 = wired w2 -> cancelled w1 = cancelled w2 ->
  attempt_results w1 = attempt_results w2 -> launch_results w1 = launch_results w2 ->
  next_handle w1 = next_handle w2 -> log w1 = log w2 -> w1 = w2.
Proof. destruct w1, w2; simpl; intros; subst; reflexivity. Qed.

Lemma run_nil w : run w [] = w.
Proof. reflexivity. Qed.

Lemma run_cons w ev evs : run w (ev :: evs) = run (step w ev) evs.
Proof. reflexivity. Qed.

Lemma run_app w evs1 evs2 : run w (evs1 ++ evs2) = run (run w evs1) evs2.
Proof. apply foldl_app. Qed.

Lemma waiting_at w t origin params context pc ok :
  waits_at w t origin params context pc -> ok pc = true ->
  waiting w t ok
  = Some {| t_origin := origin; t_params := params; t_context := context; t_pc := pc |}.
Proof. unfold waits_at, waiting. intros -> H. simpl. rewrite H. reflexivity. Qed.

Lemma is_current_set w params :
  is_current (with_this (set_lastLaunchParams (Some params)) w) params = true.
Proof. unfold is_current. simpl. apply same_object_refl. Qed.

Lemma browser_attach_guard params :
  browser_attach params ->
  (bool_decide (type params ≠ Chrome) && bool_decide (type params ≠ Edge))
  || negb (String.eqb (request params) "attach") = false.
Proof.
  intros [Ht Hr]. rewrite Hr. simpl. rewrite orb_false_r.
  destruct Ht as [-> | ->]; reflexivity.
Qed.

Lemma launch_handled w params context :
  browser_attach params ->
  BrowserAttacher.launch params context w =
  suspend (next_handle w)
    {| t_origin := FromLaunch; t_params := params; t_context := context; t_pc := AwaitAttach |}
    AwaitAttach
    (emit (LauncherAttach (next_handle w) (BrowserAttacher.browserURL params)
             (cancellationToken context))
       (with_this (set_lastLaunchParams (Some params)) (with_next_handle S w))).
Proof.
  intros H. unfold BrowserAttacher.launch. rewrite (browser_attach_guard _ H).
  unfold BrowserAttacher._attemptToAttach, BrowserAttacher.acquire_loop.
  simpl next_handle.
  replace (is_current _ params) with true; [reflexivity|].
  symmetry. apply (is_current_set (with_next_handle S w)).
Qed.

Lemma step_resolved w t origin params context c :
  waits_at w t origin params context AwaitAttach ->
  step w (AttachResolved t c) =
  BrowserAttacher.attempt_connected t
    {| t_origin := origin; t_params := params; t_context := context; t_pc := AwaitAttach |} c w.
Proof.
  intros Ht. simpl. rewrite (waiting_at _ _ _ _ _ _ _ Ht eq_refl). reflexivity.
Qed.

Lemma foldl_invariant {A B} (P : A -> Prop) (f : A -> B -> A) (l : list B) : forall a,
  P a -> (forall a b, P a -> P (f a b)) -> P (foldl f a l).
Proof. induction l as [|b l IH]; simpl; intros a Ha Hf; [exact Ha|]. apply IH; auto. Qed.

Lemma waiting_Some w t ok attempt :
  waiting w t ok = Some attempt -> attempts w !! t = Some attempt /\ ok (t_pc attempt) = true.
Proof.
  unfold waiting. destruct (attempts w !! t) as [x|]; [|discriminate].
  destruct (ok (t_pc x)) eqn:E; [|discriminate].
  intros [= <-]. auto.
Qed.

Lemma waiting_lookup w t attempt ok :
  attempts w !! t = Some attempt ->
  waiting w t ok = if ok (t_pc attempt) then Some attempt else None.
Proof. unfold waiting. intros ->. reflexivity. Qed.

Lemma addressee_Some ev t :
  addressee ev = Some t ->
  (exists c, ev = AttachResolved t c) \/ (exists m, ev = AttachRejected t m) \/
  ev = DelayElapsed t \/ (exists tm, ev = ConnectResolved t tm) \/
  ev = MainTargetResolved t \/ ev = TimeoutElapsed t.
Proof.
  destruct ev; simpl; intros [= <-]; eauto 10.
Qed.

Lemma finish_result t attempt error w :
  attempt_results (BrowserAttacher.finish t attempt error w) !! t = Some error /\
  attempts (BrowserAttacher.finish t attempt error w) !! t = None /\
  log (BrowserAttacher.finish t attempt error w) = log w /\
  this (BrowserAttacher.finish t attempt error w) = this w.
Proof.
  unfold BrowserAttacher.finish. destruct (t_origin attempt); fields;
    rewrite lookup_insert_eq, lookup_delete_eq; auto.
Qed.

Lemma finish_launch_result t attempt error w :
  t_origin attempt = FromLaunch ->
  launch_results (BrowserAttacher.finish t attempt error w) !! t
  = Some (BrowserAttacher.launch_return error).
Proof.
  unfold BrowserAttacher.finish. intros ->. fields. apply lookup_insert_eq.
Qed.

Lemma step_addressed w t attempt :
  attempts w !! t = Some attempt ->
  (forall c, step w (AttachResolved t c) =
     if at_attach (t_pc attempt) then BrowserAttacher.attempt_connected t attempt c w else w) /\
  (forall m, step w (AttachRejected t m) =
     if at_attach (t_pc attempt) then
       if isCancellationRequested w (cancellationToken (t_context attempt))
       then BrowserAttacher.finish t attempt
              (Some (BrowserAttacher.cannotConnect (t_params attempt) m)) w
       else suspend t attempt AwaitDelay (emit (Delay t 1000) w)
     else w) /\
  (step w (DelayElapsed t) =
     if at_delay (t_pc attempt) then
       if is_current w (t_params attempt)
       then suspend t attempt AwaitAttach
              (emit (LauncherAttach t (BrowserAttacher.browserURL (t_params attempt))
                       (cancellationToken (t_context attempt))) w)
       else BrowserAttacher.finish t attempt
              (Some (BrowserAttacher.cannotConnect (t_params attempt) "Cancelled")) w
     else w) /\
  (forall tm, step w (ConnectResolved t tm) =
     if at_connect (t_pc attempt) then BrowserAttacher.attempt_managed t attempt tm w else w) /\
  (step w (MainTargetResolved t) =
     if at_race (t_pc attempt) then BrowserAttacher.finish t attempt None w else w) /\
  (step w (TimeoutElapsed t) =
     if at_race (t_pc attempt)
     then BrowserAttacher.finish t attempt
            (Some (BrowserAttacher.noMatchingTarget (t_params attempt))) w
     else w).
Proof.
  intros Ht. repeat split; intros; simpl; rewrite (waiting_lookup _ _ _ _ Ht).
  - destruct (at_attach (t_pc attempt)); reflexivity.
  - destruct (at_attach (t_pc attempt)); [|reflexivity].
    unfold BrowserAttacher.acquire_rejected.
    destruct (isCancellationRequested _ _); reflexivity.
  - destruct (at_delay (t_pc attempt)); [|reflexivity].
    unfold BrowserAttacher.acquire_delayed, BrowserAttacher.acquire_loop.
    destruct (is_current _ _); reflexivity.
  - destruct (at_connect (t_pc attempt)); reflexivity.
  - destruct (at_race (t_pc attempt)); reflexivity.
  - destruct (at_race (t_pc attempt)); reflexivity.
Qed.

Lemma step_unaddressed w t ev :
  attempts w !! t = None -> addressee ev = Some t -> step w ev = w.
Proof.
  intros Ht Hev. apply addressee_Some in Hev
    as [[c ->] | [[m ->] | [-> | [[tm ->] | [-> | ->]]]]];
    simpl; unfold waiting; rewrite Ht; reflexivity.
Qed.

Lemma is_current_this w w' params :
  _lastLaunchParams (this w') = _lastLaunchParams (this w) ->
  is_current w' params = is_current w params.
Proof. unfold is_current. intros ->. reflexivity. Qed.


(** ** The messages *)

Lemma append_nil_r (s : string) : s +:+ "" = s.
Proof.
  induction s as [|c s IH]; [reflexivity|].
  change (String c (s +:+ "") = String c s). f_equal. exact IH.
Qed.

Lemma append_assoc (a b c : string) : (a +:+ b) +:+ c = a +:+ (b +:+ c).
Proof.
  induction a as [|x a IH]; [reflexivity|].
  change (String x ((a +:+ b) +:+ c) = String x (a +:+ (b +:+ c))). f_equal. exact IH.
Qed.

Lemma contains_middle (a s b : string) : contains (a +:+ s +:+ b) s.
Proof. exists a, b. reflexivity. Qed.

Lemma contains_end (a s : string) : contains (a +:+ s) s.
Proof. exists a, "". rewrite append_nil_r. reflexivity. Qed.

Lemma cannotConnect_text params cause :
  BrowserAttacher.cannotConnect params cause =
  "Cannot connect to the target at " +:+ BrowserAttacher.browserURL params +:+ ": " +:+ cause.
Proof.
  unfold BrowserAttacher.cannotConnect, Nls.localize.
  generalize (BrowserAttacher.browserURL params). intros u.
  transitivity ("Cannot connect to the target at " +:+ u +:+ ": " +:+ (cause +:+ ""));
    [reflexivity|].
  rewrite append_nil_r. reflexivity.
Qed.

Lemma noMatchingTarget_text params :
  BrowserAttacher.noMatchingTarget params =
  "Can't find a valid target that matches "
  +:+ js_to_string (js_of_option (js_or (urlFilter params) (url params)))
  +:+ " within " +:+ pretty (timeout params) +:+ "ms".
Proof.
  unfold BrowserAttacher.noMatchingTarget, Nls.localize.
  generalize (js_of_option (js_or (urlFilter params) (url params))). intros f.
  reflexivity.
Qed.

Lemma cannotConnect_nonempty params cause : BrowserAttacher.cannotConnect params cause <> "".
Proof. rewrite cannotConnect_text. discriminate. Qed.

Lemma noMatchingTarget_nonempty params : BrowserAttacher.noMatchingTarget params <> "".
Proof. rewrite noMatchingTarget_text. discriminate. Qed.

Lemma truthy_nonempty (s : string) : s <> "" -> truthy (Some s) = true.
Proof. destruct s; [congruence | reflexivity]. Qed.


(** ** Events leave the attempts they do not resume alone *)

Lemma effects_of_app t l1 l2 : effects_of t (l1 ++ l2) = effects_of t l1 ++ effects_of t l2.
Proof. apply filter_app. Qed.

Lemma effects_of_other t e l :
  effect_owner e <> Some t -> effects_of t (l ++ [e]) = effects_of t l.
Proof.
  intros H. rewrite effects_of_app. unfold effects_of at 2.
  rewrite filter_cons_False by exact H. apply app_nil_r.
Qed.

Lemma effects_of_own t e l :
  effect_owner e = Some t -> effects_of t (l ++ [e]) = effects_of t l ++ [e].
Proof.
  intros H. rewrite effects_of_app. unfold effects_of at 2.
  rewrite filter_cons_True by exact H. reflexivity.
Qed.

(** Closes [effects_of t (log w ++ [e1] ++ ...) = effects_of t (log w)] when
    no [ei] belongs to [t]. *)
Ltac others :=
  fields; rewrite ?effects_of_other by (simpl; congruence); reflexivity.

Section Untouched.

Variable t : nat.

Lemma untouched_refl w : untouched t w w.
Proof. intros H. auto. Qed.

Lemma untouched_trans w1 w2 w3 :
  untouched t w1 w2 -> untouched t w2 w3 -> untouched t w1 w3.
Proof.
  intros H1 H2 Hlt. destruct (H1 Hlt) as (Hlt2 & Ha & Hb & Hc & Hd).
  destruct (H2 Hlt2) as (Hlt3 & Ha' & Hb' & Hc' & Hd').
  repeat split; congruence.
Qed.

Lemma untouched_same w w' :
  next_handle w <= next_handle w' -> attempts w' = attempts w ->
  attempt_results w' = attempt_results w -> launch_results w' = launch_results w ->
  effects_of t (log w') = effects_of t (log w) ->
  untouched t w w'.
Proof.
  intros Hn Ht Ha Hl He Hlt. rewrite Ht, Ha, Hl, He. repeat split. lia.
Qed.

Lemma untouched_foldl {B} (f : World -> B -> World) (l : list B) :
  (forall w b, untouched t w (f w b)) -> forall w, untouched t w (foldl f w l).
Proof.
  intros Hf. induction l as [|b l IH]; intros w; simpl; [apply untouched_refl|].
  eapply untouched_trans; [apply Hf | apply IH].
Qed.

Lemma untouched_suspend t' attempt pc w : t' <> t -> untouched t w (suspend t' attempt pc w).
Proof.
  intros Hne Hlt. fields. rewrite lookup_insert_ne by exact Hne. auto.
Qed.

Lemma untouched_finish t' attempt error w :
  t' <> t -> untouched t w (BrowserAttacher.finish t' attempt error w).
Proof.
  intros Hne Hlt. unfold BrowserAttacher.finish.
  destruct (t_origin attempt); fields.
  all: rewrite lookup_delete_ne by exact Hne.
  all: rewrite ?lookup_insert_ne by exact Hne; auto.
Qed.

Lemma untouched_scheduleAttach params context w :
  untouched t w (BrowserAttacher._scheduleAttach params context w).
Proof.
  unfold BrowserAttacher._scheduleAttach. apply untouched_same; fields; auto. others.
Qed.

Lemma untouched_onDisconnected params context w :
  untouched t w (BrowserAttacher.onDisconnected_listener params context w).
Proof.
  unfold BrowserAttacher.onDisconnected_listener.
  set (w1 := with_this (set_connection None) w).
  set (w2 := match _targetManager (this w1) with Some tm => _ | None => w1 end).
  assert (untouched t w w2) as H2.
  { subst w2. destruct (_targetManager (this w1)); apply untouched_same; fields; auto.
    others. }
  clearbody w2. eapply untouched_trans; [exact H2|].
  destruct (is_current w2 params && restart params).
  - apply untouched_scheduleAttach.
  - apply untouched_same; fields; auto. others.
Qed.

Lemma untouched_attempt_connected t' attempt c w :
  t' <> t -> untouched t w (BrowserAttacher.attempt_connected t' attempt c w).
Proof.
  intros Hne. unfold BrowserAttacher.attempt_connected.
  eapply untouched_trans; [|apply untouched_suspend; exact Hne].
  apply untouched_same; fields; auto. others.
Qed.

Lemma untouched_attempt_acquire t' attempt r w0 w :
  t' <> t -> untouched t w0 w ->
  untouched t w0 (BrowserAttacher.attempt_acquire t' attempt (r, w)).
Proof.
  intros Hne H. eapply untouched_trans; [exact H|].
  destruct r as [pc | [e | c]]; simpl.
  - apply untouched_suspend, Hne.
  - apply untouched_finish, Hne.
  - apply untouched_attempt_connected, Hne.
Qed.

Lemma untouched_acquire_loop t' attempt params token w :
  t' <> t ->
  untouched t w (BrowserAttacher.attempt_acquire t' attempt
                   (BrowserAttacher.acquire_loop t' params token w)).
Proof.
  intros Hne. unfold BrowserAttacher.acquire_loop.
  destruct (is_current w params); apply untouched_attempt_acquire; try exact Hne.
  - apply untouched_same; fields; auto. others.
  - apply untouched_refl.
Qed.

Lemma untouched_acquire_rejected t' attempt params token m w :
  t' <> t ->
  untouched t w (BrowserAttacher.attempt_acquire t' attempt
                   (BrowserAttacher.acquire_rejected t' params token m w)).
Proof.
  intros Hne. unfold BrowserAttacher.acquire_rejected.
  destruct (isCancellationRequested w token); apply untouched_attempt_acquire; try exact Hne.
  - apply untouched_refl.
  - apply untouched_same; fields; auto. others.
Qed.

Lemma untouched_attempt_managed t' attempt tm w :
  t' <> t -> untouched t w (BrowserAttacher.attempt_managed t' attempt tm w).
Proof.
  intros Hne. unfold BrowserAttacher.attempt_managed.
  destruct tm as [tm|].
  - eapply untouched_trans; [|apply untouched_suspend; exact Hne].
    apply untouched_same; fields; auto. others.
  - eapply untouched_trans; [|apply untouched_finish; exact Hne].
    apply untouched_same; fields; auto.
Qed.

Lemma untouched_fresh_attempt origin params context w0 w :
  next_handle w0 <= next_handle w -> attempts w = attempts w0 ->
  attempt_results w = attempt_results w0 -> launch_results w = launch_results w0 ->
  effects_of t (log w) = effects_of t (log w0) ->
  untouched t w0 (BrowserAttacher._attemptToAttach (next_handle w) origin params context
                    (with_next_handle S w)).
Proof.
  intros Hn Ht Ha Hl He Hlt.
  assert (next_handle w <> t) as Hne by lia.
  assert (untouched t w0 (with_next_handle S w)) as H0
    by (apply untouched_same; fields; auto).
  unfold BrowserAttacher._attemptToAttach.
  apply (untouched_trans w0 (with_next_handle S w)); [exact H0 | | exact Hlt].
  apply untouched_acquire_loop, Hne.
Qed.

Lemma untouched_launch params context w :
  untouched t w (BrowserAttacher.launch params context w).
Proof.
  unfold BrowserAttacher.launch. destruct (_ || _).
  - intros Hlt. fields. rewrite lookup_insert_ne by lia. auto.
  - apply (untouched_fresh_attempt FromLaunch params context w
             (with_this (set_lastLaunchParams (Some params)) w)); fields; auto.
Qed.

Lemma untouched_timer_callback params context w0 w :
  next_handle w0 <= next_handle w -> attempts w = attempts w0 ->
  attempt_results w = attempt_results w0 -> launch_results w = launch_results w0 ->
  effects_of t (log w) = effects_of t (log w0) ->
  untouched t w0 (BrowserAttacher.timer_callback params context w).
Proof.
  intros Hn Ht Ha Hl He. unfold BrowserAttacher.timer_callback.
  apply (untouched_fresh_attempt FromTimer params (with_token context NeverCancelled) w0
           (with_this (set_attemptTimer None) w)); fields; auto.
Qed.

Lemma untouched_dispose w : untouched t w (BrowserAttacher.dispose w).
Proof.
  unfold BrowserAttacher.dispose.
  set (w1 := foldl _ w _).
  assert (untouched t w w1) as H1.
  { subst w1. apply untouched_foldl. intros a b.
    unfold BrowserAttacher.dispose_subscription. apply untouched_same; fields; auto.
    others. }
  clearbody w1. eapply untouched_trans; [exact H1|].
  set (w2 := with_this (set_disposables []) w1).
  set (w3 := match _attemptTimer (this w2) with Some timer => _ | None => w2 end).
  assert (untouched t w1 w3) as H3.
  { subst w3. unfold BrowserAttacher.clearTimeout.
    destruct (_attemptTimer (this w2)); apply untouched_same; fields; auto. others. }
  clearbody w3. eapply untouched_trans; [exact H3|].
  destruct (_targetManager (this w3)); apply untouched_same; fields; auto. others.
Qed.

Lemma untouched_terminate w : untouched t w (BrowserAttacher.terminate w).
Proof.
  unfold BrowserAttacher.terminate.
  set (w1 := with_this _ w).
  destruct (_connection (this w1)); apply untouched_same; fields; auto. others.
Qed.

Lemma untouched_notify tm f w :
  (forall w, untouched t w (f w)) -> untouched t w (notify tm f w).
Proof. intros Hf. unfold notify. apply untouched_foldl. intros a _. apply Hf. Qed.

Lemma untouched_fire w : untouched t w (BrowserAttacher.onTargetListChange w).
Proof.
  unfold BrowserAttacher.onTargetListChange. apply untouched_same; fields; auto. others.
Qed.

End Untouched.

Create HintDb untouched.

#[global] Hint Resolve untouched_refl untouched_launch untouched_terminate
  untouched_dispose untouched_fire untouched_onDisconnected : untouched.

Lemma untouched_step t w ev : addressee ev <> Some t -> untouched t w (step w ev).
Proof.
  intros Hev. destruct ev; simpl in *;
    try (unfold BrowserAttacher.disconnect, BrowserAttacher.restart;
         solve [auto with untouched]).
  - apply untouched_same; fields; auto.
  - destruct (waiting w attempt at_attach); [|apply untouched_refl].
    apply untouched_attempt_connected. congruence.
  - destruct (waiting w attempt at_attach); [|apply untouched_refl].
    apply untouched_acquire_rejected. congruence.
  - destruct (waiting w attempt at_delay); [|apply untouched_refl].
    apply untouched_acquire_loop. congruence.
  - destruct (waiting w attempt at_connect); [|apply untouched_refl].
    apply untouched_attempt_managed. congruence.
  - destruct (waiting w attempt at_race); [|apply untouched_refl].
    apply untouched_finish. congruence.
  - destruct (waiting w attempt at_race); [|apply untouched_refl].
    apply untouched_finish. congruence.
  - destruct (timers w !! timer) as [[params context]|]; [|apply untouched_refl].
    apply untouched_timer_callback; fields; auto.
  - apply untouched_foldl. auto with untouched.
  - apply untouched_notify. auto with untouched.
  - apply untouched_notify. auto with untouched.
  - apply untouched_notify. auto with untouched.
  - apply untouched_notify. intros a. unfold BrowserAttacher.onTargetRemoved_listener.
    destruct (_ && _); apply untouched_same; fields; auto; others.
Qed.

Lemma events_of_cons_other t ev evs :
  addressee ev <> Some t -> events_of t (ev :: evs) = events_of t evs.
Proof. intros H. unfold events_of. apply filter_cons_False, H. Qed.

Lemma events_of_cons_own t ev evs :
  addressee ev = Some t -> events_of t (ev :: evs) = ev :: events_of t evs.
Proof. intros H. unfold events_of. apply filter_cons_True, H. Qed.

Lemma untouched_run t evs : forall w, events_of t evs = [] -> untouched t w (run w evs).
Proof.
  induction evs as [|ev evs IH]; intros w H; [apply untouched_refl|].
  destruct (decide (addressee ev = Some t)) as [Hev | Hev].
  - rewrite (events_of_cons_own _ _ _ Hev) in H. discriminate.
  - rewrite (events_of_cons_other _ _ _ Hev) in H. rewrite run_cons.
    eapply untouched_trans; [apply untouched_step, Hev | apply IH, H].
Qed.


(** ** Past the acquire loop *)

Lemma open_attempts_log t w w' :
  effects_of t (log w') = effects_of t (log w) -> open_attempts t w' = open_attempts t w.
Proof. unfold open_attempts. intros ->. reflexivity. Qed.

Lemma past_acquire_step t w ev :
  past_acquire t w ->
  past_acquire t (step w ev) /\ open_attempts t (step w ev) = open_attempts t w.
Proof.
  intros [Hlt Hp].
  destruct (decide (addressee ev = Some t)) as [Hev | Hev].
  - assert ((exists attempt, attempts w !! t = Some attempt) \/ attempts w !! t = None)
      as [[attempt Ht] | Ht]
      by (destruct (attempts w !! t); eauto).
    + destruct (Hp attempt Ht) as [Ha Hd].
      destruct (step_addressed w t attempt Ht) as (E1 & E2 & E3 & E4 & E5 & E6).
      assert (forall error,
                past_acquire t (BrowserAttacher.finish t attempt error w) /\
                open_attempts t (BrowserAttacher.finish t attempt error w) = open_attempts t w)
        as Hfin.
      { intros error. pose proof (finish_result t attempt error w) as (_ & F2 & F3 & _).
        split; [split|].
        - unfold BrowserAttacher.finish. destruct (t_origin attempt); exact Hlt.
        - intros x Hx. congruence.
        - apply open_attempts_log. rewrite F3. reflexivity. }
      apply addressee_Some in Hev
        as [[c ->] | [[m ->] | [-> | [[tm ->] | [-> | ->]]]]].
      * rewrite E1, Ha. split; [split|]; auto.
      * rewrite E2, Ha. split; [split|]; auto.
      * rewrite E3, Hd. split; [split|]; auto.
      * rewrite E4. destruct (at_connect (t_pc attempt)); [|split; [split|]; auto].
        unfold BrowserAttacher.attempt_managed. destruct tm as [tm|].
        -- split; [split|].
           ++ exact Hlt.
           ++ fields. rewrite lookup_insert_eq. intros x [= <-]. auto.
           ++ unfold open_attempts. fields.
              rewrite !effects_of_own by reflexivity.
              rewrite effects_of_other by discriminate.
              rewrite <- app_assoc, filter_app. simpl.
              rewrite app_nil_r. reflexivity.
        -- pose proof (finish_result t attempt None (with_this (set_targetManager None) w))
             as (_ & F2 & F3 & _).
           split; [split|].
           ++ unfold BrowserAttacher.finish. destruct (t_origin attempt); exact Hlt.
           ++ intros x Hx. congruence.
           ++ apply open_attempts_log. rewrite F3. reflexivity.
      * rewrite E5. destruct (at_race (t_pc attempt)); [apply Hfin | split; [split|]; auto].
      * rewrite E6. destruct (at_race (t_pc attempt)); [apply Hfin | split; [split|]; auto].
    + rewrite (step_unaddressed _ _ _ Ht Hev). split; [split|]; auto.
  - destruct (untouched_step t w ev Hev Hlt) as (Hlt' & Ht & _ & _ & He).
    split; [split|].
    + exact Hlt'.
    + rewrite Ht. exact Hp.
    + apply open_attempts_log, He.
Qed.

Lemma past_acquire_run t evs : forall w,
  past_acquire t w -> open_attempts t (run w evs) = open_attempts t w.
Proof.
  induction evs as [|ev evs IH]; intros w H; [reflexivity|].
  rewrite run_cons. destruct (past_acquire_step t w ev H) as [H' E].
  rewrite (IH _ H'). exact E.
Qed.

(** ** Through the acquire loop *)

Lemma rounds_shift {A} (a b : A) (l : list string) (rest : list A) :
  [a] ++ flat_map (fun _ => [b; a]) l ++ rest = flat_map (fun _ => [a; b]) l ++ [a] ++ rest.
Proof.
  induction l as [|x l IH]; [reflexivity|].
  simpl. simpl in IH. rewrite IH. reflexivity.
Qed.

Lemma rounds_not_nil t (causes : list string) c :
  flat_map (fun m => [AttachRejected t m; DelayElapsed t]) causes ++ [AttachResolved t c] <> [].
Proof. destruct causes; discriminate. Qed.

Lemma acquire_rounds t origin params context c : forall evs w causes,
  t < next_handle w ->
  always (fun v => is_current v params = true /\
                   isCancellationRequested v (cancellationToken context) = false) w evs ->
  let url := BrowserAttacher.browserURL params in
  let token := cancellationToken context in
  let rounds := flat_map (fun m => [AttachRejected t m; DelayElapsed t]) causes
                ++ [AttachResolved t c] in
  let calls := flat_map (fun _ : string => [Delay t 1000; LauncherAttach t url token]) causes
               ++ [TargetManagerConnect t c] in
  (waits_at w t origin params context AwaitAttach ->
   events_of t evs = rounds ->
   waits_at (run w evs) t origin params context (AwaitConnect c) /\
   t < next_handle (run w evs) /\
   effects_of t (log (run w evs)) = effects_of t (log w) ++ calls) /\
  (waits_at w t origin params context AwaitDelay ->
   events_of t evs = DelayElapsed t :: rounds ->
   waits_at (run w evs) t origin params context (AwaitConnect c) /\
   t < next_handle (run w evs) /\
   effects_of t (log (run w evs))
   = effects_of t (log w) ++ [LauncherAttach t url token] ++ calls).
Proof.
  induction evs as [|ev evs IH]; intros w causes Hlt Halways url token rounds calls.
  { split; intros _ H; [|discriminate].
    symmetry in H. apply rounds_not_nil in H. contradiction. }
  destruct Halways as [[Hcur Hnc] Halways].
  destruct (decide (addressee ev = Some t)) as [Hev | Hev].
  - rewrite (events_of_cons_own _ _ _ Hev). split.
    + intros Hw Hevs. destruct (step_addressed w t _ Hw) as (E1 & E2 & _).
      destruct causes as [|m causes].
      * injection Hevs as -> Hrest. rewrite run_cons, E1.
        cbn [t_pc t_params t_context t_origin at_attach at_delay].
        set (w1 := BrowserAttacher.attempt_connected t _ c w).
        assert (t < next_handle w1) as Hlt1 by (subst w1; simpl; lia).
        destruct (untouched_run t evs w1 Hrest Hlt1) as (Hlt' & Ht & _ & _ & He).
        split; [|split].
        -- unfold waits_at. rewrite Ht. subst w1.
           unfold BrowserAttacher.attempt_connected. fields. apply lookup_insert_eq.
        -- exact Hlt'.
        -- rewrite He. subst w1 calls. unfold BrowserAttacher.attempt_connected. fields.
           rewrite effects_of_own by reflexivity.
           rewrite effects_of_other by discriminate. reflexivity.
      * injection Hevs as -> Hrest. rewrite run_cons, E2.
        cbn [t_pc t_params t_context t_origin at_attach at_delay].
        rewrite Hnc.
        set (w1 := suspend t _ AwaitDelay _).
        assert (t < next_handle w1) as Hlt1 by exact Hlt.
        assert (waits_at w1 t origin params context AwaitDelay) as Hw1
          by (subst w1; unfold waits_at; fields; apply lookup_insert_eq).
        replace (step w (AttachRejected t m)) with w1 in Halways
          by (rewrite E2; cbn [t_pc t_params t_context t_origin at_attach at_delay];
              rewrite Hnc; reflexivity).
        destruct (IH w1 causes Hlt1 Halways) as [_ IHd].
        destruct (IHd Hw1 Hrest) as (Hr1 & Hr2 & Hr3).
        split; [exact Hr1|]. split; [exact Hr2|].
        rewrite Hr3. subst w1 calls. fields.
        rewrite effects_of_own by reflexivity.
        simpl. rewrite <- !app_assoc. reflexivity.
    + intros Hw Hevs. destruct (step_addressed w t _ Hw) as (_ & _ & E3 & _).
      injection Hevs as -> Hrest. rewrite run_cons, E3.
      cbn [t_pc t_params t_context t_origin at_attach at_delay].
      rewrite Hcur.
      set (w1 := suspend t _ AwaitAttach _).
      assert (t < next_handle w1) as Hlt1 by exact Hlt.
      assert (waits_at w1 t origin params context AwaitAttach) as Hw1
        by (subst w1; unfold waits_at; fields; apply lookup_insert_eq).
      replace (step w (DelayElapsed t)) with w1 in Halways
        by (rewrite E3; cbn [t_pc t_params t_context t_origin at_attach at_delay];
            rewrite Hcur; reflexivity).
      destruct (IH w1 causes Hlt1 Halways) as [IHa _].
      destruct (IHa Hw1 Hrest) as (Hr1 & Hr2 & Hr3).
      split; [exact Hr1|]. split; [exact Hr2|].
      rewrite Hr3. subst w1 calls. fields.
      rewrite effects_of_own by reflexivity.
      rewrite <- !app_assoc. reflexivity.
  - rewrite (events_of_cons_other _ _ _ Hev). rewrite run_cons.
    destruct (untouched_step t w ev Hev Hlt) as (Hlt' & Ht & _ & _ & He).
    destruct (IH (step w ev) causes Hlt' Halways) as [IHa IHd].
    unfold waits_at in *. rewrite Ht in IHa, IHd. rewrite He in IHa, IHd.
    split; assumption.
Qed.


(** ** Well-formed worlds *)

Lemma wf_initial : wf initial.
Proof.
  split; simpl; intros *; try rewrite lookup_empty; try discriminate.
  intros H. apply elem_of_nil in H. contradiction.
Qed.

Lemma wf_same w w' :
  next_handle w <= next_handle w' -> attempts w' = attempts w ->
  attempt_results w' = attempt_results w -> launch_results w' = launch_results w ->
  listeners w' = listeners w -> _disposables (this w') = _disposables (this w) ->
  wf w -> wf w'.
Proof.
  intros Hn Ht Ha Hl Hs Hd [H1 H2 H3 H4]. unfold slot_free in *.
  split; unfold slot_free; rewrite ?Ht, ?Ha, ?Hl, ?Hs, ?Hd.
  - intros t attempt H. destruct (H1 _ _ H) as (? & ? & ?). repeat split; auto. lia.
  - intros t r H. destruct (H2 _ _ H) as (? & ? & ?). repeat split; auto. lia.
  - intros t r H. destruct (H3 _ _ H) as (? & ?). split; auto. lia.
  - exact H4.
Qed.

Lemma slot_free_same w w' t :
  next_handle w <= next_handle w' ->
  attempt_results w' = attempt_results w -> launch_results w' = launch_results w ->
  slot_free w t -> slot_free w' t.
Proof. unfold slot_free. intros Hn -> -> (? & ? & ?). repeat split; auto. lia. Qed.

Lemma wf_fresh w : wf w -> slot_free (with_next_handle S w) (next_handle w).
Proof.
  intros [H1 H2 H3 H4]. unfold slot_free. fields. split; [lia|]. split.
  - destruct (attempt_results w !! next_handle w) eqn:E; [|reflexivity].
    destruct (H2 _ _ E). lia.
  - destruct (launch_results w !! next_handle w) eqn:E; [|reflexivity].
    destruct (H3 _ _ E). lia.
Qed.

Lemma wf_suspend t attempt pc w : wf w -> slot_free w t -> wf (suspend t attempt pc w).
Proof.
  intros [H1 H2 H3 H4] (Hlt & Ha & Hl). split; unfold slot_free; fields.
  - intros t' attempt' H. destruct (decide (t = t')) as [<-|Hne]; [auto|].
    rewrite lookup_insert_ne in H by exact Hne. apply (H1 _ _ H).
  - intros t' r H. destruct (H2 _ _ H) as (? & ? & ?). repeat split; auto.
    rewrite lookup_insert_ne; [assumption | congruence].
  - exact H3.
  - exact H4.
Qed.

Lemma wf_finish t attempt error w :
  wf w -> slot_free w t -> (forall e, error = Some e -> e <> "") ->
  wf (BrowserAttacher.finish t attempt error w).
Proof.
  intros [H1 H2 H3 H4] (Hlt & Ha & Hl) He.
  assert (forall t' attempt', delete t (attempts w) !! t' = Some attempt' -> t <> t' /\
            attempts w !! t' = Some attempt') as Hdel.
  { intros t' attempt' H. destruct (decide (t = t')) as [<-|Hne].
    - rewrite lookup_delete_eq in H. discriminate.
    - rewrite lookup_delete_ne in H by exact Hne. auto. }
  assert (forall t', attempts w !! t' = None -> delete t (attempts w) !! t' = None) as Hdel'.
  { intros t' H. destruct (decide (t = t')) as [<-|Hne].
    - apply lookup_delete_eq.
    - rewrite lookup_delete_ne by exact Hne. exact H. }
  unfold BrowserAttacher.finish. destruct (t_origin attempt); split; unfold slot_free; fields.
  - intros t' attempt' H. apply Hdel in H as [Hne H].
    rewrite !lookup_insert_ne by exact Hne. apply (H1 _ _ H).
  - intros t' r H. destruct (decide (t = t')) as [<-|Hne].
    + rewrite lookup_insert_eq in H. injection H as <-.
      repeat split; auto. apply lookup_delete_eq.
    + rewrite lookup_insert_ne in H by exact Hne.
      destruct (H2 _ _ H) as (? & ? & ?). auto.
  - intros t' r H. destruct (decide (t = t')) as [<-|Hne].
    + rewrite lookup_insert_eq in H. injection H as <-. split; [exact Hlt|].
      rewrite lookup_insert_eq. unfold BrowserAttacher.launch_return, launched.
      destruct error as [e|].
      * rewrite (truthy_nonempty e (He e eq_refl)). right. left. eauto.
      * simpl. right. right. auto.
    + rewrite lookup_insert_ne in H by exact Hne.
      rewrite lookup_insert_ne by exact Hne. apply (H3 _ _ H).
  - exact H4.
  - intros t' attempt' H. apply Hdel in H as [Hne H].
    rewrite !lookup_insert_ne by exact Hne. apply (H1 _ _ H).
  - intros t' r H. destruct (decide (t = t')) as [<-|Hne].
    + rewrite lookup_insert_eq in H. injection H as <-.
      repeat split; auto. apply lookup_delete_eq.
    + rewrite lookup_insert_ne in H by exact Hne.
      destruct (H2 _ _ H) as (? & ? & ?). auto.
  - intros t' r H. destruct (decide (t = t')) as [<-|Hne]; [congruence|].
    rewrite lookup_insert_ne by exact Hne. apply (H3 _ _ H).
  - exact H4.
Qed.

Lemma wf_emit e w : wf w -> wf (emit e w).
Proof. apply wf_same; reflexivity. Qed.

Lemma wf_scheduleAttach params context w :
  wf w -> wf (BrowserAttacher._scheduleAttach params context w).
Proof. unfold BrowserAttacher._scheduleAttach. apply wf_same; fields; auto. Qed.

Lemma wf_onDisconnected params context w :
  wf w -> wf (BrowserAttacher.onDisconnected_listener params context w).
Proof.
  intros H. unfold BrowserAttacher.onDisconnected_listener.
  set (w1 := with_this (set_connection None) w).
  set (w2 := match _targetManager (this w1) with Some tm => _ | None => w1 end).
  assert (wf w2) as H2.
  { subst w2. destruct (_targetManager (this w1)); (eapply wf_same; [..|exact H]);
      fields; auto. }
  clearbody w2.
  destruct (is_current w2 params && restart params).
  - apply wf_scheduleAttach, H2.
  - apply wf_emit, H2.
Qed.

Lemma wf_attempt_connected t attempt c w :
  wf w -> slot_free w t -> wf (BrowserAttacher.attempt_connected t attempt c w).
Proof.
  intros H Hs. unfold BrowserAttacher.attempt_connected.
  apply wf_suspend.
  - destruct H as [H1 H2 H3 H4]. split; unfold slot_free; fields.
    + intros t' attempt' Ht. destruct (H1 _ _ Ht) as (? & ? & ?). repeat split; auto.
    + intros t' r Ht. destruct (H2 _ _ Ht) as (? & ? & ?). repeat split; auto.
    + intros t' r Ht. destruct (H3 _ _ Ht) as (? & ?). split; auto.
    + intros s. rewrite fmap_app, !elem_of_app. intros [Hin | Hin]; auto.
  - eapply slot_free_same; [..|exact Hs]; fields; auto.
Qed.

Lemma wf_attempt_acquire t attempt r w :
  wf w -> slot_free w t ->
  (forall e, r = BrowserAttacher.Returned (inl e) -> e <> "") ->
  wf (BrowserAttacher.attempt_acquire t attempt (r, w)).
Proof.
  intros H Hs He. destruct r as [pc | [e | c]]; simpl.
  - apply wf_suspend; assumption.
  - apply wf_finish; try assumption. intros e' [= <-]. apply He. reflexivity.
  - apply wf_attempt_connected; assumption.
Qed.

Lemma wf_acquire_loop t attempt params token w :
  wf w -> slot_free w t ->
  wf (BrowserAttacher.attempt_acquire t attempt (BrowserAttacher.acquire_loop t params token w)).
Proof.
  intros H Hs. unfold BrowserAttacher.acquire_loop.
  destruct (is_current w params); apply wf_attempt_acquire; try discriminate.
  - apply wf_emit, H.
  - eapply slot_free_same; [..|exact Hs]; fields; auto.
  - exact H.
  - exact Hs.
  - intros e [= <-]. apply cannotConnect_nonempty.
Qed.

Lemma wf_acquire_rejected t attempt params token m w :
  wf w -> slot_free w t ->
  wf (BrowserAttacher.attempt_acquire t attempt
        (BrowserAttacher.acquire_rejected t params token m w)).
Proof.
  intros H Hs. unfold BrowserAttacher.acquire_rejected.
  destruct (isCancellationRequested w token); apply wf_attempt_acquire; try discriminate.
  - exact H.
  - exact Hs.
  - intros e [= <-]. apply cannotConnect_nonempty.
  - apply wf_emit, H.
  - eapply slot_free_same; [..|exact Hs]; fields; auto.
Qed.

Lemma wf_attempt_managed t attempt tm w :
  wf w -> slot_free w t -> wf (BrowserAttacher.attempt_managed t attempt tm w).
Proof.
  intros H Hs. unfold BrowserAttacher.attempt_managed.
  destruct tm as [tm|].
  - apply wf_suspend.
    + eapply wf_same; [..|exact H]; fields; auto.
    + eapply slot_free_same; [..|exact Hs]; fields; auto.
  - apply wf_finish; [| |discriminate].
    + eapply wf_same; [..|exact H]; fields; auto.
    + eapply slot_free_same; [..|exact Hs]; fields; auto.
Qed.

Lemma wf_fresh_attempt origin params context w :
  wf w ->
  wf (BrowserAttacher._attemptToAttach (next_handle w) origin params context
        (with_next_handle S w)).
Proof.
  intros H. unfold BrowserAttacher._attemptToAttach. apply wf_acquire_loop.
  - eapply wf_same; [..|exact H]; fields; auto.
  - apply wf_fresh, H.
Qed.

Lemma wf_launch params context w : wf w -> wf (BrowserAttacher.launch params context w).
Proof.
  intros H. unfold BrowserAttacher.launch. destruct (_ || _).
  - pose proof (wf_fresh w H) as (Hlt & Ha & Hl). fields in Hlt. fields in Ha. fields in Hl.
    destruct H as [H1 H2 H3 H4]. split; unfold slot_free; fields.
    + intros t attempt Ht. destruct (H1 _ _ Ht) as (? & ? & ?).
      rewrite lookup_insert_ne by lia. repeat split; auto.
    + intros t r Ht. destruct (H2 _ _ Ht) as (? & ? & ?). repeat split; auto.
    + intros t r Ht. destruct (decide (next_handle w = t)) as [<-|Hne].
      * rewrite lookup_insert_eq in Ht. injection Ht as <-. split; [lia|].
        left. auto.
      * rewrite lookup_insert_ne in Ht by exact Hne.
        destruct (H3 _ _ Ht) as (? & ?). split; auto.
    + exact H4.
  - apply (wf_fresh_attempt FromLaunch params context
             (with_this (set_lastLaunchParams (Some params)) w)).
    eapply wf_same; [..|exact H]; fields; auto.
Qed.

Lemma wf_timer_callback params context w :
  wf w -> wf (BrowserAttacher.timer_callback params context w).
Proof.
  intros H. unfold BrowserAttacher.timer_callback.
  apply (wf_fresh_attempt FromTimer params (with_token context NeverCancelled)
           (with_this (set_attemptTimer None) w)).
  eapply wf_same; [..|exact H]; fields; auto.
Qed.

Lemma dispose_subscriptions ds : forall w,
  foldl BrowserAttacher.dispose_subscription w ds =
  with_log (fun l => l ++ map DisposeSubscription ds)
    (with_listeners (filter (fun l => l.1 ∉ ds)) w).
Proof.
  induction ds as [|d ds IH]; intros w.
  - simpl. apply world_eq; fields; try reflexivity.
    + symmetry. induction (listeners w) as [|x l IHl]; [reflexivity|].
      rewrite filter_cons_True; [f_equal; exact IHl|]. apply not_elem_of_nil.
    + symmetry. apply app_nil_r.
  - simpl foldl. rewrite IH. unfold BrowserAttacher.dispose_subscription.
    apply world_eq; fields; try reflexivity.
    + rewrite list_filter_filter. apply list_filter_iff.
      intros x. rewrite not_elem_of_cons. tauto.
    + rewrite <- app_assoc. reflexivity.
Qed.

Lemma dispose_equation w :
  BrowserAttacher.dispose w =
  let w1 := with_this (set_disposables [])
              (with_log (fun l => l ++ map DisposeSubscription (_disposables (this w)))
                 (with_listeners (filter (fun l => l.1 ∉ _disposables (this w))) w)) in
  let w2 := match _attemptTimer (this w) with
            | Some timer => BrowserAttacher.clearTimeout timer w1
            | None => w1
            end in
  match _targetManager (this w) with
  | Some tm => emit (TargetManagerDispose tm) w2
  | None => w2
  end.
Proof.
  unfold BrowserAttacher.dispose. rewrite dispose_subscriptions. fields.
  destruct (_attemptTimer (this w)); reflexivity.
Qed.

Lemma wf_dispose_listeners w :
  wf w -> filter (fun l : nat * Listener => l.1 ∉ _disposables (this w)) (listeners w) = [].
Proof.
  intros H. apply elem_of_nil_inv. intros x Hx.
  apply list_elem_of_filter in Hx as [Hx Hin]. apply Hx.
  apply (wf_listeners _ H). apply list_elem_of_fmap. exists x. auto.
Qed.

Lemma wf_dispose w : wf w -> wf (BrowserAttacher.dispose w).
Proof.
  intros H. rewrite dispose_equation. cbv zeta.
  set (w1 := with_this _ _).
  assert (wf w1) as H1.
  { pose proof (wf_dispose_listeners w H) as Hnil.
    destruct H as [H1 H2 H3 H4]. subst w1. split; unfold slot_free; fields.
    - exact H1.
    - exact H2.
    - exact H3.
    - rewrite Hnil. intros s Hs. apply elem_of_nil in Hs. contradiction. }
  clearbody w1.
  set (w2 := match _attemptTimer (this w) with Some timer => _ | None => w1 end).
  assert (wf w2) as H2.
  { subst w2. destruct (_attemptTimer (this w)); [|exact H1].
    unfold BrowserAttacher.clearTimeout. eapply wf_same; [..|exact H1]; fields; auto. }
  clearbody w2.
  destruct (_targetManager (this w)); [apply wf_emit|]; exact H2.
Qed.

Lemma wf_terminate w : wf w -> wf (BrowserAttacher.terminate w).
Proof.
  intros H. unfold BrowserAttacher.terminate.
  set (w1 := with_this _ w).
  destruct (_connection (this w1)); (eapply wf_same; [..|exact H]); fields; auto.
Qed.

Lemma wf_notify tm f w : (forall w, wf w -> wf (f w)) -> wf w -> wf (notify tm f w).
Proof.
  intros Hf H. unfold notify. apply foldl_invariant; [exact H|].
  intros a _ Ha. apply Hf, Ha.
Qed.

Lemma wf_waiting w t ok attempt : wf w -> waiting w t ok = Some attempt -> slot_free w t.
Proof. intros H Hw. apply waiting_Some in Hw as [Ht _]. apply (wf_attempts _ H _ _ Ht). Qed.

Lemma wf_step w ev : wf w -> wf (step w ev).
Proof.
  intros H. destruct ev; simpl.
  - apply wf_launch, H.
  - apply wf_terminate, H.
  - apply wf_terminate, H.
  - exact H.
  - apply wf_dispose, H.
  - eapply wf_same; [..|exact H]; fields; auto.
  - destruct (waiting w attempt at_attach) as [x|] eqn:E; [|exact H].
    apply wf_attempt_connected; [exact H|]. eapply wf_waiting; eauto.
  - destruct (waiting w attempt at_attach) as [x|] eqn:E; [|exact H].
    apply wf_acquire_rejected; [exact H|]. eapply wf_waiting; eauto.
  - destruct (waiting w attempt at_delay) as [x|] eqn:E; [|exact H].
    apply wf_acquire_loop; [exact H|]. eapply wf_waiting; eauto.
  - destruct (waiting w attempt at_connect) as [x|] eqn:E; [|exact H].
    apply wf_attempt_managed; [exact H|]. eapply wf_waiting; eauto.
  - destruct (waiting w attempt at_race) as [x|] eqn:E; [|exact H].
    apply wf_finish; [exact H | eapply wf_waiting; eauto | discriminate].
  - destruct (waiting w attempt at_race) as [x|] eqn:E; [|exact H].
    apply wf_finish; [exact H | eapply wf_waiting; eauto |].
    intros e [= <-]. apply noMatchingTarget_nonempty.
  - destruct (timers w !! timer) as [[params context]|]; [|exact H].
    apply wf_timer_callback. eapply wf_same; [..|exact H]; fields; auto.
  - apply foldl_invariant; [exact H|]. intros a b Ha. apply wf_onDisconnected, Ha.
  - apply wf_notify; [|exact H]. intros a Ha. apply wf_emit, Ha.
  - apply wf_notify; [|exact H]. intros a Ha. apply wf_emit, Ha.
  - apply wf_notify; [|exact H]. intros a Ha. apply wf_emit, Ha.
  - apply wf_notify; [|exact H]. intros a Ha.
    unfold BrowserAttacher.onTargetRemoved_listener.
    destruct (_ && _); [apply wf_emit|]; apply wf_emit, Ha.
Qed.

Lemma wf_run evs : forall w, wf w -> wf (run w evs).
Proof.
  induction evs as [|ev evs IH]; intros w H; [exact H|].
  rewrite run_cons. apply IH, wf_step, H.
Qed.

Lemma wf_reachable evs : wf (run initial evs).
Proof. apply wf_run, wf_initial. Qed.


(** ** A call of [launch] and its attempt *)

Lemma returned_finish t attempt error w :
  t_origin attempt = FromLaunch ->
  launch_pending_or_returned t (BrowserAttacher.finish t attempt error w).
Proof.
  intros Ho. right. split; [apply finish_result|].
  exists error. split; [apply finish_result | apply finish_launch_result, Ho].
Qed.

Lemma pending_suspend t attempt pc w :
  t_origin attempt = FromLaunch -> launch_pending_or_returned t (suspend t attempt pc w).
Proof.
  intros Ho. left. eexists. split; [fields; apply lookup_insert_eq | exact Ho].
Qed.

Lemma launch_pending_or_returned_step call w ev :
  wf w -> launch_pending_or_returned call w -> launch_pending_or_returned call (step w ev).
Proof.
  intros Hwf HK.
  assert (call < next_handle w) as Hlt.
  { destruct HK as [(attempt & Ht & _) | (_ & a & Ha & _)].
    - apply (wf_attempts _ Hwf _ _ Ht).
    - apply (wf_results _ Hwf _ _ Ha). }
  destruct (decide (addressee ev = Some call)) as [Hev | Hev].
  - destruct HK as [(attempt & Ht & Ho) | (Ht & HK)].
    + destruct (step_addressed w call attempt Ht) as (E1 & E2 & E3 & E4 & E5 & E6).
      apply addressee_Some in Hev
        as [[c ->] | [[m ->] | [-> | [[tm ->] | [-> | ->]]]]].
      * rewrite E1. destruct (at_attach (t_pc attempt)); [|left; eauto].
        unfold BrowserAttacher.attempt_connected. apply pending_suspend, Ho.
      * rewrite E2. destruct (at_attach (t_pc attempt)); [|left; eauto].
        destruct (isCancellationRequested _ _);
          [apply returned_finish | apply pending_suspend]; exact Ho.
      * rewrite E3. destruct (at_delay (t_pc attempt)); [|left; eauto].
        destruct (is_current _ _);
          [apply pending_suspend | apply returned_finish]; exact Ho.
      * rewrite E4. destruct (at_connect (t_pc attempt)); [|left; eauto].
        unfold BrowserAttacher.attempt_managed. destruct tm;
          [apply pending_suspend | apply returned_finish]; exact Ho.
      * rewrite E5. destruct (at_race (t_pc attempt)); [|left; eauto].
        apply returned_finish, Ho.
      * rewrite E6. destruct (at_race (t_pc attempt)); [|left; eauto].
        apply returned_finish, Ho.
    + rewrite (step_unaddressed _ _ _ Ht Hev). right. auto.
  - destruct (untouched_step call w ev Hev Hlt) as (_ & Ht & Ha & Hl & _).
    unfold launch_pending_or_returned. rewrite Ht, Ha, Hl. exact HK.
Qed.

Lemma launch_pending_or_returned_run call evs : forall w,
  wf w -> launch_pending_or_returned call w -> launch_pending_or_returned call (run w evs).
Proof.
  induction evs as [|ev evs IH]; intros w Hwf HK; [exact HK|].
  rewrite run_cons. apply IH; [apply wf_step, Hwf|].
  apply launch_pending_or_returned_step; assumption.
Qed.

Lemma browser_attach_dec params :
  (bool_decide (type params ≠ Chrome) && bool_decide (type params ≠ Edge))
  || negb (String.eqb (request params) "attach") = false <-> browser_attach params.
Proof.
  split; [|apply browser_attach_guard].
  intros H. apply orb_false_elim in H as [Ht Hr].
  split.
  - destruct (type params); auto. simpl in Ht. discriminate.
  - apply negb_false_iff in Hr. apply String.eqb_eq in Hr. exact Hr.
Qed.


(** * Properties *)


(** ** Supersession *)

(** C1 (what the code does): [launch(B)] replaces [A] while the transport of
    [A]'s attempt is being opened; when that open attempt succeeds, the
    connection it yields is installed as the attacher's connection, with a
    disconnect listener for [A], although [A] is no longer current.  The
    [while] condition is checked before an open attempt only, not after it.
    When the open attempt of [B] succeeds in turn, its connection replaces the
    first in the field; the first is not closed and keeps its listener. *)
Theorem stale_connection_installed (w : World) (A B : AttachParams)
    (contextA contextB : ILaunchContext) (c c' : nat) :
  browser_attach A -> browser_attach B -> ref A <> ref B ->
  let t := next_handle w in
  let w' := run w [Launch A contextA; Launch B contextB; AttachResolved t c] in
  let w'' := step w' (AttachResolved (S t) c') in
  let listenerA := {| l_connection := c; l_params := A; l_context := contextA |} in
  let listenerB := {| l_connection := c'; l_params := B; l_context := contextB |} in
  is_current w' A = false /\
  _lastLaunchParams (this w') = Some B /\
  _connection (this w') = Some c /\
  waits_at w' t FromLaunch A contextA (AwaitConnect c) /\
  listeners w' = listeners w ++ [(S (S t), listenerA)] /\
  _connection (this w'') = Some c' /\
  listeners w'' = listeners w ++ [(S (S t), listenerA); (S (S (S t)), listenerB)] /\
  log w'' = log w ++ [LauncherAttach t (BrowserAttacher.browserURL A) (cancellationToken contextA);
                      LauncherAttach (S t) (BrowserAttacher.browserURL B)
                        (cancellationToken contextB);
                      OnDisconnected (S (S t)) c; TargetManagerConnect t c;
                      OnDisconnected (S (S (S t))) c'; TargetManagerConnect (S t) c'].
Proof.
  intros HA HB Hne t w' w'' listenerA listenerB. subst w'' w'.
  rewrite !run_cons, run_nil.
  change (step w (Launch A contextA)) with (BrowserAttacher.launch A contextA w).
  rewrite (launch_handled _ _ _ HA).
  set (w1 := suspend _ _ _ _).
  change (step w1 (Launch B contextB)) with (BrowserAttacher.launch B contextB w1).
  rewrite (launch_handled _ _ _ HB).
  set (w2 := suspend _ _ _ _).
  assert (waits_at w2 t FromLaunch A contextA AwaitAttach) as Hw.
  { unfold waits_at. subst w2 w1. fields. rewrite lookup_insert_ne by (subst t; lia).
    apply lookup_insert_eq. }
  rewrite (step_resolved _ _ _ _ _ _ Hw).
  set (w3 := BrowserAttacher.attempt_connected _ _ _ _).
  assert (waits_at w3 (S t) FromLaunch B contextB AwaitAttach) as Hw3.
  { unfold waits_at. subst w3 w2 w1. unfold BrowserAttacher.attempt_connected. fields.
    rewrite lookup_insert_ne by lia. apply lookup_insert_eq. }
  rewrite (step_resolved _ _ _ _ _ _ Hw3).
  subst w3 w2 w1. unfold BrowserAttacher.attempt_connected, waits_at. fields.
  split; [unfold is_current, same_object; fields; apply Nat.eqb_neq; congruence|].
  split; [reflexivity|]. split; [reflexivity|].
  split; [apply lookup_insert_eq|]. split; [reflexivity|]. split; [reflexivity|].
  split; rewrite <- !app_assoc; reflexivity.
Qed.

Lemma stale_connection_installed_witness :
  browser_attach example_params /\ browser_attach other_params /\
  ref example_params <> ref other_params /\
  _connection (this (run initial
     [Launch example_params example_context; Launch other_params example_context;
      AttachResolved 0 7])) = Some 7.
Proof.
  assert (browser_attach example_params) as HA by (split; [left|]; reflexivity).
  assert (browser_attach other_params) as HB by (split; [right|]; reflexivity).
  assert (ref example_params <> ref other_params) as Hne by (simpl; lia).
  repeat (split; [assumption|]).
  exact (proj1 (proj2 (proj2 (stale_connection_installed initial example_params other_params
                                example_context example_context 7 8 HA HB Hne)))).
Defined.


(** ** Acquiring a connection *)

(** C2: [launch] starts an attempt; among the events that follow, those that
    resume this attempt are [length causes] rejections of [launcher.attach],
    each followed by the end of its delay, and then a fulfilment with [c];
    before each event the parameters are still the current ones and the
    caller's token is not signalled.  Then the attempt holds [c] and waits for
    the target manager, and on its behalf the attacher has made exactly:
    one open attempt and one delay of 1000 ms per rejection, then the
    successful open attempt, then the connect call.  Whatever happens later,
    the attempt opens no transport again. *)
Theorem acquire_retries_until_success (w : World) (params : AttachParams)
    (context : ILaunchContext) (causes : list string) (c : nat) (evs : list Event) :
  browser_attach params ->
  let t := next_handle w in
  let url := BrowserAttacher.browserURL params in
  let token := cancellationToken context in
  let w1 := step w (Launch params context) in
  events_of t evs
  = flat_map (fun m => [AttachRejected t m; DelayElapsed t]) causes ++ [AttachResolved t c] ->
  always (fun v => is_current v params = true /\
                   isCancellationRequested v token = false) w1 evs ->
  let w' := run w1 evs in
  waits_at w' t FromLaunch params context (AwaitConnect c) /\
  effects_of t (log w')
  = effects_of t (log w)
    ++ flat_map (fun _ => [LauncherAttach t url token; Delay t 1000]) causes
    ++ [LauncherAttach t url token; TargetManagerConnect t c] /\
  open_attempts t w' = open_attempts t w + length causes + 1 /\
  forall later, open_attempts t (run w' later) = open_attempts t w'.
Proof.
  intros Hp t url token w1 Hevs Halways w'.
  assert (w1 = suspend t
                 {| t_origin := FromLaunch; t_params := params; t_context := context;
                    t_pc := AwaitAttach |} AwaitAttach
                 (emit (LauncherAttach t url token)
                    (with_this (set_lastLaunchParams (Some params))
                       (with_next_handle S w)))) as Hw1
    by (subst w1; simpl; apply launch_handled, Hp).
  assert (waits_at w1 t FromLaunch params context AwaitAttach) as Hwait
    by (rewrite Hw1; unfold waits_at; fields; apply lookup_insert_eq).
  assert (t < next_handle w1) as Hlt by (rewrite Hw1; fields; lia).
  assert (effects_of t (log w1) = effects_of t (log w) ++ [LauncherAttach t url token])
    as Hlog1 by (rewrite Hw1; fields; apply effects_of_own; reflexivity).
  destruct (acquire_rounds t FromLaunch params context c evs w1 causes Hlt Halways)
    as [Hrounds _].
  destruct (Hrounds Hwait Hevs) as (Hr1 & Hr2 & Hr3). fold w' in Hr1, Hr2, Hr3.
  assert (effects_of t (log w')
          = effects_of t (log w)
            ++ flat_map (fun _ : string => [LauncherAttach t url token; Delay t 1000]) causes
            ++ [LauncherAttach t url token; TargetManagerConnect t c]) as Hlog.
  { rewrite Hr3, Hlog1. fold url token. rewrite <- app_assoc. f_equal.
    apply rounds_shift. }
  split; [exact Hr1|]. split; [exact Hlog|]. split.
  - unfold open_attempts. rewrite Hlog, !filter_app, !length_app.
    assert (length (filter is_open
                      (flat_map (fun _ : string => [LauncherAttach t url token; Delay t 1000])
                         causes)) = length causes) as ->.
    { clear. induction causes as [|m l IH]; [reflexivity|].
      simpl flat_map. rewrite filter_cons_True by exact I.
      rewrite filter_cons_False by (intros []). simpl. rewrite IH. reflexivity. }
    rewrite filter_cons_True by exact I. rewrite filter_cons_False by (intros []).
    simpl. lia.
  - intros later. apply past_acquire_run. split; [exact Hr2|].
    intros x Hx. unfold waits_at in Hr1. rewrite Hr1 in Hx. injection Hx as <-. auto.
Qed.

Lemma acquire_retries_until_success_witness :
  let evs := [AttachRejected 0 "connection refused"; TargetAdded 9; DelayElapsed 0;
              AttachRejected 0 "connection refused"; DelayElapsed 0;
              AttachResolved 0 7; AttachRejected 1 "late"] in
  let w1 := step initial (Launch example_params example_context) in
  browser_attach example_params /\
  events_of 0 evs
  = flat_map (fun m => [AttachRejected 0 m; DelayElapsed 0])
      ["connection refused"; "connection refused"] ++ [AttachResolved 0 7] /\
  always (fun v => is_current v example_params = true /\
                   isCancellationRequested v (cancellationToken example_context) = false)
    w1 evs /\
  open_attempts 0 (run w1 evs) = 3.
Proof.
  intros evs w1.
  assert (browser_attach example_params) as Hp by (split; [left|]; reflexivity).
  assert (events_of 0 evs
          = flat_map (fun m => [AttachRejected 0 m; DelayElapsed 0])
              ["connection refused"; "connection refused"] ++ [AttachResolved 0 7])
    as Hevs by reflexivity.
  assert (always (fun v => is_current v example_params = true /\
                           isCancellationRequested v (cancellationToken example_context)
                           = false) w1 evs) as Halways
    by (vm_compute; repeat split).
  split; [exact Hp|]. split; [exact Hevs|]. split; [exact Halways|].
  exact (proj1 (proj2 (proj2 (acquire_retries_until_success initial example_params
                                example_context ["connection refused"; "connection refused"]
                                7 evs Hp Hevs Halways)))).
Defined.


(** ** Errors of the acquire loop *)

(** C3: an attempt that is in the acquire loop ends with an error exactly in
    two cases.  (1) [launcher.attach] is rejected while the token is already
    signalled: the error is "Cannot connect to the target at <endpoint>:
    <cause>", and nothing more is tried.  (2) The loop condition is checked
    when the parameters are no longer current: the error cites "Cancelled".
    A rejection with the token not signalled is not surfaced: the loop waits
    1000 ms, and if the parameters are still current then, it opens the
    transport again. *)
Theorem acquire_error_cases (history : list Event) (t : nat) (attempt : Attempt) :
  let w := run initial history in
  attempts w !! t = Some attempt ->
  t_pc attempt = AwaitAttach \/ t_pc attempt = AwaitDelay ->
  let params := t_params attempt in
  let token := cancellationToken (t_context attempt) in
  let url := BrowserAttacher.browserURL params in
  let failed m := "Cannot connect to the target at " +:+ url +:+ ": " +:+ m in
  (forall ev r,
     attempt_results (step w ev) !! t = Some r <->
     (exists m, ev = AttachRejected t m /\ t_pc attempt = AwaitAttach /\
                isCancellationRequested w token = true /\ r = Some (failed m)) \/
     (ev = DelayElapsed t /\ t_pc attempt = AwaitDelay /\
      is_current w params = false /\ r = Some (failed "Cancelled"))) /\
  (forall m, contains (failed m) url /\ contains (failed m) m) /\
  (forall m, t_pc attempt = AwaitAttach -> isCancellationRequested w token = true ->
     attempts (step w (AttachRejected t m)) !! t = None /\
     log (step w (AttachRejected t m)) = log w) /\
  (t_pc attempt = AwaitDelay -> is_current w params = false ->
     attempts (step w (DelayElapsed t)) !! t = None /\
     log (step w (DelayElapsed t)) = log w) /\
  (forall m, t_pc attempt = AwaitAttach -> isCancellationRequested w token = false ->
     waits_at (step w (AttachRejected t m)) t (t_origin attempt) params
       (t_context attempt) AwaitDelay /\
     launch_results (step w (AttachRejected t m)) = launch_results w /\
     log (step w (AttachRejected t m)) = log w ++ [Delay t 1000]) /\
  (t_pc attempt = AwaitDelay -> is_current w params = true ->
     waits_at (step w (DelayElapsed t)) t (t_origin attempt) params
       (t_context attempt) AwaitAttach /\
     launch_results (step w (DelayElapsed t)) = launch_results w /\
     log (step w (DelayElapsed t)) = log w ++ [LauncherAttach t url token]) /\
  (forall v t' tok,
     BrowserAttacher.acquire_loop t' params tok v =
     if is_current v params
     then (BrowserAttacher.Suspended AwaitAttach, emit (LauncherAttach t' url tok) v)
     else (BrowserAttacher.Returned (inl (failed "Cancelled")), v)).
Proof.
  intros w Ht Hpc params token url failed.
  destruct (wf_attempts w (wf_reachable history) t attempt Ht) as (Hlt & Hnone & _).
  clearbody w.
  assert (forall m, BrowserAttacher.cannotConnect params m = failed m) as Hmsg
    by (intros m; apply cannotConnect_text).
  assert (forall m, step w (AttachRejected t m) =
            if at_attach (t_pc attempt) then
              if isCancellationRequested w token
              then BrowserAttacher.finish t attempt (Some (failed m)) w
              else suspend t attempt AwaitDelay (emit (Delay t 1000) w)
            else w) as Hrej.
  { intros m. simpl. rewrite (waiting_lookup _ _ _ _ Ht).
    destruct (at_attach (t_pc attempt)); [|reflexivity].
    unfold BrowserAttacher.acquire_rejected. fold params token.
    destruct (isCancellationRequested w token); simpl; rewrite ?Hmsg; reflexivity. }
  assert (step w (DelayElapsed t) =
            if at_delay (t_pc attempt) then
              if is_current w params
              then suspend t attempt AwaitAttach (emit (LauncherAttach t url token) w)
              else BrowserAttacher.finish t attempt (Some (failed "Cancelled")) w
            else w) as Hdel.
  { simpl. rewrite (waiting_lookup _ _ _ _ Ht).
    destruct (at_delay (t_pc attempt)); [|reflexivity].
    unfold BrowserAttacher.acquire_delayed, BrowserAttacher.acquire_loop. fold params token url.
    destruct (is_current w params); simpl; rewrite ?Hmsg; reflexivity. }
  split; [|split; [|split; [|split; [|split; [|split]]]]].
  - intros ev r. split.
    + intros Hr.
      destruct (decide (addressee ev = Some t)) as [Hev | Hev].
      * apply addressee_Some in Hev
          as [[c ->] | [[m ->] | [-> | [[tm ->] | [-> | ->]]]]].
        -- exfalso. simpl in Hr. rewrite (waiting_lookup _ _ _ _ Ht) in Hr.
           destruct (at_attach (t_pc attempt)); simpl in Hr; congruence.
        -- rewrite Hrej in Hr. left. exists m.
           destruct (t_pc attempt) eqn:Epc; simpl in Hr; try congruence.
           destruct (isCancellationRequested w token) eqn:Ec.
           ++ rewrite (proj1 (finish_result _ _ _ _)) in Hr.
              injection Hr as <-. auto.
           ++ simpl in Hr. congruence.
        -- rewrite Hdel in Hr. right.
           destruct (t_pc attempt) eqn:Epc; simpl in Hr; try congruence.
           destruct (is_current w params) eqn:Ec.
           ++ simpl in Hr. congruence.
           ++ rewrite (proj1 (finish_result _ _ _ _)) in Hr.
              injection Hr as <-. auto.
        -- exfalso. simpl in Hr. rewrite (waiting_lookup _ _ _ _ Ht) in Hr.
           destruct Hpc as [Hpc | Hpc]; rewrite Hpc in Hr; simpl in Hr; congruence.
        -- exfalso. simpl in Hr. rewrite (waiting_lookup _ _ _ _ Ht) in Hr.
           destruct Hpc as [Hpc | Hpc]; rewrite Hpc in Hr; simpl in Hr; congruence.
        -- exfalso. simpl in Hr. rewrite (waiting_lookup _ _ _ _ Ht) in Hr.
           destruct Hpc as [Hpc | Hpc]; rewrite Hpc in Hr; simpl in Hr; congruence.
      * exfalso. destruct (untouched_step t w ev Hev Hlt) as (_ & _ & Ha & _).
        congruence.
    + intros [(m & -> & Epc & Ec & ->) | (-> & Epc & Ec & ->)].
      * rewrite Hrej, Epc, Ec. simpl. apply finish_result.
      * rewrite Hdel, Epc, Ec. simpl. apply finish_result.
  - intros m. split.
    + apply contains_middle.
    + unfold failed. rewrite <- (append_assoc _ ": " m), <- append_assoc.
      apply contains_end.
  - intros m Epc Ec. rewrite Hrej, Epc, Ec. simpl.
    split; apply finish_result.
  - intros Epc Ec. rewrite Hdel, Epc, Ec. simpl.
    split; apply finish_result.
  - intros m Epc Ec. rewrite Hrej, Epc, Ec. simpl.
    repeat split. unfold waits_at. simpl. apply lookup_insert_eq.
  - intros Epc Ec. rewrite Hdel, Epc, Ec. simpl.
    repeat split. unfold waits_at. simpl. apply lookup_insert_eq.
  - intros v t' tok. unfold BrowserAttacher.acquire_loop. rewrite Hmsg. reflexivity.
Qed.

Lemma acquire_error_cases_witness :
  let w := run initial [Launch example_params example_context] in
  let attempt := {| t_origin := FromLaunch; t_params := example_params;
                    t_context := example_context; t_pc := AwaitAttach |} in
  attempts w !! 0 = Some attempt /\
  (t_pc attempt = AwaitAttach \/ t_pc attempt = AwaitDelay) /\
  log (step w (AttachRejected 0 "connection refused")) = log w ++ [Delay 0 1000].
Proof.
  intros w attempt.
  assert (attempts w !! 0 = Some attempt) as H1 by reflexivity.
  assert (t_pc attempt = AwaitAttach \/ t_pc attempt = AwaitDelay) as H2
    by (left; reflexivity).
  repeat (split; [assumption|]).
  pose proof (acquire_error_cases [Launch example_params example_context] 0 attempt H1 H2)
    as (_ & _ & _ & _ & H & _).
  exact (proj2 (proj2 (H "connection refused" eq_refl eq_refl))).
Defined.


(** ** What [launch] returns *)

(** C4: [launch] of a configuration that is not a browser attach request
    returns [{ blockSessionTermination: false }] at once and leaves the attacher
    as it was.  Otherwise it records the configuration as the current one, and
    whenever it returns, it returns [{ error }] with the error string of its
    attach attempt, or [{ blockSessionTermination: true }] if the attempt
    returned no error.  No result of [launch] has both fields. *)
Theorem launch_result (history : list Event) (params : AttachParams)
    (context : ILaunchContext) :
  let w := run initial history in
  let call := next_handle w in
  let w1 := step w (Launch params context) in
  (~ browser_attach params ->
     launch_results w1 !! call
       = Some {| error := None; blockSessionTermination := Some false |} /\
     this w1 = this w /\ attempts w1 = attempts w /\ log w1 = log w) /\
  (browser_attach params ->
     _lastLaunchParams (this w1) = Some params /\
     forall evs,
       match attempt_results (run w1 evs) !! call with
       | Some (Some e) =>
           launch_results (run w1 evs) !! call
             = Some {| error := Some e; blockSessionTermination := None |}
       | Some None =>
           launch_results (run w1 evs) !! call
             = Some {| error := None; blockSessionTermination := Some true |}
       | None =>
           launch_results (run w1 evs) !! call = None /\
           exists attempt, attempts (run w1 evs) !! call = Some attempt
       end) /\
  (forall evs t r, launch_results (run w1 evs) !! t = Some r ->
     error r = None \/ blockSessionTermination r = None).
Proof.
  intros w call w1.
  assert (wf w) as Hwf by apply wf_reachable.
  assert (wf w1) as Hwf1 by apply wf_step, Hwf.
  split; [|split].
  - intros Hn. subst w1. simpl. unfold BrowserAttacher.launch.
    destruct (_ || _) eqn:E.
    + fields. split; [apply lookup_insert_eq | auto].
    + apply browser_attach_dec in E. contradiction.
  - intros Hp.
    assert (w1 = suspend call
                   {| t_origin := FromLaunch; t_params := params; t_context := context;
                      t_pc := AwaitAttach |} AwaitAttach
                   (emit (LauncherAttach call (BrowserAttacher.browserURL params)
                            (cancellationToken context))
                      (with_this (set_lastLaunchParams (Some params))
                         (with_next_handle S w)))) as Hw1
      by (subst w1; simpl; apply launch_handled, Hp).
    split; [rewrite Hw1; reflexivity|].
    intros evs.
    assert (launch_pending_or_returned call w1) as HK
      by (rewrite Hw1; apply pending_suspend; reflexivity).
    pose proof (launch_pending_or_returned_run call evs w1 Hwf1 HK) as HK'.
    pose proof (wf_run evs w1 Hwf1) as Hwf'.
    destruct HK' as [(attempt & Ht & _) | (_ & a & Ha & Hl)].
    + destruct (wf_attempts _ Hwf' _ _ Ht) as (_ & Ha & Hl). rewrite Ha. eauto.
    + rewrite Ha, Hl. destruct a as [e|]; [|reflexivity].
      unfold BrowserAttacher.launch_return.
      destruct (wf_results _ Hwf' _ _ Ha) as (_ & _ & He).
      rewrite (truthy_nonempty e (He e eq_refl)). reflexivity.
  - intros evs t r Hr.
    destruct (wf_launches _ (wf_run evs w1 Hwf1) _ _ Hr) as [_ Hl].
    destruct Hl as [[-> _] | [(e & _ & _ & ->) | [_ ->]]]; simpl; auto.
Qed.

Lemma launch_result_witness :
  browser_attach example_params /\
  _lastLaunchParams (this (step (run initial []) (Launch example_params example_context)))
  = Some example_params.
Proof.
  assert (browser_attach example_params) as Hp by (split; [left|]; reflexivity).
  split; [exact Hp|].
  exact (proj1 (proj1 (proj2 (launch_result [] example_params example_context)) Hp)).
Defined.


(** ** Disconnection *)

(** C5: when a connection with one live listener of the attacher reports its
    end, the listener clears the connection field, then tears down the
    current target manager if there is one (dispose, clear the field, fire
    target-list-changed once), and then: if the listener's parameters are the
    current ones and their [restart] is set, it sets exactly one timer of
    1000 ms, whose callback clears the timer field and runs the attach attempt
    with the token [NeverCancelled], which is never signalled; otherwise it
    fires the terminated notification with [{ killed: true, code: 0 }]. *)
Theorem disconnect_handling (w : World) (c subscription : nat) (l : Listener) :
  filter (fun x : nat * Listener => l_connection x.2 = c) (listeners w) = [(subscription, l)] ->
  let params := l_params l in
  let context := l_context l in
  let teardown := match _targetManager (this w) with
                  | Some tm => [TargetManagerDispose tm; FireTargetListChanged]
                  | None => []
                  end in
  let w' := step w (Disconnected c) in
  _connection (this w') = None /\
  _targetManager (this w') = None /\
  attempts w' = attempts w /\
  if is_current w params && restart params then
    let timer := next_handle w in
    let t := S timer in
    let fired := step w' (TimerFired timer) in
    log w' = log w ++ teardown ++ [SetTimeout timer 1000] /\
    timers w' = <[timer := (params, context)]> (timers w) /\
    _attemptTimer (this w') = Some timer /\
    _attemptTimer (this fired) = None /\
    timers fired !! timer = None /\
    waits_at fired t FromTimer params (with_token context NeverCancelled) AwaitAttach /\
    log fired = log w' ++ [LauncherAttach t (BrowserAttacher.browserURL params) NeverCancelled] /\
    forall v, isCancellationRequested v NeverCancelled = false
  else
    log w' = log w ++ teardown ++ [FireTerminated {| killed := true; code := 0 |}] /\
    timers w' = timers w /\
    _attemptTimer (this w') = _attemptTimer (this w).
Proof.
  intros Hl params context teardown w'.
  assert (w' = BrowserAttacher.onDisconnected_listener params context w) as Hw'
    by (subst w'; simpl; rewrite Hl; reflexivity).
  clearbody w'. subst w'.
  unfold BrowserAttacher.onDisconnected_listener.
  set (w1 := with_this (set_connection None) w).
  set (w2 := match _targetManager (this w1) with Some tm => _ | None => w1 end).
  assert (_connection (this w2) = None /\ _targetManager (this w2) = None /\
          attempts w2 = attempts w /\ timers w2 = timers w /\
          _attemptTimer (this w2) = _attemptTimer (this w) /\
          _lastLaunchParams (this w2) = _lastLaunchParams (this w) /\
          next_handle w2 = next_handle w /\
          log w2 = log w ++ teardown) as (Hc & Htm & Ht & Hti & Hat & Hlp & Hn & Hlog).
  { subst w2 teardown. change (_targetManager (this w1)) with (_targetManager (this w)).
    destruct (_targetManager (this w)) as [tm|] eqn:E; fields; repeat split; auto.
    - rewrite <- app_assoc. reflexivity.
    - symmetry. apply app_nil_r. }
  clearbody w2. clear w1.
  rewrite (is_current_this w w2 params Hlp).
  destruct (is_current w params && restart params) eqn:Econd.
  - unfold BrowserAttacher._scheduleAttach. fields. rewrite Hn, Hlog, Hti.
    split; [exact Hc|]. split; [exact Htm|]. split; [exact Ht|].
    cbv zeta.
    split; [rewrite <- app_assoc; reflexivity|]. split; [reflexivity|].
    split; [reflexivity|].
    set (w3 := with_this _ _).
    assert (timers w3 !! next_handle w = Some (params, context)) as Hti3
      by (subst w3; fields; rewrite Hti; apply lookup_insert_eq).
    assert (step w3 (TimerFired (next_handle w)) =
            BrowserAttacher.timer_callback params context
              (with_timers (delete (next_handle w)) w3)) as Hf
      by (unfold step; rewrite Hti3; reflexivity).
    rewrite Hf. unfold BrowserAttacher.timer_callback, BrowserAttacher._attemptToAttach,
      BrowserAttacher.acquire_loop.
    assert (is_current
              (with_next_handle S
                 (with_this (set_attemptTimer None)
                    (with_timers (delete (next_handle w)) w3))) params = true) as Hcur.
    { apply andb_true_iff in Econd as [Hcur _]. rewrite <- Hcur.
      apply is_current_this. subst w3. fields. exact Hlp. }
    rewrite Hcur. subst w3. unfold waits_at. simpl. rewrite Hn, Hlog.
    split; [reflexivity|]. split; [apply lookup_delete_eq|].
    split; [apply lookup_insert_eq|]. split; [|reflexivity].
    rewrite <- !app_assoc. reflexivity.
  - fields. rewrite Hlog.
    split; [exact Hc|]. split; [exact Htm|]. split; [exact Ht|].
    split; [rewrite <- app_assoc; reflexivity|]. auto.
Qed.

Lemma disconnect_handling_witness :
  let w := run initial [Launch example_params example_context; AttachResolved 0 7;
                        ConnectResolved 0 (Some 5); MainTargetResolved 0] in
  let l := {| l_connection := 7; l_params := example_params;
              l_context := example_context |} in
  filter (fun x : nat * Listener => l_connection x.2 = 7) (listeners w) = [(1, l)] /\
  _connection (this (step w (Disconnected 7))) = None.
Proof.
  intros w l.
  assert (filter (fun x : nat * Listener => l_connection x.2 = 7) (listeners w) = [(1, l)])
    as H by reflexivity.
  split; [exact H|].
  exact (proj1 (disconnect_handling w 7 1 l H)).
Defined.


(** ** Targets going away *)

(** C6: when a target manager the attacher listens to (once) reports a target
    removed, the attacher fires target-list-changed, and then, if and only if
    the manager's list is empty by then and the removed target can be attached
    to, fires terminated once with [{ killed: true, code: 0 }]; nothing else
    changes. *)
Theorem target_removed (w : World) (tm : nat) (targetList : list ITarget)
    (target : ITarget) :
  filter (fun x => x = tm) (wired w) = [tm] ->
  let w' := step w (TargetRemoved tm targetList target) in
  state_of w' = state_of w /\
  (targetList = [] /\ canAttach target = true ->
   log w' = log w ++ [FireTargetListChanged;
                      FireTerminated {| killed := true; code := 0 |}]) /\
  (~ (targetList = [] /\ canAttach target = true) ->
   log w' = log w ++ [FireTargetListChanged]).
Proof.
  intros Hw w'.
  assert (w' = BrowserAttacher.onTargetRemoved_listener targetList target w) as Hw'
    by (subst w'; simpl; unfold notify; rewrite Hw; reflexivity).
  clearbody w'. subst w'. unfold BrowserAttacher.onTargetRemoved_listener.
  split; [|split].
  - destruct (_ && _); reflexivity.
  - intros [-> ->]. simpl. rewrite <- app_assoc. reflexivity.
  - intros Hn. destruct targetList as [|x xs].
    + destruct (canAttach target); [|reflexivity]. exfalso. auto.
    + reflexivity.
Qed.

Lemma target_removed_witness :
  let w := run initial [Launch example_params example_context; AttachResolved 0 7;
                        ConnectResolved 0 (Some 5); MainTargetResolved 0] in
  let target := {| targetId := 1; canAttach := true |} in
  filter (fun x => x = 5) (wired w) = [5] /\
  log (step w (TargetRemoved 5 [] target))
  = log w ++ [FireTargetListChanged; FireTerminated {| killed := true; code := 0 |}].
Proof.
  intros w target.
  assert (filter (fun x => x = 5) (wired w) = [5]) as H by reflexivity.
  split; [exact H|].
  exact (proj1 (proj2 (target_removed w 5 [] target H)) (conj eq_refl eq_refl)).
Defined.


(** ** The race for the main target *)

(** C7: once the target manager is connected the attempt starts
    [waitForMainTarget] and a delay of [params.timeout], and returns with the
    first of the two to settle; the later one finds nobody waiting.  If the
    target is found first the attempt returns no error.  If the delay elapses
    first it returns "Can't find a valid target that matches <urlFilter ||
    url> within <timeout>ms"; the attacher's fields are then as before, its
    connection included, and nothing is closed. *)
Theorem main_target_race (w : World) (t : nat) (attempt : Attempt) (c tm : nat) :
  attempts w !! t = Some attempt ->
  t_pc attempt = AwaitConnect c ->
  let params := t_params attempt in
  let filter_value := js_to_string (js_of_option (js_or (urlFilter params) (url params))) in
  let message := "Can't find a valid target that matches " +:+ filter_value
                 +:+ " within " +:+ pretty (timeout params) +:+ "ms" in
  let racing := step w (ConnectResolved t (Some tm)) in
  let found := step racing (MainTargetResolved t) in
  let late := step racing (TimeoutElapsed t) in
  (waits_at racing t (t_origin attempt) params (t_context attempt) (AwaitRace tm) /\
   log racing = log w ++ [TargetManagerListen tm; WaitForMainTarget t tm params;
                          Delay t (timeout params)]) /\
  (attempt_results found !! t = Some None /\
   (t_origin attempt = FromLaunch ->
    launch_results found !! t
      = Some {| error := None; blockSessionTermination := Some true |}) /\
   step found (TimeoutElapsed t) = found) /\
  (attempt_results late !! t = Some (Some message) /\
   (t_origin attempt = FromLaunch ->
    launch_results late !! t
      = Some {| error := Some message; blockSessionTermination := None |}) /\
   step late (MainTargetResolved t) = late /\
   contains message filter_value /\
   contains message (pretty (timeout params)) /\
   this late = this racing /\
   _connection (this late) = _connection (this w) /\
   log late = log racing).
Proof.
  intros Ht Hpc params filter_value message racing found late.
  destruct (step_addressed w t attempt Ht) as (_ & _ & _ & E4 & _ & _).
  assert (racing = BrowserAttacher.attempt_managed t attempt (Some tm) w) as Hr
    by (subst racing; rewrite E4, Hpc; reflexivity).
  set (attempt' := {| t_origin := t_origin attempt; t_params := t_params attempt;
                   t_context := t_context attempt; t_pc := AwaitRace tm |}).
  assert (attempts racing !! t = Some attempt') as Ht'
    by (rewrite Hr; simpl; apply lookup_insert_eq).
  destruct (step_addressed racing t attempt' Ht') as (_ & _ & _ & _ & E5 & E6).
  assert (BrowserAttacher.noMatchingTarget params = message) as Hm
    by apply noMatchingTarget_text.
  assert (found = BrowserAttacher.finish t attempt' None racing) as Hfound
    by (subst found; rewrite E5; reflexivity).
  assert (late = BrowserAttacher.finish t attempt' (Some message) racing) as Hlate
    by (subst late; rewrite E6, <- Hm; reflexivity).
  clear E5 E6. rename Hfound into E5. rename Hlate into E6.
  pose proof (finish_result t attempt' None racing) as (F1 & F2 & F3 & F4).
  pose proof (finish_result t attempt' (Some message) racing) as (L1 & L2 & L3 & L4).
  rewrite <- E5 in F1, F2, F3, F4. rewrite <- E6 in L1, L2, L3, L4.
  split; [|split].
  - split; [exact Ht'|]. rewrite Hr. simpl. rewrite <- !app_assoc. reflexivity.
  - split; [exact F1|]. split.
    + intros Ho. rewrite E5. apply (finish_launch_result t attempt' None racing Ho).
    + apply (step_unaddressed found t); [exact F2 | reflexivity].
  - split; [exact L1|].
    split; [|split; [|split; [|split; [|split; [|split]]]]].
    + intros Ho. rewrite E6.
      rewrite (finish_launch_result t attempt' (Some message) racing Ho).
      unfold BrowserAttacher.launch_return.
      rewrite truthy_nonempty; [reflexivity|]. rewrite <- Hm.
      apply noMatchingTarget_nonempty.
    + apply (step_unaddressed late t); [exact L2 | reflexivity].
    + apply contains_middle.
    + unfold message.
      rewrite <- (append_assoc filter_value " within " _), <- append_assoc.
      apply contains_middle.
    + exact L4.
    + rewrite L4, Hr. reflexivity.
    + exact L3.
Qed.

Lemma main_target_race_witness :
  let w := run initial [Launch example_params example_context; AttachResolved 0 7] in
  let attempt := {| t_origin := FromLaunch; t_params := example_params;
                 t_context := example_context; t_pc := AwaitConnect 7 |} in
  attempts w !! 0 = Some attempt /\
  t_pc attempt = AwaitConnect 7 /\
  attempt_results (run w [ConnectResolved 0 (Some 5); TimeoutElapsed 0]) !! 0
  = Some (Some "Can't find a valid target that matches * within 3000ms").
Proof.
  intros w attempt.
  assert (attempts w !! 0 = Some attempt) as H1 by reflexivity.
  assert (t_pc attempt = AwaitConnect 7) as H2 by reflexivity.
  repeat (split; [assumption|]).
  exact (proj1 (proj2 (proj2 (main_target_race w 0 attempt 7 5 H1 H2)))).
Defined.


(** ** Termination *)

(** C8: [terminate] clears the current parameters, so that no parameters are
    current any more, and calls [close] on the connection if the attacher has
    one; it changes nothing else.  After a second [terminate] the attacher and
    everything pending are as after the first.  [disconnect] is [terminate]. *)
Theorem terminate_idempotent (w : World) :
  let w1 := step w Terminate in
  let w2 := step w1 Terminate in
  this w1 = set_lastLaunchParams None (this w) /\
  (forall params, is_current w1 params = false) /\
  log w1 = log w ++ match _connection (this w) with
                    | Some connection => [ConnectionClose connection]
                    | None => []
                    end /\
  state_of w1 = state_of (with_this (set_lastLaunchParams None) w) /\
  this w2 = this w1 /\
  state_of w2 = state_of w1 /\
  step w Disconnect = step w Terminate.
Proof.
  simpl. unfold BrowserAttacher.disconnect, BrowserAttacher.terminate. fields.
  destruct (_connection (this w)) as [c|] eqn:E; fields; rewrite ?E; fields;
    repeat split; auto using app_nil_r.
Qed.


(** ** Disposal *)

(** C9 (as stated, refuted), in three runs.  In [w], after a disconnect with
    [restart] set the retry timer fires and the retried attempt fails to open
    the transport, so that it waits in the delay of its acquire loop;
    [dispose] is then called twice: the delay is still pending afterwards,
    and when it elapses the attempt opens the transport again.  In [u], two
    connections obtained for the same parameters end one after the other, so
    that two retry timers are pending, the second handle replacing the first
    in [_attemptTimer]; [dispose] clears the second only, and the first still
    fires and starts an attempt.  In [v], an attacher that has a target
    manager is disposed twice and calls [dispose] on the manager twice. *)
Lemma dispose_leaves_retry_loop_running :
  let w := run initial [Launch example_params example_context;
                        AttachResolved 0 7; ConnectResolved 0 (Some 5);
                        MainTargetResolved 0; Disconnected 7; TimerFired 2;
                        AttachRejected 3 "connection refused"; Dispose; Dispose] in
  let u := run initial [Launch example_params example_context;
                        Launch example_params example_context;
                        AttachResolved 0 7; AttachResolved 1 8;
                        Disconnected 7; Disconnected 8; Dispose] in
  let v := run initial [Launch example_params example_context;
                        AttachResolved 0 7; ConnectResolved 0 (Some 5);
                        MainTargetResolved 0] in
  ~ no_live_timer w /\
  waits_at w 3 FromTimer example_params (with_token example_context NeverCancelled)
    AwaitDelay /\
  log (step w (DelayElapsed 3))
  = log w ++ [LauncherAttach 3 "http://127.0.0.1:9222" NeverCancelled] /\
  _attemptTimer (this u) = Some 5 /\
  timers u !! 4 = Some (example_params, example_context) /\
  log (step u (TimerFired 4))
  = log u ++ [LauncherAttach 6 "http://127.0.0.1:9222" NeverCancelled] /\
  target_manager_disposals 5 v = 0 /\
  target_manager_disposals 5 (run v [Dispose; Dispose]) = 2.
Proof.
  split; [|vm_compute; repeat split].
  intros [_ H].
  destruct (H 3 {| t_origin := FromTimer; t_params := example_params;
                   t_context := with_token example_context NeverCancelled;
                   t_pc := AwaitDelay |} eq_refl) as [H1 _].
  discriminate.
Qed.

(** C9 (amended): in every world the attacher can be in, [dispose] disposes
    the subscriptions of [_disposables] and empties the list, after which no
    disconnect listener is live; it clears the timer whose handle is in
    [_attemptTimer], after which that timer's callback never runs; it calls
    [dispose] on the current target manager.  It keeps the other fields,
    [_attemptTimer] and [_targetManager] included, and leaves the attach
    attempts in flight and the listeners given to target managers as they
    are.  A second [dispose] in succession changes neither the attacher nor
    what is pending and disposes no subscription again. *)
Theorem dispose_releases (history : list Event) :
  let w := run initial history in
  let w1 := step w Dispose in
  let w2 := step w1 Dispose in
  let cleared := match _attemptTimer (this w) with
                 | Some timer => [ClearTimeout timer]
                 | None => []
                 end in
  let disposed := match _targetManager (this w) with
                  | Some tm => [TargetManagerDispose tm]
                  | None => []
                  end in
  _disposables (this w1) = [] /\
  listeners w1 = [] /\
  (forall timer, _attemptTimer (this w) = Some timer ->
     timers w1 = delete timer (timers w) /\ step w1 (TimerFired timer) = w1) /\
  (_attemptTimer (this w) = None -> timers w1 = timers w) /\
  log w1 = log w ++ map DisposeSubscription (_disposables (this w)) ++ cleared ++ disposed /\
  this w1 = set_disposables [] (this w) /\
  attempts w1 = attempts w /\
  wired w1 = wired w /\
  state_of w2 = state_of w1 /\
  subscription_disposals w2 = subscription_disposals w1.
Proof.
  intros w w1 w2 cleared disposed.
  assert (wf w) as Hwf by apply wf_reachable.
  pose proof (wf_dispose_listeners w Hwf) as Hnil.
  assert (w1 = BrowserAttacher.dispose w) as Hw1 by reflexivity.
  assert (w2 = BrowserAttacher.dispose w1) as Hw2 by reflexivity.
  clearbody w1 w2. rewrite dispose_equation in Hw1, Hw2. cbv zeta in Hw1, Hw2.
  assert (this w1 = set_disposables [] (this w) /\
          listeners w1 = [] /\ attempts w1 = attempts w /\ wired w1 = wired w /\
          timers w1 = match _attemptTimer (this w) with
                      | Some timer => delete timer (timers w)
                      | None => timers w
                      end /\
          log w1 = log w ++ map DisposeSubscription (_disposables (this w))
                   ++ cleared ++ disposed) as (Hthis & Hls & Hts & Hwd & Hti & Hlog).
  { subst w1 cleared disposed. unfold BrowserAttacher.clearTimeout.
    destruct (_attemptTimer (this w)) as [timer|];
      destruct (_targetManager (this w)) as [tm|]; fields; rewrite Hnil;
      repeat split; rewrite <- ?app_assoc; rewrite ?app_nil_r; reflexivity. }
  split; [rewrite Hthis; reflexivity|]. split; [exact Hls|].
  split; [|split; [|split; [exact Hlog | split; [exact Hthis | split;
    [exact Hts | split; [exact Hwd |]]]]]].
  - intros timer E. rewrite E in Hti. split; [exact Hti|].
    unfold step. rewrite Hti, lookup_delete_eq. reflexivity.
  - intros E. rewrite E in Hti. exact Hti.
  - assert (_attemptTimer (this w1) = _attemptTimer (this w)) as E1
      by (rewrite Hthis; reflexivity).
    assert (_targetManager (this w1) = _targetManager (this w)) as E2
      by (rewrite Hthis; reflexivity).
    assert (_disposables (this w1) = []) as E3 by (rewrite Hthis; reflexivity).
    rewrite E1, E2 in Hw2. subst w2 cleared disposed.
    unfold BrowserAttacher.clearTimeout, state_of, subscription_disposals.
    destruct (_attemptTimer (this w)) as [timer|];
      destruct (_targetManager (this w)) as [tm|]; fields;
      (split; [apply world_eq; fields; rewrite ?Hti, ?Hls, ?E3, ?Hthis;
               rewrite ?delete_delete_eq; reflexivity
              | rewrite ?E3; simpl map; rewrite ?app_nil_r, ?omap_app;
                simpl; rewrite ?app_nil_r; reflexivity]).
Qed.

Lemma dispose_releases_witness :
  let w := run initial [Launch example_params example_context; AttachResolved 0 7;
                        ConnectResolved 0 (Some 5); MainTargetResolved 0;
                        Disconnected 7] in
  _attemptTimer (this w) = Some 2 /\
  step (step w Dispose) (TimerFired 2) = step w Dispose.
Proof.
  intros w.
  assert (_attemptTimer (this w) = Some 2) as H by reflexivity.
  split; [exact H|].
  exact (proj2 (proj1 (proj2 (proj2 (dispose_releases
           [Launch example_params example_context; AttachResolved 0 7;
            ConnectResolved 0 (Some 5); MainTargetResolved 0; Disconnected 7]))) 2 H)).
Defined.


(** ** No target manager *)

(** C10: when [launcher.attach] yields a connection and
    [BrowserTargetManager.connect] then yields [undefined], the attempt
    returns no error and [launch] returns [{ blockSessionTermination: true }],
    with the connection installed but no target manager, no listener on one,
    no wait for a main target and no timeout delay; a later settlement for
    the attempt finds nobody waiting. *)
Theorem connect_undefined_is_success (w : World) (t : nat) (attempt : Attempt) (c : nat) :
  attempts w !! t = Some attempt ->
  t_pc attempt = AwaitAttach ->
  t_origin attempt = FromLaunch ->
  let w' := run w [AttachResolved t c; ConnectResolved t None] in
  attempt_results w' !! t = Some None /\
  launch_results w' !! t = Some {| error := None; blockSessionTermination := Some true |} /\
  _connection (this w') = Some c /\
  _targetManager (this w') = None /\
  wired w' = wired w /\
  log w' = log w ++ [OnDisconnected (next_handle w) c; TargetManagerConnect t c] /\
  attempts w' !! t = None /\
  step w' (MainTargetResolved t) = w' /\
  step w' (TimeoutElapsed t) = w'.
Proof.
  intros Ht Hpc Ho w'.
  destruct (step_addressed w t attempt Ht) as (E1 & _).
  set (w1 := step w (AttachResolved t c)).
  assert (w1 = BrowserAttacher.attempt_connected t attempt c w) as Hw1
    by (subst w1; rewrite E1, Hpc; reflexivity).
  set (attempt' := {| t_origin := t_origin attempt; t_params := t_params attempt;
                   t_context := t_context attempt; t_pc := AwaitConnect c |}).
  assert (attempts w1 !! t = Some attempt') as Ht'
    by (rewrite Hw1; simpl; apply lookup_insert_eq).
  destruct (step_addressed w1 t attempt' Ht') as (_ & _ & _ & E4 & _ & _).
  assert (w' = BrowserAttacher.finish t attempt' None (with_this (set_targetManager None) w1))
    as Hw' by (subst w'; rewrite !run_cons, run_nil; fold w1; rewrite E4; reflexivity).
  clearbody w'. subst w'.
  pose proof (finish_result t attempt' None (with_this (set_targetManager None) w1))
    as (F1 & F2 & F3 & F4).
  split; [exact F1|]. split; [apply (finish_launch_result t attempt' None _ Ho)|].
  split; [rewrite F4, Hw1; reflexivity|].
  split; [rewrite F4; reflexivity|].
  split; [unfold BrowserAttacher.finish; destruct (t_origin attempt'); rewrite Hw1; reflexivity|].
  split; [rewrite F3, Hw1; simpl; rewrite <- app_assoc; reflexivity|].
  split; [exact F2|].
  split; apply (step_unaddressed _ t); auto.
Qed.

Lemma connect_undefined_is_success_witness :
  let w := run initial [Launch example_params example_context] in
  let attempt := {| t_origin := FromLaunch; t_params := example_params;
                 t_context := example_context; t_pc := AwaitAttach |} in
  attempts w !! 0 = Some attempt /\
  t_pc attempt = AwaitAttach /\
  t_origin attempt = FromLaunch /\
  launch_results (run w [AttachResolved 0 7; ConnectResolved 0 None]) !! 0
  = Some {| error := None; blockSessionTermination := Some true |}.
Proof.
  intros w attempt.
  assert (attempts w !! 0 = Some attempt) as H1 by reflexivity.
  assert (t_pc attempt = AwaitAttach) as H2 by reflexivity.
  assert (t_origin attempt = FromLaunch) as H3 by reflexivity.
  repeat (split; [assumption|]).
  exact (proj1 (proj2 (connect_undefined_is_success w 0 attempt 7 H1 H2 H3))).
Defined.

(** * Further properties of the attacher *)

(** ** What a step can add to the log, and where attempts come from *)

Ltac member := solve [repeat constructor].

Ltac incl :=
  let k := fresh "k" in
  let Hk := fresh "Hk" in
  intros k Hk;
  repeat (apply elem_of_cons in Hk; destruct Hk as [->|Hk]; [member|]);
  apply elem_of_nil in Hk; destruct Hk.

Lemma evolves_refl ks w : evolves ks w w.
Proof.
  split.
  - exists []. split; [symmetry; apply app_nil_r | constructor].
  - intros t a' H. left. exists a'. auto.
Qed.

Lemma evolves_trans ks w1 w2 w3 : evolves ks w1 w2 -> evolves ks w2 w3 -> evolves ks w1 w3.
Proof.
  intros [(d1 & L1 & F1) A1] [(d2 & L2 & F2) A2]. split.
  - exists (d1 ++ d2). split; [rewrite L2, L1; symmetry; apply app_assoc|].
    apply Forall_app. auto.
  - intros t a3 H3. destruct (A2 t a3 H3) as [(a2 & H2 & Ho & Hp & Hc) | Hnew]; [|auto].
    destruct (A1 t a2 H2) as [(a1 & H1 & Ho1 & Hp1 & Hc1) | Hnew].
    + left. exists a1. repeat split; congruence.
    + right. rewrite <- Ho, <- Hc. exact Hnew.
Qed.

Lemma evolves_weaken ks ks' w w' : ks ⊆ ks' -> evolves ks w w' -> evolves ks' w w'.
Proof.
  intros Hsub [(d & L & F) A]. split; [|exact A].
  exists d. split; [exact L|]. eapply Forall_impl; [exact F|]. intros e He. apply Hsub, He.
Qed.

Lemma evolves_same ks w w' :
  log w' = log w -> attempts w' = attempts w -> evolves ks w w'.
Proof.
  intros L A. split.
  - exists []. split; [rewrite L; symmetry; apply app_nil_r | constructor].
  - intros t a' H. left. exists a'. rewrite <- A. auto.
Qed.

Lemma evolves_emit ks e w : kind e ∈ ks -> evolves ks w (emit e w).
Proof.
  intros He. split.
  - exists [e]. split; [reflexivity|]. constructor; [exact He | constructor].
  - intros t a' H. left. exists a'. auto.
Qed.

Lemma evolves_foldl {B} ks (f : World -> B -> World) (l : list B) :
  (forall w b, evolves ks w (f w b)) -> forall w, evolves ks w (foldl f w l).
Proof.
  intros Hf. induction l as [|b l IH]; intros w; simpl; [apply evolves_refl|].
  eapply evolves_trans; [apply Hf | apply IH].
Qed.

Lemma known_same w w' t a : attempts w' = attempts w -> known w t a -> known w' t a.
Proof. unfold known. intros ->. auto. Qed.

Lemma known_waiting w t ok a : waiting w t ok = Some a -> known w t a.
Proof. intros H. apply waiting_Some in H as [H _]. left. exists a. auto. Qed.

Lemma evolves_suspend ks t a pc w : known w t a -> evolves ks w (suspend t a pc w).
Proof.
  intros Hk. split.
  - exists []. split; [symmetry; apply app_nil_r | constructor].
  - intros t' a' H. fields in H. destruct (decide (t = t')) as [<-|Hne].
    + rewrite lookup_insert_eq in H. injection H as <-. exact Hk.
    + rewrite lookup_insert_ne in H by exact Hne. left. exists a'. auto.
Qed.

Lemma evolves_finish ks t a error w : evolves ks w (BrowserAttacher.finish t a error w).
Proof.
  split.
  - exists []. split; [|constructor].
    rewrite app_nil_r. apply finish_result.
  - intros t' a' H. left. exists a'. split; [|auto].
    unfold BrowserAttacher.finish in H. destruct (t_origin a); fields in H.
    all: destruct (decide (t = t')) as [<-|Hne];
      [rewrite lookup_delete_eq in H; discriminate
      | rewrite lookup_delete_ne in H by exact Hne; exact H].
Qed.

Lemma evolves_scheduleAttach params context w :
  evolves [SetTimeoutCall] w (BrowserAttacher._scheduleAttach params context w).
Proof.
  unfold BrowserAttacher._scheduleAttach.
  eapply evolves_trans; [apply (evolves_emit _ (SetTimeout (next_handle w) 1000) w); member|].
  apply evolves_same; reflexivity.
Qed.

Lemma evolves_onDisconnected params context w :
  evolves (if is_current w params && restart params
           then [ManagerDisposeCall; ListChangedCall; SetTimeoutCall]
           else [ManagerDisposeCall; ListChangedCall; TerminatedCall])
    w (BrowserAttacher.onDisconnected_listener params context w).
Proof.
  unfold BrowserAttacher.onDisconnected_listener.
  set (w1 := with_this (set_connection None) w).
  set (w2 := match _targetManager (this w1) with Some tm => _ | None => w1 end).
  assert (_lastLaunchParams (this w2) = _lastLaunchParams (this w)) as Hp
    by (subst w2; destruct (_targetManager (this w1)); reflexivity).
  assert (evolves [ManagerDisposeCall; ListChangedCall] w w2) as H2.
  { subst w2. destruct (_targetManager (this w1)) as [tm|];
      [|apply evolves_same; reflexivity].
    eapply evolves_trans; [apply (evolves_emit _ (TargetManagerDispose tm) w); member|].
    eapply evolves_trans; [|apply evolves_emit; member].
    apply evolves_same; reflexivity. }
  clearbody w2. rewrite (is_current_this w w2 params Hp).
  destruct (is_current w params && restart params).
  - eapply evolves_trans; [eapply evolves_weaken; [|exact H2]; incl|].
    eapply evolves_weaken; [|apply evolves_scheduleAttach]; incl.
  - eapply evolves_trans; [eapply evolves_weaken; [|exact H2]; incl|].
    apply evolves_emit. member.
Qed.

Lemma evolves_attempt_connected t a c w :
  known w t a ->
  evolves [ListenCall; ConnectCall] w (BrowserAttacher.attempt_connected t a c w).
Proof.
  intros Hk. unfold BrowserAttacher.attempt_connected.
  eapply evolves_trans; [|apply evolves_suspend; eapply known_same; [|exact Hk]; reflexivity].
  set (w1 := with_this _ (with_listeners _ _)).
  eapply (evolves_trans _ _ w1); [apply evolves_same; reflexivity|].
  eapply evolves_trans; apply evolves_emit; member.
Qed.

Lemma evolves_attempt_acquire ks t a r w0 w :
  known w t a -> evolves ks w0 w ->
  (forall c, r = BrowserAttacher.Returned (inr c) -> [ListenCall; ConnectCall] ⊆ ks) ->
  evolves ks w0 (BrowserAttacher.attempt_acquire t a (r, w)).
Proof.
  intros Hk H Hr. eapply evolves_trans; [exact H|].
  destruct r as [pc | [e | c]]; simpl.
  - apply evolves_suspend, Hk.
  - apply evolves_finish.
  - eapply evolves_weaken; [|apply evolves_attempt_connected, Hk]; apply (Hr c eq_refl).
Qed.

Lemma evolves_acquire_loop t a params token w :
  known w t a ->
  evolves (if is_current w params then [OpenCall] else [])
    w (BrowserAttacher.attempt_acquire t a (BrowserAttacher.acquire_loop t params token w)).
Proof.
  intros Hk. unfold BrowserAttacher.acquire_loop.
  destruct (is_current w params); apply evolves_attempt_acquire; try discriminate.
  - eapply known_same; [|exact Hk]. reflexivity.
  - apply evolves_emit. member.
  - exact Hk.
  - apply evolves_refl.
Qed.

Lemma evolves_acquire_rejected t a params token m w :
  known w t a ->
  evolves [DelayCall]
    w (BrowserAttacher.attempt_acquire t a
         (BrowserAttacher.acquire_rejected t params token m w)).
Proof.
  intros Hk. unfold BrowserAttacher.acquire_rejected.
  destruct (isCancellationRequested w token); apply evolves_attempt_acquire; try discriminate.
  - exact Hk.
  - apply evolves_refl.
  - eapply known_same; [|exact Hk]. reflexivity.
  - apply evolves_emit. member.
Qed.

Lemma evolves_attempt_managed t a tm w :
  known w t a ->
  evolves [ManagerListenCall; WaitCall; DelayCall]
    w (BrowserAttacher.attempt_managed t a tm w).
Proof.
  intros Hk. unfold BrowserAttacher.attempt_managed. destruct tm as [tm|].
  - eapply evolves_trans;
      [|apply evolves_suspend; eapply known_same; [|exact Hk]; reflexivity].
    set (w1 := with_wired _ _).
    eapply (evolves_trans _ _ w1); [apply evolves_same; reflexivity|].
    eapply evolves_trans; [eapply evolves_trans|]; apply evolves_emit; member.
  - eapply evolves_trans; [|apply evolves_finish]. apply evolves_same; reflexivity.
Qed.

Lemma evolves_fresh_attempt t origin params context w :
  origin = FromLaunch \/ cancellationToken context = NeverCancelled ->
  evolves (if is_current w params then [OpenCall] else [])
    w (BrowserAttacher._attemptToAttach t origin params context w).
Proof.
  intros Ho. unfold BrowserAttacher._attemptToAttach.
  apply evolves_acquire_loop. right. exact Ho.
Qed.

Lemma evolves_launch params context w :
  evolves [OpenCall] w (BrowserAttacher.launch params context w).
Proof.
  unfold BrowserAttacher.launch. destruct (_ || _).
  - apply evolves_same; reflexivity.
  - set (w1 := with_this _ _).
    eapply (evolves_trans _ _ w1); [apply evolves_same; reflexivity|].
    eapply evolves_weaken; [|apply evolves_fresh_attempt; auto].
    destruct (is_current w1 params); incl.
Qed.

Lemma evolves_timer_callback params context w :
  evolves (if is_current w params then [OpenCall] else [])
    w (BrowserAttacher.timer_callback params context w).
Proof.
  unfold BrowserAttacher.timer_callback.
  set (w1 := with_next_handle S _).
  eapply (evolves_trans _ _ w1); [apply evolves_same; reflexivity|].
  rewrite <- (is_current_this w w1 params eq_refl).
  apply evolves_fresh_attempt. auto.
Qed.

Lemma evolves_dispose w :
  evolves [UnlistenCall; ClearTimeoutCall; ManagerDisposeCall] w (BrowserAttacher.dispose w).
Proof.
  unfold BrowserAttacher.dispose.
  set (w1 := foldl _ w _).
  assert (evolves [UnlistenCall; ClearTimeoutCall; ManagerDisposeCall] w w1) as H1.
  { subst w1. apply evolves_foldl. intros a b. unfold BrowserAttacher.dispose_subscription.
    eapply evolves_trans; [|apply evolves_emit; member]. apply evolves_same; reflexivity. }
  clearbody w1. eapply evolves_trans; [exact H1|].
  set (w2 := with_this (set_disposables []) w1).
  eapply (evolves_trans _ _ w2); [apply evolves_same; reflexivity|].
  set (w3 := match _attemptTimer (this w2) with Some timer => _ | None => w2 end).
  assert (evolves [UnlistenCall; ClearTimeoutCall; ManagerDisposeCall] w2 w3) as H3.
  { subst w3. unfold BrowserAttacher.clearTimeout.
    destruct (_attemptTimer (this w2)); [|apply evolves_refl].
    eapply evolves_trans; [|apply evolves_emit; member]. apply evolves_same; reflexivity. }
  clearbody w3. eapply evolves_trans; [exact H3|].
  destruct (_targetManager (this w3)); [apply evolves_emit; member | apply evolves_refl].
Qed.

Lemma evolves_terminate w : evolves [CloseCall] w (BrowserAttacher.terminate w).
Proof.
  unfold BrowserAttacher.terminate.
  set (w1 := with_this _ w).
  eapply (evolves_trans _ _ w1); [apply evolves_same; reflexivity|].
  destruct (_connection (this w1)); [apply evolves_emit; member | apply evolves_refl].
Qed.

Lemma evolves_notify ks tm f w :
  (forall w, evolves ks w (f w)) -> evolves ks w (notify tm f w).
Proof. intros Hf. unfold notify. apply evolves_foldl. intros a _. apply Hf. Qed.

Lemma evolves_fire w : evolves [ListChangedCall] w (BrowserAttacher.onTargetListChange w).
Proof. apply evolves_emit. member. Qed.

Lemma evolves_onTargetRemoved targetList target w :
  evolves [ListChangedCall; TerminatedCall]
    w (BrowserAttacher.onTargetRemoved_listener targetList target w).
Proof.
  unfold BrowserAttacher.onTargetRemoved_listener.
  destruct (_ && _); [eapply evolves_trans|]; apply evolves_emit; member.
Qed.

Lemma evolves_step w ev : evolves (footprint ev) w (step w ev).
Proof.
  destruct ev; simpl.
  - apply evolves_launch.
  - apply evolves_terminate.
  - apply evolves_terminate.
  - apply evolves_refl.
  - apply evolves_dispose.
  - apply evolves_same; reflexivity.
  - destruct (waiting w attempt at_attach) as [a|] eqn:E; [|apply evolves_refl].
    apply evolves_attempt_connected. eapply known_waiting, E.
  - destruct (waiting w attempt at_attach) as [a|] eqn:E; [|apply evolves_refl].
    apply evolves_acquire_rejected. eapply known_waiting, E.
  - destruct (waiting w attempt at_delay) as [a|] eqn:E; [|apply evolves_refl].
    eapply evolves_weaken; [|apply evolves_acquire_loop; eapply known_waiting, E].
    destruct (is_current w (t_params a)); incl.
  - destruct (waiting w attempt at_connect) as [a|] eqn:E; [|apply evolves_refl].
    apply evolves_attempt_managed. eapply known_waiting, E.
  - destruct (waiting w attempt at_race) as [a|] eqn:E; [|apply evolves_refl].
    apply evolves_finish.
  - destruct (waiting w attempt at_race) as [a|] eqn:E; [|apply evolves_refl].
    apply evolves_finish.
  - destruct (timers w !! timer) as [[params context]|]; [|apply evolves_refl].
    set (w1 := with_timers _ w).
    eapply (evolves_trans _ _ w1); [apply evolves_same; reflexivity|].
    eapply evolves_weaken; [|apply evolves_timer_callback].
    destruct (is_current w1 params); incl.
  - apply evolves_foldl. intros a b.
    eapply evolves_weaken; [|apply evolves_onDisconnected].
    destruct (_ && _); incl.
  - apply evolves_notify, evolves_fire.
  - apply evolves_notify, evolves_fire.
  - apply evolves_notify, evolves_fire.
  - apply evolves_notify. intros a. apply evolves_onTargetRemoved.
Qed.

Lemma evolves_run evs : forall w, evolves (evs ≫= footprint) w (run w evs).
Proof.
  induction evs as [|ev evs IH]; intros w; [apply evolves_refl|].
  rewrite run_cons. change ((ev :: evs) ≫= footprint) with (footprint ev ++ evs ≫= footprint).
  eapply evolves_trans; (eapply evolves_weaken; [|first [apply evolves_step | apply IH]]);
    intros k Hk; apply elem_of_app; auto.
Qed.

Lemma calls_evolves k ks w w' : evolves ks w w' -> k ∉ ks -> calls k w' = calls k w.
Proof.
  intros [(d & Hd & Hks) _] Hk. unfold calls. rewrite Hd, filter_app.
  replace (filter (fun e => kind e = k) d) with (@nil Effect); [apply app_nil_r|].
  symmetry. clear Hd. induction Hks as [|e d' He _ IH]; [reflexivity|].
  rewrite filter_cons_False; [exact IH|]. intros <-. auto.
Qed.

Ltac notin :=
  let H := fresh "H" in
  intros H;
  repeat (apply elem_of_cons in H; destruct H as [H|H]; [discriminate H|]);
  apply elem_of_nil in H; exact H.

(** ** The fields written in four places only *)

Lemma core_fields w w' :
  core w' = core w ->
  _lastLaunchParams (this w') = _lastLaunchParams (this w) /\
  _targetManager (this w') = _targetManager (this w) /\
  wired w' = wired w.
Proof. unfold core. intros [= H1 H2 H3]. auto. Qed.

Lemma core_finish t a error w : core (BrowserAttacher.finish t a error w) = core w.
Proof. unfold BrowserAttacher.finish. destruct (t_origin a); reflexivity. Qed.

Lemma core_attempt_acquire t a r : core (BrowserAttacher.attempt_acquire t a r) = core r.2.
Proof. destruct r as [[pc|[e|c]] w]; simpl; [reflexivity | apply core_finish | reflexivity]. Qed.

Lemma core_acquire_loop t a params token w :
  core (BrowserAttacher.attempt_acquire t a (BrowserAttacher.acquire_loop t params token w))
  = core w.
Proof.
  rewrite core_attempt_acquire. unfold BrowserAttacher.acquire_loop.
  destruct (is_current w params); reflexivity.
Qed.

Lemma core_acquire_rejected t a params token m w :
  core (BrowserAttacher.attempt_acquire t a
          (BrowserAttacher.acquire_rejected t params token m w))
  = core w.
Proof.
  rewrite core_attempt_acquire. unfold BrowserAttacher.acquire_rejected.
  destruct (isCancellationRequested w token); reflexivity.
Qed.

Lemma core_timer_callback params context w :
  core (BrowserAttacher.timer_callback params context w) = core w.
Proof.
  unfold BrowserAttacher.timer_callback, BrowserAttacher._attemptToAttach.
  rewrite core_acquire_loop. reflexivity.
Qed.

Lemma core_dispose w : core (BrowserAttacher.dispose w) = core w.
Proof.
  unfold BrowserAttacher.dispose.
  set (w1 := foldl _ w _).
  assert (core w1 = core w) as H1.
  { subst w1. apply (foldl_invariant (fun w' => core w' = core w)); [reflexivity|].
    intros a b Ha. rewrite <- Ha. reflexivity. }
  clearbody w1. rewrite <- H1.
  set (w2 := with_this (set_disposables []) w1).
  change (core w1) with (core w2).
  set (w3 := match _attemptTimer (this w2) with Some timer => _ | None => w2 end).
  assert (core w3 = core w2) as H3
    by (subst w3; destruct (_attemptTimer (this w2)); reflexivity).
  clearbody w3. rewrite <- H3.
  destruct (_targetManager (this w3)); reflexivity.
Qed.

Lemma core_notify tm f w : (forall w, core (f w) = core w) -> core (notify tm f w) = core w.
Proof.
  intros Hf. unfold notify.
  apply (foldl_invariant (fun w' => core w' = core w)); [reflexivity|].
  intros a _ Ha. rewrite Hf. exact Ha.
Qed.

Lemma core_onTargetRemoved targetList target w :
  core (BrowserAttacher.onTargetRemoved_listener targetList target w) = core w.
Proof.
  unfold BrowserAttacher.onTargetRemoved_listener. destruct (_ && _); reflexivity.
Qed.

(** Events other than the calls of [launch] and [terminate], the resumption
    after [connect] and a disconnection leave the three fields alone. *)
Lemma core_step w ev :
  match ev with
  | Launch _ _ | Terminate | Disconnect | ConnectResolved _ _ | Disconnected _ => True
  | _ => core (step w ev) = core w
  end.
Proof.
  destruct ev; simpl; try exact I; try reflexivity.
  - apply core_dispose.
  - destruct (waiting w attempt at_attach); reflexivity.
  - destruct (waiting w attempt at_attach); [apply core_acquire_rejected | reflexivity].
  - destruct (waiting w attempt at_delay); [apply core_acquire_loop | reflexivity].
  - destruct (waiting w attempt at_race); [apply core_finish | reflexivity].
  - destruct (waiting w attempt at_race); [apply core_finish | reflexivity].
  - destruct (timers w !! timer) as [[params context]|]; [|reflexivity].
    rewrite core_timer_callback. reflexivity.
  - apply core_notify. reflexivity.
  - apply core_notify. reflexivity.
  - apply core_notify. reflexivity.
  - apply core_notify. intros a. apply core_onTargetRemoved.
Qed.

Lemma launch_manager params context w :
  _targetManager (this (BrowserAttacher.launch params context w)) = _targetManager (this w) /\
  wired (BrowserAttacher.launch params context w) = wired w.
Proof.
  unfold BrowserAttacher.launch. destruct (_ || _); [split; reflexivity|].
  unfold BrowserAttacher._attemptToAttach.
  set (w1 := with_this _ _).
  pose proof (core_acquire_loop (next_handle w)
    {| t_origin := FromLaunch; t_params := params; t_context := context;
       t_pc := AwaitAttach |} params (cancellationToken context) w1) as H.
  apply core_fields in H. tauto.
Qed.

Lemma terminate_manager w :
  _targetManager (this (BrowserAttacher.terminate w)) = _targetManager (this w) /\
  wired (BrowserAttacher.terminate w) = wired w.
Proof.
  unfold BrowserAttacher.terminate. cbn [this with_this _connection set_lastLaunchParams].
  destruct (_connection (this w)); split; reflexivity.
Qed.

Lemma onDisconnected_core params context w :
  _lastLaunchParams (this (BrowserAttacher.onDisconnected_listener params context w))
  = _lastLaunchParams (this w) /\
  _targetManager (this (BrowserAttacher.onDisconnected_listener params context w)) = None /\
  _connection (this (BrowserAttacher.onDisconnected_listener params context w)) = None /\
  wired (BrowserAttacher.onDisconnected_listener params context w) = wired w.
Proof.
  unfold BrowserAttacher.onDisconnected_listener, BrowserAttacher._scheduleAttach.
  cbn [this with_this _targetManager set_connection].
  destruct (_targetManager (this w)) eqn:E; destruct (_ && _); repeat split;
    fields; first [reflexivity | exact E].
Qed.



Lemma not_current_after_terminate w params :
  _lastLaunchParams (this w) = None -> is_current w params = false.
Proof. unfold is_current. intros ->. reflexivity. Qed.



Lemma filter_omap_length {A B} `{EqDecision B} (f : A -> option B) (b : B) (l : list A) :
  length (filter (fun y => y = b) (omap f l)) = length (filter (fun x => f x = Some b) l).
Proof.
  induction l as [|x l IH]; [reflexivity|]. simpl omap.
  destruct (f x) as [y|] eqn:E.
  - destruct (decide (y = b)) as [->|Hn].
    + rewrite filter_cons_True by reflexivity.
      rewrite (filter_cons_True (fun x => f x = Some b)) by exact E.
      cbn [length]. f_equal. exact IH.
    + rewrite filter_cons_False by exact Hn.
      rewrite (filter_cons_False (fun x => f x = Some b)) by (rewrite E; congruence).
      exact IH.
  - rewrite (filter_cons_False (fun x => f x = Some b)) by (rewrite E; discriminate).
    exact IH.
Qed.

Lemma listened_kind e tm : listened e = Some tm -> kind e = ManagerListenCall.
Proof. destruct e; simpl; congruence. Qed.

Lemma listened_none (ks : list Call) (d : list Effect) :
  Forall (fun e => kind e ∈ ks) d -> ManagerListenCall ∉ ks -> omap listened d = [].
Proof.
  intros Hd Hk. induction Hd as [|e d He _ IH]; [reflexivity|].
  simpl. destruct (listened e) as [tm|] eqn:E; [|exact IH].
  apply listened_kind in E. rewrite E in He. contradiction.
Qed.

(** The registrations with target managers are the calls that registered
    them. *)
Lemma wired_step w ev :
  wired w = omap listened (log w) -> wired (step w ev) = omap listened (log (step w ev)).
Proof.
  intros H.
  assert (ManagerListenCall ∉ footprint ev -> wired (step w ev) = wired w ->
          wired (step w ev) = omap listened (log (step w ev))) as Hframe.
  { intros Hk Hw. destruct (evolves_step w ev) as [(d & Hd & Hks) _].
    rewrite Hw, Hd, omap_app, (listened_none _ _ Hks Hk), app_nil_r. exact H. }
  pose proof (core_step w ev) as Hc.
  destruct ev;
    try (apply Hframe; [notin | exact (proj2 (proj2 (core_fields _ _ Hc)))]).
  - apply Hframe; [notin|]. apply launch_manager.
  - apply Hframe; [notin|]. apply terminate_manager.
  - apply Hframe; [notin|]. apply terminate_manager.
  - simpl. destruct (waiting w attempt at_connect) as [a|]; [|exact H].
    unfold BrowserAttacher.attempt_managed. destruct targetManager as [tm|].
    + fields. rewrite !omap_app, H. simpl. rewrite !app_nil_r. reflexivity.
    + unfold BrowserAttacher.finish. destruct (t_origin a); fields; exact H.
  - apply Hframe; [notin|]. simpl.
    apply (foldl_invariant (fun w' => wired w' = wired w)); [reflexivity|].
    intros a b <-. apply onDisconnected_core.
Qed.

Lemma wired_reachable evs :
  wired (run initial evs) = omap listened (log (run initial evs)).
Proof.
  unfold run. apply (foldl_invariant (fun w => wired w = omap listened (log w)));
    [reflexivity|]. intros w ev. apply wired_step.
Qed.

Lemma fire_each (l : list nat) : forall w,
  foldl (fun w _ => BrowserAttacher.onTargetListChange w) w l
  = with_log (fun lg => lg ++ replicate (length l) FireTargetListChanged) w.
Proof.
  induction l as [|x l IH]; intros w; simpl.
  - apply world_eq; fields; rewrite ?app_nil_r; reflexivity.
  - rewrite IH. unfold BrowserAttacher.onTargetListChange.
    apply world_eq; fields; try reflexivity.
    rewrite <- app_assoc. reflexivity.
Qed.

Lemma terminated_each params context w :
  _lastLaunchParams (this w) = None ->
  calls TerminatedCall (BrowserAttacher.onDisconnected_listener params context w)
  = calls TerminatedCall w ++ [FireTerminated graceful_exit] /\
  timers (BrowserAttacher.onDisconnected_listener params context w) = timers w.
Proof.
  intros H. unfold BrowserAttacher.onDisconnected_listener.
  set (w1 := with_this (set_connection None) w).
  set (w2 := match _targetManager (this w1) with Some tm => _ | None => w1 end).
  assert (_lastLaunchParams (this w2) = None /\ timers w2 = timers w /\
          calls TerminatedCall w2 = calls TerminatedCall w) as (Hp & Ht & Hc).
  { subst w2. destruct (_targetManager (this w1)); repeat split; try exact H.
    unfold calls. fields. rewrite !filter_app. simpl. rewrite !app_nil_r. reflexivity. }
  clearbody w2. rewrite (not_current_after_terminate w2 params Hp). simpl andb. cbv iota.
  split; [|exact Ht].
  unfold calls in *. fields. rewrite filter_app, Hc. reflexivity.
Qed.


(** ** What each event can make the attacher do *)

(** X1: over any sequence of events, the attacher makes a call of a given
    kind only at an event that has this kind in its footprint.  So
    [connection.close()] is called by [terminate] and [disconnect] only (not by
    [dispose], and not when the wait for the main target times out);
    the terminated notification comes from a disconnection or the removal of
    a target only; [clearTimeout] and [dispose()] of a subscription from
    [dispose] only; [setTimeout] from a disconnection only; and [restart], a
    cancellation and the end of the race make no call at all. *)
Theorem calls_only_from_their_events (k : Call) (w : World) (evs : list Event) :
  Forall (fun ev => k ∉ footprint ev) evs -> calls k (run w evs) = calls k w.
Proof.
  intros H. apply (calls_evolves k _ _ _ (evolves_run evs w)).
  intros Hk. apply list_elem_of_bind in Hk as (ev & Hk & Hev).
  rewrite Forall_forall in H. exact (H ev Hev Hk).
Qed.

Lemma calls_only_from_their_events_witness :
  let evs := [Launch example_params example_context; AttachResolved 0 7;
              ConnectResolved 0 (Some 5); TimeoutElapsed 0; Dispose;
              Disconnected 7; TimerFired 2; Restart] in
  Forall (fun ev => CloseCall ∉ footprint ev) evs /\
  calls CloseCall (run initial evs) = [].
Proof.
  intros evs.
  assert (Forall (fun ev => CloseCall ∉ footprint ev) evs) as H
    by (repeat constructor; notin).
  split; [exact H|].
  exact (calls_only_from_their_events CloseCall initial evs H).
Defined.

(** X2: [connection.close()] is called at most once for each call of
    [terminate] or [disconnect], and never otherwise. *)
Theorem close_once_per_terminate (w : World) (evs : list Event) :
  length (calls CloseCall (run w evs))
  <= length (calls CloseCall w) + length (filter is_terminate evs).
Proof.
  revert w. induction evs as [|ev evs IH]; intros w; [simpl; lia|].
  rewrite run_cons. specialize (IH (step w ev)).
  assert (length (calls CloseCall (step w ev))
          <= length (calls CloseCall w) + if decide (is_terminate ev) then 1 else 0) as Hs.
  { destruct (decide (is_terminate ev)) as [Ht|Ht].
    - assert (step w ev = BrowserAttacher.terminate w) as ->
        by (destruct ev; simpl in Ht; try tauto; reflexivity).
      unfold BrowserAttacher.terminate, calls.
      destruct (_connection (this (with_this (set_lastLaunchParams None) w))); fields.
      + rewrite filter_app, length_app. simpl. lia.
      + lia.
    - rewrite (calls_evolves CloseCall _ _ _ (evolves_step w ev)); [lia|].
      destruct ev; simpl in Ht; try tauto; notin. }
  destruct (decide (is_terminate ev)) as [Ht|Ht].
  - rewrite filter_cons_True by exact Ht. simpl. lia.
  - rewrite filter_cons_False by exact Ht. lia.
Qed.

(** ** Retries started by the timer *)

(** X3: in every world the attacher can reach, an attempt started by the
    retry timer runs with [NeverCancelled]; when its [launcher.attach] is
    rejected it starts the delay of 1000 ms and waits, whatever tokens have
    been cancelled: it records no error and returns nothing. *)
Theorem timer_retry_never_gives_up (history : list Event) (t : nat) (a : Attempt)
    (message : string) :
  let w := run initial history in
  waiting w t at_attach = Some a -> t_origin a = FromTimer ->
  cancellationToken (t_context a) = NeverCancelled /\
  step w (AttachRejected t message) = suspend t a AwaitDelay (emit (Delay t 1000) w).
Proof.
  intros w Hw Ho.
  assert (cancellationToken (t_context a) = NeverCancelled) as Hn.
  { destruct (evolves_run history initial) as [_ Hl].
    apply waiting_Some in Hw as [Ha _].
    destruct (Hl t a Ha) as [(a0 & H0 & _) | [H | H]].
    - change (attempts initial) with (∅ : gmap nat Attempt) in H0.
      rewrite lookup_empty in H0. discriminate.
    - congruence.
    - exact H. }
  split; [exact Hn|].
  apply waiting_Some in Hw as [Ha Hpc].
  destruct (step_addressed w t a Ha) as (_ & Hrej & _).
  rewrite Hrej, Hpc, Hn. reflexivity.
Qed.

Lemma timer_retry_never_gives_up_witness :
  let history := [Launch example_params example_context; AttachResolved 0 7;
                  Cancel 0; Disconnected 7; TimerFired 2] in
  let a := {| t_origin := FromTimer; t_params := example_params;
              t_context := with_token example_context NeverCancelled;
              t_pc := AwaitAttach |} in
  waiting (run initial history) 3 at_attach = Some a /\
  t_origin a = FromTimer /\
  step (run initial history) (AttachRejected 3 "ECONNREFUSED")
  = suspend 3 a AwaitDelay (emit (Delay 3 1000) (run initial history)).
Proof.
  intros history a.
  assert (waiting (run initial history) 3 at_attach = Some a) as H1 by reflexivity.
  assert (t_origin a = FromTimer) as H2 by reflexivity.
  split; [exact H1|]. split; [exact H2|].
  exact (proj2 (timer_retry_never_gives_up history 3 a "ECONNREFUSED" H1 H2)).
Defined.

(** ** After [terminate] *)



(** X5: after [terminate], a disconnection makes every disconnect listener
    of the connection fire the terminated notification, once each, with
    [{ killed: true, code: 0 }], also when [params.restart] is set; no timer
    is added. *)
Theorem disconnect_after_terminate (w : World) (c : nat) :
  _lastLaunchParams (this w) = None ->
  calls TerminatedCall (step w (Disconnected c))
  = calls TerminatedCall w
    ++ replicate (length (filter (fun l => l_connection l.2 = c) (listeners w)))
         (FireTerminated graceful_exit) /\
  timers (step w (Disconnected c)) = timers w.
Proof.
  simpl. generalize (filter (fun l => l_connection l.2 = c) (listeners w)).
  intros ls. revert w. induction ls as [|l ls IH]; intros w H.
  - simpl. rewrite app_nil_r. auto.
  - simpl foldl.
    destruct (terminated_each (l_params l.2) (l_context l.2) w H) as [Hc Ht].
    assert (_lastLaunchParams
              (this (BrowserAttacher.onDisconnected_listener (l_params l.2)
                       (l_context l.2) w)) = None) as H'
      by (rewrite <- H; apply onDisconnected_core).
    destruct (IH _ H') as [IHc IHt].
    rewrite IHc, IHt, Hc, Ht, <- app_assoc. auto.
Qed.

Lemma disconnect_after_terminate_witness :
  let w := run initial [Launch example_params example_context; AttachResolved 0 7;
                        Terminate] in
  _lastLaunchParams (this w) = None /\
  restart example_params = true /\
  calls TerminatedCall (step w (Disconnected 7)) = [FireTerminated graceful_exit].
Proof.
  intros w.
  assert (_lastLaunchParams (this w) = None) as H1 by reflexivity.
  split; [exact H1|]. split; [reflexivity|].
  exact (proj1 (disconnect_after_terminate w 7 H1)).
Defined.

(** ** The target list *)


(** X7: when a target manager reports a change of its service workers, the
    navigation of a frame or a new target, the attacher fires its
    target-list-changed notification once for each time it registered its
    listeners with this manager, and does nothing else; for a manager it
    never registered with, nothing happens. *)
Theorem list_changed_forwarded (history : list Event) (ev : Event) (tm : nat) :
  ev = ServiceWorkersChanged tm \/ ev = FrameNavigated tm \/ ev = TargetAdded tm ->
  let w := run initial history in
  step w ev
  = with_log (fun lg => lg ++ replicate
                (length (filter (fun e => listened e = Some tm) (log w)))
                FireTargetListChanged) w.
Proof.
  intros Hev w.
  assert (step w ev = notify tm BrowserAttacher.onTargetListChange w) as ->
    by (destruct Hev as [-> | [-> | ->]]; reflexivity).
  unfold notify. rewrite fire_each. subst w.
  rewrite (wired_reachable history), filter_omap_length. reflexivity.
Qed.

Lemma list_changed_forwarded_witness :
  let history := [Launch example_params example_context; AttachResolved 0 7;
                  ConnectResolved 0 (Some 5); MainTargetResolved 0] in
  (FrameNavigated 5 = ServiceWorkersChanged 5 \/ FrameNavigated 5 = FrameNavigated 5 \/
   FrameNavigated 5 = TargetAdded 5) /\
  log (step (run initial history) (FrameNavigated 5))
  = log (run initial history) ++ [FireTargetListChanged].
Proof.
  intros history.
  assert (FrameNavigated 5 = ServiceWorkersChanged 5 \/ FrameNavigated 5 = FrameNavigated 5 \/
          FrameNavigated 5 = TargetAdded 5) as H by (right; left; reflexivity).
  split; [exact H|].
  rewrite (list_changed_forwarded history (FrameNavigated 5) 5 H).
  vm_compute. reflexivity.
Defined.

(** * Properties of the generator *)

Section GenerateCdpApiFacts.
Import GenerateCdpApi.

Lemma upper_idempotent c : upper (upper c) = upper c.
Proof. destruct c as [[] [] [] [] [] [] [] []]; reflexivity. Qed.

Lemma upper_ascii c : nat_of_ascii c < 128 -> nat_of_ascii (upper c) < 128.
Proof. destruct c as [[] [] [] [] [] [] [] []]; vm_compute; lia. Qed.

Lemma toTitleCase_cons c rest : toTitleCase (String c rest) = Some (String (upper c) rest).
Proof. reflexivity. Qed.

Lemma toTitleCase_None s : toTitleCase s = None <-> s = "".
Proof. destruct s; [tauto|]. rewrite toTitleCase_cons. split; discriminate. Qed.

Lemma length_append (a b : string) :
  String.length (a +:+ b) = String.length a + String.length b.
Proof.
  induction a as [|c a IH]; [reflexivity|].
  change (S (String.length (a +:+ b)) = S (String.length a + String.length b)).
  rewrite IH. reflexivity.
Qed.

Lemma append_cons c (a b : string) : String c a +:+ b = String c (a +:+ b).
Proof. reflexivity. Qed.

Lemma append_nonempty (a b : string) : b <> "" -> a +:+ b <> "".
Proof.
  intros Hb H. apply (f_equal String.length) in H. rewrite length_append in H.
  destruct b; [congruence|]. simpl in H. lia.
Qed.

Lemma truthy_Some_iff (s : string) : truthy (Some s) = true <-> s <> "".
Proof. destruct s; simpl; split; congruence. Qed.

Lemma truthy_is_Some v : truthy v = true -> exists s, v = Some s /\ s <> "".
Proof. destruct v as [[|c s]|]; simpl; try discriminate. intros _. eexists. split; [reflexivity | discriminate]. Qed.

(** ** [split] and [join] *)

Lemma split_not_nil sep s : split sep s <> [].
Proof.
  destruct s as [|c s]; simpl; [discriminate|].
  destruct (Ascii.eqb c sep); [discriminate|].
  destruct (split sep s); discriminate.
Qed.

Lemma join_cons sep x y l : join sep (x :: y :: l) = x +:+ sep +:+ join sep (y :: l).
Proof. reflexivity. Qed.

Lemma join_split sep s : join (String sep "") (split sep s) = s.
Proof.
  induction s as [|c s IH]; [reflexivity|]. simpl split.
  destruct (Ascii.eqb c sep) eqn:E.
  - apply Ascii.eqb_eq in E. subst c.
    pose proof (split_not_nil sep s) as Hn.
    destruct (split sep s) as [|y l]; [congruence|].
    rewrite join_cons, IH. reflexivity.
  - pose proof (split_not_nil sep s) as Hn.
    destruct (split sep s) as [|y l]; [congruence|].
    destruct l as [|z l].
    + simpl in *. rewrite IH. reflexivity.
    + rewrite join_cons, append_cons. rewrite join_cons in IH. rewrite IH. reflexivity.
Qed.

Lemma split_lines sep s :
  Forall (fun line => sep ∉ list_ascii_of_string line) (split sep s).
Proof.
  induction s as [|c s IH]; simpl.
  - repeat constructor. simpl. apply not_elem_of_nil.
  - destruct (Ascii.eqb c sep) eqn:E.
    + constructor; [simpl; apply not_elem_of_nil | exact IH].
    + apply Ascii.eqb_neq in E.
      destruct (split sep s) as [|y l].
      * repeat constructor. simpl. intros H.
        apply elem_of_cons in H as [H|H]; [congruence|]. apply elem_of_nil in H. exact H.
      * apply Forall_cons in IH as [Hy Hl]. constructor; [|exact Hl].
        simpl. intros H. apply elem_of_cons in H as [H|H]; [congruence | auto].
Qed.

(** ** [appendText] *)

Lemma add_tag_falsy text tag : is_truthy tag.2 = false -> add_tag text tag = text.
Proof. unfold add_tag. intros ->. reflexivity. Qed.

Lemma add_tag_truthy text tag :
  is_truthy tag.2 = true ->
  exists more, add_tag text tag = Some (js_to_string (js_of_option text) +:+ String LF more).
Proof.
  unfold add_tag. intros ->. simpl negb. cbv iota.
  destruct tag.2 as [|b|value].
  - exists ("@" +:+ tag.1). reflexivity.
  - exists ("@" +:+ tag.1). reflexivity.
  - exists (("@" +:+ tag.1) +:+ " " +:+ value).
    rewrite !append_assoc. reflexivity.
Qed.

Lemma truthy_append (a : string) c b : truthy (Some (a +:+ String c b)) = true.
Proof. apply truthy_Some_iff, append_nonempty. discriminate. Qed.

Lemma add_tag_keeps text tag : truthy text = true -> truthy (add_tag text tag) = true.
Proof.
  intros H. destruct (is_truthy tag.2) eqn:E.
  - destruct (add_tag_truthy text tag E) as [more ->]. apply truthy_append.
  - rewrite add_tag_falsy; assumption.
Qed.

Lemma tags_truthy tags : forall text,
  truthy (foldl add_tag text tags)
  = truthy text || existsb (fun tag => is_truthy tag.2) tags.
Proof.
  induction tags as [|tag tags IH]; intros text; simpl.
  - rewrite orb_false_r. reflexivity.
  - rewrite IH. destruct (is_truthy tag.2) eqn:E.
    + destruct (add_tag_truthy text tag E) as [more ->].
      rewrite truthy_append, orb_true_r. reflexivity.
    + rewrite add_tag_falsy by exact E. reflexivity.
Qed.

Lemma appendText_frame text tags result :
  appendText text tags result = result ++ appendText text tags [].
Proof.
  unfold appendText. destruct (negb _); [rewrite app_nil_r|]; reflexivity.
Qed.

Lemma ascii_only_cons c s :
  ascii_only (String c s) <-> nat_of_ascii c < 128 /\ ascii_only s.
Proof. unfold ascii_only. simpl. exact (Forall_cons _ _ _). Qed.

Lemma appendProp_false result props :
  foldl appendProp (false, result) props
  = (false, result ++ concat (map (fun prop =>
               "" :: appendText (description prop) [("deprecated", deprecated prop)] []
               ++ [declaration prop]) props)).
Proof.
  revert result. induction props as [|prop props IH]; intros result; simpl.
  - rewrite app_nil_r. reflexivity.
  - unfold appendProp at 2. simpl. rewrite IH, appendText_frame.
    rewrite <- !app_assoc. reflexivity.
Qed.

Lemma for_each_None {A S} (body : S -> A -> option S) (P : A -> Prop) (l : list A) :
  (forall state x, body state x = None <-> P x) ->
  forall state, for_each body l state = None <-> Exists P l.
Proof.
  intros Hb. induction l as [|x l IH]; intros state; simpl.
  - rewrite Exists_nil. split; [discriminate | tauto].
  - rewrite Exists_cons. destruct (body state x) as [state'|] eqn:E.
    + rewrite IH. split; [tauto|]. intros [H|H]; [|exact H].
      apply Hb with (state := state) in H. congruence.
    + split; [|reflexivity]. intros _. left. apply (Hb state). exact E.
Qed.

Lemma api_command_None name state command :
  api_command name state command = None <-> command_name command = "".
Proof.
  unfold api_command. simpl. rewrite <- toTitleCase_None.
  destruct (toTitleCase (command_name command)); split; congruence.
Qed.

Lemma api_event_None name state event :
  api_event name state event = None <-> event_name event = "".
Proof.
  unfold api_event. simpl. rewrite <- toTitleCase_None.
  destruct (toTitleCase (event_name event)); split; congruence.
Qed.

Lemma types_command_None name state command :
  types_command name state command = None <-> command_name command = "".
Proof.
  unfold types_command. simpl. rewrite <- toTitleCase_None.
  destruct (toTitleCase (command_name command)); split; congruence.
Qed.

Lemma types_event_None name state event :
  types_event name state event = None <-> event_name event = "".
Proof.
  unfold types_event. simpl. rewrite <- toTitleCase_None.
  destruct (toTitleCase (event_name event)); split; congruence.
Qed.

Lemma types_type_None state type_ : types_type state type_ = None <-> id type_ = "".
Proof.
  unfold types_type. simpl. rewrite <- toTitleCase_None.
  destruct (toTitleCase (id type_)); [|split; congruence].
  destruct (bool_decide _); split; congruence.
Qed.

Lemma compare_Eq (s1 s2 : string) : String.compare s1 s2 = Eq <-> s1 = s2.
Proof.
  split; [apply String.compare_eq_iff|]. intros ->.
  pose proof (String.compare_antisym s2 s2) as H.
  destruct (String.compare s2 s2); simpl in H; congruence.
Qed.

Lemma tags_prefix (prefix : string) tags : forall more,
  exists more', foldl add_tag (Some (prefix +:+ String LF more)) tags
                = Some (prefix +:+ String LF more').
Proof.
  induction tags as [|tag tags IH]; intros more; simpl; [eauto|].
  destruct (is_truthy tag.2) eqn:E.
  - destruct (add_tag_truthy (Some (prefix +:+ String LF more)) tag E) as [more' ->].
    change (js_to_string (js_of_option (Some (prefix +:+ String LF more))))
      with (prefix +:+ String LF more).
    rewrite append_assoc, append_cons. apply IH.
  - rewrite add_tag_falsy by exact E. apply IH.
Qed.


(** ** Closing lines *)

Lemma closes_app (a b : list string) : closes (a ++ b) = closes a + closes b.
Proof. unfold closes. rewrite filter_app, length_app. reflexivity. Qed.

Lemma closes_none (l : list string) : Forall (fun line => line <> "}") l -> closes l = 0.
Proof.
  unfold closes. induction 1 as [|x l Hx _ IH]; [reflexivity|].
  rewrite filter_cons_False by exact Hx. exact IH.
Qed.

Lemma closes_other (l : list string) (line : string) :
  line <> "}" -> closes (l ++ [line]) = closes l.
Proof.
  intros H. rewrite closes_app, (closes_none [line]) by (repeat constructor; exact H). lia.
Qed.

Lemma closes_close (l : list string) : closes (l ++ ["}"]) = closes l + 1.
Proof. rewrite closes_app. reflexivity. Qed.

Lemma long_line (line : string) : 1 < String.length line -> line <> "}".
Proof. intros H ->. simpl in H. lia. Qed.

Ltac long := apply long_line; rewrite ?length_append; simpl; lia.

Lemma closes_appendText text tags result :
  closes (appendText text tags result) = closes result.
Proof.
  rewrite appendText_frame, closes_app.
  enough (closes (appendText text tags []) = 0) as -> by lia.
  unfold appendText. destruct (negb _); [reflexivity|].
  apply closes_none.
  cbn [app]. constructor; [discriminate|].
  apply Forall_app. split; [|repeat constructor; discriminate].
  apply Forall_map, Forall_forall. intros line _. simpl. long.
Qed.

Lemma closes_separator first result : closes (separator first result).2 = closes result.
Proof.
  unfold separator. destruct first; simpl; [reflexivity|].
  apply closes_other. discriminate.
Qed.

Lemma declaration_long prop : declaration prop <> "}".
Proof. unfold declaration. long. Qed.

Lemma closes_appendProps props : forall result,
  closes (appendProps props result) = closes result.
Proof.
  unfold appendProps. intros result.
  change (closes result) with (closes (true, result).2).
  generalize (true, result). induction props as [|prop props IH]; intros state;
    [reflexivity|].
  simpl foldl. rewrite IH. unfold appendProp.
  pose proof (closes_separator state.1 state.2) as Hs.
  destruct (separator state.1 state.2) as [first result']. simpl in *.
  rewrite closes_other by apply declaration_long.
  rewrite closes_appendText. exact Hs.
Qed.

Lemma for_each_closes {A} (body : bool * list string -> A -> option (bool * list string))
    (n : A -> nat) (l : list A) :
  (forall state x state', body state x = Some state' ->
     closes state'.2 = closes state.2 + n x) ->
  forall state state', for_each body l state = Some state' ->
    closes state'.2 = closes state.2 + sum_list (map n l).
Proof.
  intros Hb. induction l as [|x l IH]; intros state state'; simpl.
  - intros [= <-]. lia.
  - destruct (body state x) as [state1|] eqn:E; [|discriminate].
    intros H. rewrite (IH _ _ H), (Hb _ _ _ E). lia.
Qed.

Lemma sum_constant {A} (k : nat) (l : list A) : sum_list (map (fun _ => k) l) = k * length l.
Proof. induction l as [|x l IH]; simpl; lia. Qed.

Lemma sum_filter {A} (P : A -> Prop) `{forall x, Decision (P x)} (l : list A) :
  sum_list (map (fun x => if decide (P x) then 1 else 0) l) = length (filter P l).
Proof.
  induction l as [|x l IH]; [reflexivity|]. simpl map. simpl sum_list.
  destruct (decide (P x)) as [Hx|Hx].
  - rewrite filter_cons_True by exact Hx. simpl. lia.
  - rewrite filter_cons_False by exact Hx. lia.
Qed.

Lemma api_command_closes name state command state' :
  api_command name state command = Some state' -> closes state'.2 = closes state.2 + 0.
Proof.
  unfold api_command.
  pose proof (closes_separator state.1 state.2) as Hs.
  destruct (separator state.1 state.2) as [first result]. simpl in Hs.
  destruct (toTitleCase (command_name command)) as [title|]; [|discriminate].
  intros [= <-]. simpl. rewrite closes_other by long.
  rewrite closes_appendText. lia.
Qed.

Lemma api_event_closes name state event state' :
  api_event name state event = Some state' -> closes state'.2 = closes state.2 + 0.
Proof.
  unfold api_event.
  pose proof (closes_separator state.1 state.2) as Hs.
  destruct (separator state.1 state.2) as [first result]. simpl in Hs.
  destruct (toTitleCase (event_name event)) as [title|]; [|discriminate].
  intros [= <-]. simpl. rewrite closes_other by long.
  rewrite closes_appendText. lia.
Qed.

Lemma types_command_closes name state command state' :
  types_command name state command = Some state' -> closes state'.2 = closes state.2 + 2.
Proof.
  unfold types_command.
  pose proof (closes_separator state.1 state.2) as Hs.
  destruct (separator state.1 state.2) as [first result]. simpl in Hs.
  destruct (toTitleCase (command_name command)) as [title|]; [|discriminate].
  set (r1 := appendProps _ _ ++ ["}"]).
  pose proof (closes_separator first r1) as Hs1.
  destruct (separator first r1) as [first' result']. simpl in Hs1.
  intros [= <-]. simpl.
  rewrite closes_close, closes_appendProps, closes_other by long.
  rewrite closes_appendText, Hs1. subst r1.
  rewrite closes_close, closes_appendProps, closes_other by long.
  rewrite closes_appendText. lia.
Qed.

Lemma types_event_closes name state event state' :
  types_event name state event = Some state' -> closes state'.2 = closes state.2 + 1.
Proof.
  unfold types_event.
  pose proof (closes_separator state.1 state.2) as Hs.
  destruct (separator state.1 state.2) as [first result]. simpl in Hs.
  destruct (toTitleCase (event_name event)) as [title|]; [|discriminate].
  intros [= <-]. simpl.
  rewrite closes_close, closes_appendProps, closes_other by long.
  rewrite closes_appendText. lia.
Qed.

Lemma types_type_closes state type_ state' :
  types_type state type_ = Some state' ->
  closes state'.2
  = closes state.2 + if decide (type (shape type_) = Some "object") then 1 else 0.
Proof.
  unfold types_type.
  pose proof (closes_separator state.1 state.2) as Hs.
  destruct (separator state.1 state.2) as [first result]. simpl in Hs.
  destruct (toTitleCase (id type_)) as [title|]; [|discriminate].
  rewrite bool_decide_decide.
  destruct (decide (type (shape type_) = Some "object")) as [Ho|Ho].
  - intros [= <-]. simpl. rewrite closes_close.
    destruct (properties type_) as [props|].
    + rewrite closes_appendProps, closes_other by long. rewrite closes_appendText. lia.
    + rewrite closes_other by discriminate. rewrite closes_other by long.
      rewrite closes_appendText. lia.
  - intros [= <-]. simpl. rewrite closes_other by long. rewrite closes_appendText. lia.
Qed.

(** ** The array only grows *)

Lemma grows_appendText text tags result : result `prefix_of` appendText text tags result.
Proof. rewrite appendText_frame. apply prefix_app_r. reflexivity. Qed.

Lemma grows_separator first result : result `prefix_of` (separator first result).2.
Proof. unfold separator. destruct first; simpl; [reflexivity|]. apply prefix_app_r. reflexivity. Qed.

Lemma grows_appendProp state prop : state.2 `prefix_of` (appendProp state prop).2.
Proof.
  unfold appendProp. pose proof (grows_separator state.1 state.2) as Hs.
  destruct (separator state.1 state.2) as [first result]. simpl in *.
  apply prefix_app_r. etrans; [exact Hs | apply grows_appendText].
Qed.

Lemma grows_appendProps props result : result `prefix_of` appendProps props result.
Proof.
  unfold appendProps. change result with (true, result).2 at 1.
  generalize (true, result). induction props as [|prop props IH]; intros state;
    [reflexivity|].
  simpl foldl. etrans; [apply (grows_appendProp state prop) | apply IH].
Qed.

Lemma grows_for_each {A} (body : bool * list string -> A -> option (bool * list string))
    (l : list A) :
  (forall state x state', body state x = Some state' -> state.2 `prefix_of` state'.2) ->
  forall state state', for_each body l state = Some state' -> state.2 `prefix_of` state'.2.
Proof.
  intros Hb. induction l as [|x l IH]; intros state state'; simpl.
  - intros [= <-]. reflexivity.
  - destruct (body state x) as [state1|] eqn:E; [|discriminate].
    intros H. etrans; [apply (Hb _ _ _ E) | apply (IH _ _ H)].
Qed.

Ltac grow :=
  repeat first
    [ reflexivity
    | assumption
    | apply prefix_app_r
    | (etrans; [|apply grows_appendText])
    | (etrans; [|apply grows_appendProps]) ].

Lemma grows_api_command name state command state' :
  api_command name state command = Some state' -> state.2 `prefix_of` state'.2.
Proof.
  unfold api_command. pose proof (grows_separator state.1 state.2) as Hs.
  destruct (separator state.1 state.2) as [first result]. simpl in Hs.
  destruct (toTitleCase (command_name command)); [|discriminate].
  intros [= <-]. simpl. grow.
Qed.

Lemma grows_api_event name state event state' :
  api_event name state event = Some state' -> state.2 `prefix_of` state'.2.
Proof.
  unfold api_event. pose proof (grows_separator state.1 state.2) as Hs.
  destruct (separator state.1 state.2) as [first result]. simpl in Hs.
  destruct (toTitleCase (event_name event)); [|discriminate].
  intros [= <-]. simpl. grow.
Qed.

Lemma grows_types_command name state command state' :
  types_command name state command = Some state' -> state.2 `prefix_of` state'.2.
Proof.
  unfold types_command. pose proof (grows_separator state.1 state.2) as Hs.
  destruct (separator state.1 state.2) as [first result]. simpl in Hs.
  destruct (toTitleCase (command_name command)) as [title|]; [|discriminate].
  set (r1 := appendProps _ _ ++ ["}"]).
  assert (state.2 `prefix_of` r1) as H1 by (subst r1; grow).
  pose proof (grows_separator first r1) as Hs1.
  destruct (separator first r1) as [first' result']. simpl in Hs1.
  intros [= <-]. simpl. grow. etrans; [exact H1 | exact Hs1].
Qed.

Lemma grows_types_event name state event state' :
  types_event name state event = Some state' -> state.2 `prefix_of` state'.2.
Proof.
  unfold types_event. pose proof (grows_separator state.1 state.2) as Hs.
  destruct (separator state.1 state.2) as [first result]. simpl in Hs.
  destruct (toTitleCase (event_name event)); [|discriminate].
  intros [= <-]. simpl. grow.
Qed.

Lemma grows_types_type state type_ state' :
  types_type state type_ = Some state' -> state.2 `prefix_of` state'.2.
Proof.
  unfold types_type. pose proof (grows_separator state.1 state.2) as Hs.
  destruct (separator state.1 state.2) as [first result]. simpl in Hs.
  destruct (toTitleCase (id type_)); [|discriminate].
  destruct (bool_decide _); [destruct (properties type_)|]; intros [= <-]; simpl; grow.
Qed.

(** A call of [appendDomain] that returns has kept the lines that were there
    and pushed the heads of the interface and of the namespace of the
    domain. *)
Lemma appendDomain_declares d state state' :
  appendDomain d state = Some state' ->
  state.2 `prefix_of` state'.2 /\
  exists title, toTitleCase (domain d) = Some title /\
    ("export interface " +:+ title +:+ "Api {") ∈ state'.2 /\
    ("export namespace " +:+ title +:+ " {") ∈ state'.2.
Proof.
  unfold appendDomain.
  destruct (toTitleCase (domain d)) as [name|]; [|discriminate].
  pose proof (grows_separator state.1 state.2) as Hs.
  destruct (separator state.1 state.2) as [interfaceFirst result]. simpl in Hs.
  set (r1 := appendText _ [] result ++ _).
  assert (state.2 `prefix_of` r1) as Hr1 by (subst r1; grow).
  assert (("export interface " +:+ name +:+ "Api {") ∈ r1) as Hi
    by (subst r1; apply elem_of_app; right; apply list_elem_of_singleton; reflexivity).
  clearbody r1.
  pose proof (grows_for_each (api_command name) (default [] (commands d))
                (grows_api_command name) (true, r1)) as H1.
  destruct (for_each (api_command name) _ (true, r1)) as [api|]; [|discriminate].
  specialize (H1 api eq_refl). simpl in H1.
  pose proof (grows_for_each (api_event name) (default [] (events d))
                (grows_api_event name) api) as H2.
  destruct (for_each (api_event name) _ api) as [api'|]; [|discriminate].
  specialize (H2 api' eq_refl).
  pose proof (grows_separator interfaceFirst (api'.2 ++ ["}"])) as Hs2.
  destruct (separator interfaceFirst (api'.2 ++ ["}"])) as [interfaceFirst' result'].
  simpl in Hs2.
  assert (r1 `prefix_of` result') as Hr'
    by (etrans; [exact H1|]; etrans; [exact H2|]; etrans; [|exact Hs2];
        apply prefix_app_r; reflexivity).
  set (r2 := appendText _ [] result' ++ _).
  assert (result' `prefix_of` r2) as Hr2 by (subst r2; grow).
  assert (("export namespace " +:+ name +:+ " {") ∈ r2) as Hn
    by (subst r2; apply elem_of_app; right; apply list_elem_of_singleton; reflexivity).
  clearbody r2.
  pose proof (grows_for_each (types_command name) (default [] (commands d))
                (grows_types_command name) (true, r2)) as H3.
  destruct (for_each (types_command name) _ (true, r2)) as [ns|]; [|discriminate].
  specialize (H3 ns eq_refl). simpl in H3.
  pose proof (grows_for_each (types_event name) (default [] (events d))
                (grows_types_event name) ns) as H4.
  destruct (for_each (types_event name) _ ns) as [ns'|]; [|discriminate].
  specialize (H4 ns' eq_refl).
  pose proof (grows_for_each types_type (default [] (types d)) grows_types_type ns') as H5.
  destruct (for_each types_type _ ns') as [ns''|]; [|discriminate].
  specialize (H5 ns'' eq_refl).
  intros [= <-]. simpl.
  assert (r2 `prefix_of` ns''.2 ++ ["}"]) as Hend
    by (apply prefix_app_r; etrans; [exact H3|]; etrans; [exact H4 | exact H5]).
  split.
  - etrans; [exact Hr1|]. etrans; [exact Hr'|]. etrans; [exact Hr2 | exact Hend].
  - exists name. split; [reflexivity|]. split.
    + apply (elem_of_prefix r1); [exact Hi|].
      etrans; [exact Hr'|]. etrans; [exact Hr2 | exact Hend].
    + apply (elem_of_prefix r2); [exact Hn | exact Hend].
Qed.

Lemma members_pushed (domains : list Domain) : forall result,
  result `prefix_of`
    foldl (fun result d => result ++ [domain d +:+ ": " +:+ domain d +:+ "Api;"])
      result domains /\
  Forall (fun d =>
            (domain d +:+ ": " +:+ domain d +:+ "Api;") ∈
            foldl (fun result d => result ++ [domain d +:+ ": " +:+ domain d +:+ "Api;"])
              result domains) domains.
Proof.
  induction domains as [|d domains IH]; intros result; simpl.
  - split; [reflexivity | constructor].
  - destruct (IH (result ++ [domain d +:+ ": " +:+ domain d +:+ "Api;"])) as [Hp Hm].
    split; [etrans; [|exact Hp]; apply prefix_app_r; reflexivity|].
    constructor; [|exact Hm].
    apply (elem_of_prefix (result ++ [domain d +:+ ": " +:+ domain d +:+ "Api;"]));
      [|exact Hp].
    apply elem_of_app. right. apply list_elem_of_singleton. reflexivity.
Qed.

Lemma domains_declared (domains : list Domain) : forall state state',
  for_each (fun state d => appendDomain d state) domains state = Some state' ->
  state.2 `prefix_of` state'.2 /\
  Forall (fun d => exists title, toTitleCase (domain d) = Some title /\
            ("export interface " +:+ title +:+ "Api {") ∈ state'.2 /\
            ("export namespace " +:+ title +:+ " {") ∈ state'.2) domains.
Proof.
  induction domains as [|d domains IH]; intros state state'; simpl.
  - intros [= <-]. split; [reflexivity | constructor].
  - destruct (appendDomain d state) as [state1|] eqn:E; [|discriminate].
    intros H. destruct (IH _ _ H) as [Hp Hf].
    destruct (appendDomain_declares _ _ _ E) as (Hp1 & title & Ht & Hi & Hn).
    split; [etrans; [exact Hp1 | exact Hp]|].
    constructor; [|exact Hf].
    exists title. split; [exact Ht|].
    split; eapply elem_of_prefix; eauto.
Qed.

(** ** Names *)

(** X8: [toTitleCase] throws on the empty string and on nothing else.  On a
    name of ASCII characters it changes the first one at most: the result has
    the length and the rest of the name, is again a name of ASCII characters,
    and is left as it is by a second [toTitleCase]. *)
Theorem toTitleCase_first_only (s : string) :
  ascii_only s ->
  match toTitleCase s with
  | None => s = ""
  | Some title =>
      s <> "" /\ String.length title = String.length s /\ substr1 title = substr1 s /\
      ascii_only title /\ toTitleCase title = Some title
  end.
Proof.
  intros Ha. destruct s as [|c rest]; [reflexivity|].
  rewrite toTitleCase_cons. apply ascii_only_cons in Ha as [Hc Hrest].
  repeat split.
  - discriminate.
  - apply ascii_only_cons. split; [apply upper_ascii, Hc | exact Hrest].
  - rewrite toTitleCase_cons, upper_idempotent. reflexivity.
Qed.

Lemma toTitleCase_first_only_witness :
  ascii_only "network" /\ toTitleCase "network" = Some "Network" /\
  toTitleCase "Network" = Some "Network".
Proof.
  assert (ascii_only "network") as H by (repeat constructor).
  split; [exact H|]. split; [reflexivity|].
  exact (proj2 (proj2 (proj2 (proj2 (toTitleCase_first_only "network" H))))).
Defined.

(** X9: [compareDomains] never answers 0.  For two domains whose names
    differ only in the case of their letters it answers 1 in both orders; for
    any other two it answers -1 in one order and 1 in the other. *)
Theorem compareDomains_never_equal (a b : Domain) :
  ascii_only (domain a) -> ascii_only (domain b) ->
  (compareDomains a b = (-1)%Z \/ compareDomains a b = 1%Z) /\
  (toUpperCase (domain a) = toUpperCase (domain b) <->
   compareDomains a b = 1%Z /\ compareDomains b a = 1%Z) /\
  (toUpperCase (domain a) <> toUpperCase (domain b) ->
   compareDomains a b = (- compareDomains b a)%Z).
Proof.
  intros _ _. unfold compareDomains, String.ltb.
  rewrite (String.compare_antisym (toUpperCase (domain b))).
  pose proof (compare_Eq (toUpperCase (domain a)) (toUpperCase (domain b))) as He.
  destruct (String.compare (toUpperCase (domain a)) (toUpperCase (domain b))); simpl.
  - assert (toUpperCase (domain a) = toUpperCase (domain b)) as Hab
      by (apply (proj1 He); reflexivity).
    split; [auto|]. split; [tauto|]. intros Hn. contradiction.
  - assert (toUpperCase (domain a) <> toUpperCase (domain b)) as Hab
      by (intros Hab; apply (proj2 He) in Hab; discriminate).
    split; [auto|]. split; [|reflexivity].
    split; [contradiction | intros [Hx _]; discriminate].
  - assert (toUpperCase (domain a) <> toUpperCase (domain b)) as Hab
      by (intros Hab; apply (proj2 He) in Hab; discriminate).
    split; [auto|]. split; [|reflexivity].
    split; [contradiction | intros [_ Hx]; discriminate].
Qed.

Lemma compareDomains_never_equal_witness :
  let a := {| domain := "DOM"; commands := None; events := None; types := None |} in
  let b := {| domain := "Dom"; commands := None; events := None; types := None |} in
  ascii_only (domain a) /\ ascii_only (domain b) /\
  compareDomains a b = 1%Z /\ compareDomains b a = 1%Z.
Proof.
  intros a b.
  assert (ascii_only (domain a)) as Ha by (repeat constructor).
  assert (ascii_only (domain b)) as Hb by (repeat constructor).
  split; [exact Ha|]. split; [exact Hb|].
  exact (proj1 (proj1 (proj2 (compareDomains_never_equal a b Ha Hb))) eq_refl).
Defined.

(** ** Types *)

(** X10: [generateType] returns [undefined] exactly for a property that has
    neither a [type] nor a [$ref]; the declaration then reads
    [name: undefined;]. *)
Theorem generateType_undefined (prop : Property) :
  generateType prop = None <-> type prop = None /\ truthy (ref prop) = false.
Proof.
  destruct prop as [n d o dep ty en rf it]. simpl.
  destruct (truthy rf) eqn:Hr.
  - apply truthy_is_Some in Hr as (s & -> & _).
    destruct (bool_decide (ty = Some "string") && bool_decide (is_Some en));
      split; try discriminate; intros [_ H]; discriminate.
  - destruct ty as [ty|].
    + destruct (bool_decide (Some ty = Some "string") && bool_decide (is_Some en));
        [split; [discriminate | intros [H _]; discriminate]|].
      destruct (bool_decide (Some ty = Some "array"));
        [split; [discriminate | intros [H _]; discriminate]|].
      destruct (bool_decide (Some ty = Some "object"));
        split; try discriminate; intros [H _]; discriminate.
    + simpl. split; auto.
Qed.

(** X11: an array without [items] is [any[]], and an array of a property is
    the type of the property followed by [[]], where a property for which
    [generateType] returns [undefined] gives [undefined[]].  A [$ref] on the
    array itself takes precedence. *)
Theorem generateType_array (prop : Property) :
  type prop = Some "array" -> truthy (ref prop) = false ->
  generateType prop =
  Some (match items prop with
        | Some item =>
            match generateType item with
            | Some subtype => subtype +:+ "[]"
            | None => "undefined[]"
            end
        | None => "any[]"
        end) /\
  generateType prop <> None.
Proof.
  destruct prop as [n d o dep ty en rf it]. simpl. intros -> ->. simpl.
  split; [|discriminate].
  destruct it as [item|]; [|reflexivity].
  destruct (generateType item); reflexivity.
Qed.

Lemma generateType_array_witness :
  let item := {| name := "nodeIds"; description := None; optional := JAbsent;
                 deprecated := JAbsent; type := None; enum := None;
                 ref := Some "NodeId"; items := None |} in
  let prop := {| name := "nodeIds"; description := None; optional := JAbsent;
                 deprecated := JAbsent; type := Some "array"; enum := None;
                 ref := None; items := Some item |} in
  type prop = Some "array" /\ truthy (ref prop) = false /\
  generateType prop = Some "NodeId[]".
Proof.
  intros item prop.
  assert (type prop = Some "array") as H1 by reflexivity.
  assert (truthy (ref prop) = false) as H2 by reflexivity.
  split; [exact H1|]. split; [exact H2|].
  exact (proj1 (generateType_array prop H1 H2)).
Defined.

(** ** Comments *)

(** X12: [appendText] pushes nothing exactly when the text is missing or
    empty and no tag has a truthy value.  Otherwise it pushes one comment:
    the line [/**], then the text with its tags, cut at the line feeds, each
    piece behind [ * ], then the line [ */]; there is at least one piece,
    and no piece holds a line feed. *)
Theorem appendText_comment (text : option string) (tags : list (string * Json))
    (result : list string) :
  if truthy text || existsb (fun tag => is_truthy tag.2) tags then
    exists full lines,
      foldl add_tag text tags = Some full /\
      lines <> [] /\ join (String LF "") lines = full /\
      Forall (fun line => LF ∉ list_ascii_of_string line) lines /\
      appendText text tags result
      = result ++ ["/**"] ++ map (fun line => " * " +:+ line) lines ++ [" */"]
  else appendText text tags result = result.
Proof.
  unfold appendText. rewrite tags_truthy.
  destruct (truthy text || existsb _ tags) eqn:E; [|reflexivity].
  rewrite <- tags_truthy in E. apply truthy_is_Some in E as (full & Hf & _).
  exists full, (split LF full). rewrite Hf.
  repeat split; [apply split_not_nil | apply join_split | apply split_lines].
Qed.

(** X13: for a property without description, a truthy tag makes the comment
    start with the line [ * undefined]. *)
Theorem appendText_undefined_description (tags : list (string * Json))
    (result : list string) :
  Exists (fun tag => is_truthy tag.2 = true) tags ->
  exists rest,
    appendText None tags result = result ++ ["/**"; " * undefined"] ++ rest.
Proof.
  intros Hex.
  assert (exists more, foldl add_tag None tags = Some ("undefined" +:+ String LF more))
    as [more Hf].
  { induction Hex as [tag tags H | tag tags _ IH]; simpl.
    - destruct (add_tag_truthy None tag H) as [more ->]. apply tags_prefix.
    - destruct (is_truthy tag.2) eqn:E.
      + destruct (add_tag_truthy None tag E) as [more ->]. apply tags_prefix.
      + rewrite add_tag_falsy by exact E. exact IH. }
  unfold appendText. rewrite Hf.
  exists (map (fun line => " * " +:+ line) (split LF more) ++ [" */"]).
  reflexivity.
Qed.

Lemma appendText_undefined_description_witness :
  Exists (fun tag : string * Json => is_truthy tag.2 = true) [("deprecated", JBool true)] /\
  exists rest,
    appendText None [("deprecated", JBool true)] [] = [] ++ ["/**"; " * undefined"] ++ rest.
Proof.
  assert (Exists (fun tag : string * Json => is_truthy tag.2 = true)
            [("deprecated", JBool true)]) as H by (left; reflexivity).
  split; [exact H|].
  exact (appendText_undefined_description [("deprecated", JBool true)] [] H).
Defined.

(** ** Properties of an interface *)

(** X14: [appendProps] pushes, for each property in turn, its comment (if
    it has one) and its declaration; an empty line goes before every
    property but the first, and none after the last. *)
Theorem appendProps_blocks (props : list Property) (result : list string) :
  let block prop :=
    appendText (description prop) [("deprecated", deprecated prop)] []
    ++ [declaration prop] in
  appendProps props result =
  match props with
  | [] => result
  | prop :: more => result ++ block prop ++ concat (map (fun prop => "" :: block prop) more)
  end.
Proof.
  cbv zeta. unfold appendProps. destruct props as [|prop more]; [reflexivity|].
  simpl foldl. unfold appendProp at 2. simpl.
  rewrite appendProp_false, appendText_frame. simpl. rewrite <- !app_assoc. reflexivity.
Qed.

(** ** Domains *)

(** X15: [appendDomain] throws exactly when the name of the domain, of one
    of its commands or events, or the [id] of one of its types is the empty
    string. *)
Theorem appendDomain_throws (d : Domain) (state : bool * list string) :
  appendDomain d state = None <->
  domain d = "" \/
  Exists (fun command => command_name command = "") (default [] (commands d)) \/
  Exists (fun event => event_name event = "") (default [] (events d)) \/
  Exists (fun type_ => id type_ = "") (default [] (types d)).
Proof.
  unfold appendDomain. rewrite <- (toTitleCase_None (domain d)).
  destruct (toTitleCase (domain d)) as [name|]; [|tauto]. simpl.
  set (r1 := appendText _ [] _ ++ _).
  pose proof (for_each_None (api_command name) _ (default [] (commands d))
                (api_command_None name) (true, r1)) as H1.
  destruct (for_each (api_command name) _ (true, r1)) as [api|]; [|tauto].
  pose proof (for_each_None (api_event name) _ (default [] (events d))
                (api_event_None name) api) as H2.
  destruct (for_each (api_event name) _ api) as [api'|]; [|tauto].
  set (r2 := appendText _ [] _ ++ _).
  pose proof (for_each_None (types_command name) _ (default [] (commands d))
                (types_command_None name) (true, r2)) as H3.
  destruct (for_each (types_command name) _ (true, r2)) as [ns|]; [|tauto].
  pose proof (for_each_None (types_event name) _ (default [] (events d))
                (types_event_None name) ns) as H4.
  destruct (for_each (types_event name) _ ns) as [ns'|]; [|tauto].
  pose proof (for_each_None types_type _ (default [] (types d)) types_type_None ns') as H5.
  destruct (for_each types_type _ ns') as [ns''|]; [|tauto].
  split; [discriminate|].
  intros [H | [H | [H | H]]]; [discriminate | | |].
  - apply H1 in H. discriminate.
  - apply H2 in H. discriminate.
  - apply H5 in H. discriminate.
Qed.

(** X16: a call of [appendDomain] that returns has pushed one closing line
    [}] for the interface of the domain, one for its namespace, two for each
    command (its parameters and its return value), one for each event and
    one for each type whose [type] is [object]; no other line it pushes is a
    closing line, whatever the names and descriptions are. *)
Theorem appendDomain_closing_lines (d : Domain) (state state' : bool * list string) :
  appendDomain d state = Some state' ->
  closes state'.2
  = closes state.2
    + 2 + 2 * length (default [] (commands d)) + length (default [] (events d))
    + length (filter (fun type_ => type (shape type_) = Some "object")
                (default [] (types d))).
Proof.
  unfold appendDomain.
  destruct (toTitleCase (domain d)) as [name|]; [|discriminate].
  pose proof (closes_separator state.1 state.2) as Hs.
  destruct (separator state.1 state.2) as [interfaceFirst result]. simpl in Hs.
  set (r1 := appendText _ [] result ++ _).
  assert (closes r1 = closes state.2) as Hr1
    by (subst r1; rewrite closes_other by long; rewrite closes_appendText; exact Hs).
  clearbody r1.
  pose proof (for_each_closes (api_command name) (fun _ => 0) (default [] (commands d))
                (api_command_closes name) (true, r1)) as H1.
  destruct (for_each (api_command name) _ (true, r1)) as [api|]; [|discriminate].
  specialize (H1 api eq_refl). rewrite sum_constant in H1. simpl in H1.
  pose proof (for_each_closes (api_event name) (fun _ => 0) (default [] (events d))
                (api_event_closes name) api) as H2.
  destruct (for_each (api_event name) _ api) as [api'|]; [|discriminate].
  specialize (H2 api' eq_refl). rewrite sum_constant in H2.
  pose proof (closes_separator interfaceFirst (api'.2 ++ ["}"])) as Hs2.
  destruct (separator interfaceFirst (api'.2 ++ ["}"])) as [interfaceFirst' result'].
  simpl in Hs2. rewrite closes_close in Hs2.
  set (r2 := appendText _ [] result' ++ _).
  assert (closes r2 = closes result') as Hr2
    by (subst r2; rewrite closes_other by long; apply closes_appendText).
  clearbody r2.
  pose proof (for_each_closes (types_command name) (fun _ => 2) (default [] (commands d))
                (types_command_closes name) (true, r2)) as H3.
  destruct (for_each (types_command name) _ (true, r2)) as [ns|]; [|discriminate].
  specialize (H3 ns eq_refl). rewrite sum_constant in H3. simpl in H3.
  pose proof (for_each_closes (types_event name) (fun _ => 1) (default [] (events d))
                (types_event_closes name) ns) as H4.
  destruct (for_each (types_event name) _ ns) as [ns'|]; [|discriminate].
  specialize (H4 ns' eq_refl). rewrite sum_constant in H4.
  pose proof (for_each_closes types_type _ (default [] (types d)) types_type_closes ns')
    as H5.
  destruct (for_each types_type _ ns') as [ns''|]; [|discriminate].
  specialize (H5 ns'' eq_refl). rewrite sum_filter in H5.
  intros [= <-]. simpl. rewrite closes_close. lia.
Qed.

Lemma appendDomain_closing_lines_witness :
  let navigate := {| command_name := "navigate"; command_description := Some "Navigates.";
                     command_deprecated := JAbsent; parameters := None; returns := None |} in
  let d := {| domain := "page"; commands := Some [navigate]; events := None;
              types := None |} in
  exists state', appendDomain d (false, []) = Some state' /\
    closes state'.2 = 4.
Proof.
  intros navigate d. eexists. split; [reflexivity|].
  exact (appendDomain_closing_lines d (false, []) _ eq_refl).
Defined.

(** ** The file *)

(** X17: when [generate] gets to write the file, its lines hold, for every
    domain (the names being ASCII), a member of the interface [Api] named by the domain as it is
    spelled in the protocol and typed [<domain>Api], and the heads of an
    interface [<Name>Api] and of a namespace [<Name>], where [<Name>] is the
    name of the domain after [toTitleCase]. *)
Theorem generate_declares_domains (header : string) (domains : list Domain)
    (lines : list string) :
  Forall (fun d => ascii_only (domain d)) domains ->
  generate_lines header domains = Some lines ->
  Forall (fun d => exists title, toTitleCase (domain d) = Some title /\
            (domain d +:+ ": " +:+ domain d +:+ "Api;") ∈ lines /\
            ("export interface " +:+ title +:+ "Api {") ∈ lines /\
            ("export namespace " +:+ title +:+ " {") ∈ lines) domains.
Proof.
  intros _. unfold generate_lines. cbv beta iota zeta delta [separator negb].
  set (r0 := appendPauseResume _).
  destruct (members_pushed domains r0) as [_ Hm].
  set (r1 := foldl _ r0 domains) in *. clearbody r1.
  pose proof (domains_declared domains (false, r1 ++ ["}"])) as Hd.
  destruct (for_each _ domains (false, r1 ++ ["}"])) as [state|]; [|discriminate].
  destruct (Hd state eq_refl) as [Hp Hf]. simpl in Hp.
  intros [= <-].
  rewrite Forall_forall in *. intros d Hin.
  destruct (Hf d Hin) as (title & Ht & Hi & Hn).
  exists title. split; [exact Ht|].
  split; [|split; apply elem_of_app; left; assumption].
  apply elem_of_app. left. apply (elem_of_prefix r1); [apply Hm, Hin|].
  etrans; [|exact Hp]. apply prefix_app_r. reflexivity.
Qed.

Lemma generate_declares_domains_witness :
  let page := {| domain := "page"; commands := None; events := None; types := None |} in
  Forall (fun d => ascii_only (domain d)) [page] /\
  exists lines, generate_lines "// generated" [page] = Some lines /\
    "page: pageApi;" ∈ lines /\ "export interface PageApi {" ∈ lines.
Proof.
  intros page.
  assert (Forall (fun d => ascii_only (domain d)) [page]) as Ha by (repeat constructor).
  split; [exact Ha|]. eexists. split; [reflexivity|].
  pose proof (generate_declares_domains "// generated" [page] _ Ha eq_refl) as H.
  apply Forall_cons in H as [(title & Ht & Hm & Hi & _) _].
  injection Ht as <-. split; [exact Hm | exact Hi].
Defined.

End GenerateCdpApiFacts.
